(** * tml: off-side tokenizer, block parser, linker and constraint checker

    A shallow embedding of [osp.py] (the off-side tokenizer) and of the
    parsing, linking and checking parts of [tml.py], together with the
    properties of the timeline language that are proved about them.

    Conventions of the embedding.
    - Python [str] is [string]; the white space of [str.strip] and
      [str.split] is the ASCII white space of Python.
    - Python exceptions are the constructors of [pyerr]; a computation that
      may raise returns a [res].
    - [print(..., file=sys.stderr)] appends a structured record to a log.
    - A Python list used as a stack ([lev_stack]) is kept with its top
      ([lev_stack[-1]]) at the head of the Rocq list. *)

From stdpp Require Import base option list strings pretty gmap.
From Stdlib Require Import ZArith Lia Ascii Sorted.

Local Open Scope string_scope.
Local Open Scope list_scope.
Local Open Scope nat_scope.

(** ** Python runtime: exceptions and results *)

Inductive pyerr :=
| UnmatchedLevel   (* ValueError: level .. corresponds to no outer indent level *)
| SpanLength       (* ValueError: cannot calculate length of span *)
| ValueError
| TypeError
| IndexError
| AttributeError
| StopIteration
| RecursionError.

Inductive res (A : Type) :=
| Ok (a : A)
| Raise (e : pyerr).
Arguments Ok {A} a.
Arguments Raise {A} e.

Definition is_ok {A} (r : res A) : bool :=
  match r with Ok _ => true | Raise _ => false end.

(** ** Strings *)

Definition TAB : ascii := "009"%char.
Definition SPACE : ascii := " "%char.

Definition is_lws (c : ascii) : bool :=
  bool_decide (c = SPACE) || bool_decide (c = TAB).

(** [LWS.match(line).group(0)]: the longest prefix made of spaces and tabs. *)
Fixpoint LWS_span (line : string) : string :=
  match line with
  | String c rest => if is_lws c then String c (LWS_span rest) else ""
  | EmptyString => ""
  end.

(** [line[mt.span()[1]:]] *)
Fixpoint LWS_rest (line : string) : string :=
  match line with
  | String c rest => if is_lws c then LWS_rest rest else line
  | EmptyString => ""
  end.

(** [s.count(c)] for a one-character [c]. *)
Fixpoint str_count (c : ascii) (s : string) : nat :=
  match s with
  | String d rest => (if bool_decide (d = c) then 1 else 0) + str_count c rest
  | EmptyString => 0
  end.

(** [c in s] for a one-character [c]. *)
Fixpoint str_contains (c : ascii) (s : string) : bool :=
  match s with
  | String d rest => bool_decide (d = c) || str_contains c rest
  | EmptyString => false
  end.

(** ASCII white space of [str.isspace]: TAB, LF, VT, FF, CR, FS, GS, RS, US
    and the space. *)
Definition py_isspace (c : ascii) : bool :=
  let n := nat_of_ascii c in
  ((9 <=? n)%nat && (n <=? 13)%nat) || ((28 <=? n)%nat && (n <=? 32)%nat).

Fixpoint lstrip (s : string) : string :=
  match s with
  | String c rest => if py_isspace c then lstrip rest else s
  | EmptyString => ""
  end.

Definition strip (s : string) : string :=
  String.rev (lstrip (String.rev (lstrip s))).

(** [s.split()]: the maximal runs of non-space characters. *)
Fixpoint split_go (cur : option string) (s : string) : list string :=
  match s with
  | EmptyString => match cur with Some w => [String.rev w] | None => [] end
  | String c rest =>
      if py_isspace c
      then match cur with
           | Some w => String.rev w :: split_go None rest
           | None => split_go None rest
           end
      else split_go (Some (String c (default "" cur))) rest
  end.

Definition split (s : string) : list string := split_go None s.

(** [' '.join(ws)] *)
Fixpoint join (ws : list string) : string :=
  match ws with
  | [] => ""
  | [w] => w
  | w :: rest => w +:+ " " +:+ join rest
  end.

(** ** osp.py: the tokenizer *)

Inductive token :=
| INDENT
| DEDENT
| Content (s : string).

Global Instance token_eq_dec : EqDecision token.
Proof. solve_decision. Defined.

Definition is_INDENT (t : token) : bool :=
  match t with INDENT => true | _ => false end.
Definition is_DEDENT (t : token) : bool :=
  match t with DEDENT => true | _ => false end.

(** The local variables of [tokenize] that survive an iteration. *)
Record tok_state := TokState {
  lev_stack : list Z;       (* top at the head *)
  only_tabbed : bool
}.

Definition tok_init : tok_state := TokState [0%Z] true.

(** Lines 16-28: the level of a line from its leading run [span]; also the
    new value of [only_tabbed]. [tabs] is the keyword argument ([None] is
    accepted by the source and makes a tab immeasurable once a space has
    been seen). *)
Definition line_level (tabs : option Z) (ot : bool) (span : string)
  : res (Z * bool) :=
  if bool_decide (span = "") then Ok (0%Z, ot)
  else
    let ot' := if str_contains SPACE span then false else ot in
    let t := if ot' then Some 1%Z else tabs in
    let lev := Z.of_nat (str_count SPACE span) in
    if str_contains TAB span
    then match t with
         | None => Raise SpanLength
         | Some t => Ok ((lev + Z.of_nat (str_count TAB span) * t)%Z, ot')
         end
    else Ok (lev, ot').

(** Lines 34-36: [while lev_stack and lev_stack[-1] > lev: pop; yield DEDENT]. *)
Fixpoint pop_levels (lev : Z) (stack : list Z) : list token * list Z :=
  match stack with
  | top :: below =>
      if (lev <? top)%Z
      then let '(out, stack') := pop_levels lev below in (DEDENT :: out, stack')
      else ([], stack)
  | [] => ([], [])
  end.

(** One iteration of the [for line in lines] loop: the tokens yielded and
    either the next state or the exception that ends the generator. *)
Definition tokenize_line (tabs : option Z) (st : tok_state) (line : string)
  : list token * res tok_state :=
  match line_level tabs (only_tabbed st) (LWS_span line) with
  | Raise e => ([], Raise e)
  | Ok (lev, ot) =>
      let content := Content (strip (LWS_rest line)) in
      match lev_stack st with
      | [] => ([], Raise IndexError)
      | top :: _ =>
          if (top <? lev)%Z
          then ([INDENT; content], Ok (TokState (lev :: lev_stack st) ot))
          else if (lev <? top)%Z
          then
            let '(out, stack') := pop_levels lev (lev_stack st) in
            match stack' with
            | [] => (out, Raise IndexError)
            | top' :: _ =>
                if (top' <? lev)%Z
                then (out, Raise UnmatchedLevel)
                else (out ++ [content], Ok (TokState stack' ot))
            end
          else ([content], Ok (TokState (lev_stack st) ot))
      end
  end.

Fixpoint tokenize_loop (tabs : option Z) (st : tok_state) (lines : list string)
  : list token * res tok_state :=
  match lines with
  | [] => ([], Ok st)
  | line :: rest =>
      match tokenize_line tabs st line with
      | (out, Ok st') =>
          let '(out', r) := tokenize_loop tabs st' rest in (out ++ out', r)
      | (out, Raise e) => (out, Raise e)
      end
  end.

(** Lines 42-44: [while len(lev_stack) > 1: pop; yield DEDENT]. *)
Fixpoint close_blocks (stack : list Z) : list token * list Z :=
  match stack with
  | _ :: (_ :: _) as below =>
      let '(out, stack') := close_blocks below in (DEDENT :: out, stack')
  | _ => ([], stack)
  end.

(** A whole run of the generator: every token yielded, and either the level
    stack when the generator is exhausted or the exception it raised. *)
Definition tokenize_run (tabs : option Z) (lines : list string)
  : list token * res (list Z) :=
  match tokenize_loop tabs tok_init lines with
  | (out, Ok st) =>
      let '(out', stack') := close_blocks (lev_stack st) in
      (out ++ out', Ok stack')
  | (out, Raise e) => (out, Raise e)
  end.

(** What a consumer of the generator sees. *)
Record stream := Stream {
  toks : list token;
  fin : option pyerr      (* the exception raised after the last token *)
}.

Definition tokenize (tabs : option Z) (lines : list string) : stream :=
  match tokenize_run tabs lines with
  | (out, Ok _) => Stream out None
  | (out, Raise e) => Stream out (Some e)
  end.

(** The level the tokenizer computes for [line] when it comes after the
    lines [pre]; [None] when the generator stops before using it. *)
Definition level_of_line (tabs : option Z) (pre : list string) (line : string)
  : option Z :=
  match tokenize_loop tabs tok_init pre with
  | (_, Ok st) =>
      match line_level tabs (only_tabbed st) (LWS_span line) with
      | Ok (lev, _) => Some lev
      | Raise _ => None
      end
  | (_, Raise _) => None
  end.

(** The indentation run of a line has no space character. *)
Definition tabs_only (line : string) : bool :=
  negb (str_contains SPACE (LWS_span line)).

(** [read_block]: the loop at nesting level [lev]. The result is the list of
    tokens handed to the callback, in order, and the tokens left in the
    stream; [None] when the stream is exhausted before the loop breaks. *)
Fixpoint read_block_loop (lev : Z) (tok : list token)
  : list token * option (list token) :=
  match tok with
  | [] => ([], None)
  | t :: rest =>
      let lev1 := if is_INDENT t then (lev + 1)%Z else lev in
      let lev2 := if is_DEDENT t then (lev1 - 1)%Z else lev1 in
      if is_DEDENT t && (lev2 =? 0)%Z
      then ([], Some rest)
      else let '(called, remaining) := read_block_loop lev2 rest in
           (t :: called, remaining)
  end.

Definition read_block (tok : list token) : list token * option (list token) :=
  read_block_loop 0 tok.

(** ** tml.py: values and the data model *)

(** The values that reach a comparison: a number (a Python [float], or the
    [int] of a default), [None], a [str], or another object. [T] is the
    type of numbers. *)
Inductive val (T : Type) :=
| VNum (x : T)
| VNone
| VStr (s : string)
| VObj (id : string).
Arguments VNum {T} x.
Arguments VNone {T}.
Arguments VStr {T} s.
Arguments VObj {T} id.

(** What the embedding takes from the Python runtime. *)
Class PyRuntime (T : Type) := {
  num_eq_dec :: EqDecision T;
  num_ltb : T → T → bool;                  (* x < y *)
  num_leb : T → T → bool;                  (* x <= y *)
  num_add : T → T → T;                     (* x + y *)
  num_zero : T;                            (* 0 *)
  float_of_string : string → option T;     (* float(s); None: ValueError *)
  int_of_string : string → option Z;       (* int(s); None: ValueError *)
  (* getattr on a Span for a name that is not an instance attribute: the
     class attributes (HEIGHT, GAP), the methods and what [object] gives;
     None: AttributeError *)
  span_class_attr : string → option (val T)
}.

(** A set of references to ranges: the names read by the parser, or, once
    linked, the Range objects, each identified by the key it has in
    [Timeline.ranges]. *)
Inductive refs :=
| Names (s : gset string)
| Objs (s : gset string).

Global Instance refs_eq_dec : EqDecision refs.
Proof. solve_decision. Defined.

Definition refs_set (r : refs) : gset string :=
  match r with Names s | Objs s => s end.

(** Truth value of the set. *)
Definition refs_nonempty (r : refs) : bool :=
  bool_decide (refs_set r ≠ ∅).

Definition refs_add (p : string) (r : refs) : refs :=
  match r with
  | Names s => Names (s ∪ {[p]})
  | Objs s => Objs s     (* not used: the parser adds to name sets only *)
  end.

(** An element of a selector: the parser gives strings, [Timeline.link]
    also the integer -1. *)
Inductive seltok :=
| SStr (s : string)
| SInt (z : Z).

Global Instance seltok_eq_dec : EqDecision seltok.
Proof. solve_decision. Defined.

Inductive range_class := ClsRange | ClsCharacter.

Global Instance range_class_eq_dec : EqDecision range_class.
Proof. solve_decision. Defined.

Inductive block_kind := KRange | KEvent | KConstraint | KGroup | KSequence.

(** The monad of computations that may raise. *)
Global Instance res_ret : MRet res := λ A a, Ok a.
Global Instance res_bind : MBind res := λ A B k m,
  match m with Ok a => k a | Raise e => Raise e end.

Definition of_option {A} (e : pyerr) (o : option A) : res A :=
  match o with Some a => Ok a | None => Raise e end.

(** A computation that prints diagnostics (of type [D]) and may raise: what
    it printed, in order, and its result. *)
Definition writer (D A : Type) : Type := list D * res A.

Global Instance writer_ret {D} : MRet (writer D) := λ A a, ([], Ok a).
Global Instance writer_bind {D} : MBind (writer D) := λ A B k m,
  match m with
  | (l, Ok a) => let '(l', r) := k a in (l ++ l', r)
  | (l, Raise e) => (l, Raise e)
  end.

Definition raise {D A} (e : pyerr) : writer D A := ([], Raise e).
Definition warn {D} (d : D) : writer D unit := ([d], Ok tt).
Definition lift {D A} (r : res A) : writer D A := ([], r).

Section Model.
Context {T : Type} `{!PyRuntime T}.

Global Instance val_eq_dec : EqDecision (val T).
Proof. solve_decision. Defined.

Record Span := MkSpan {
  sp_start : val T;
  sp_sword : string;
  sp_end : val T;
  sp_eword : option string
}.

Record Range := MkRange {
  rg_cls : range_class;
  rg_name : string;
  rg_dispname : option string;
  rg_classes : gset string;
  rg_spans : list Span;
  rg_idx : option nat;
  rg_ambient : bool;
  rg_hanging_events : list nat;     (* positions in [Timeline.events] *)
  rg_gender : option string;        (* Character only *)
  rg_parents : refs                 (* Character only *)
}.

Record Event := MkEvent {
  ev_desc : option string;
  ev_time : option T;
  ev_from_rg : refs;
  ev_with_rg : refs;
  ev_classes : gset string;
  ev_name : option string;
  ev_idx : option nat
}.

Record Constraint := MkConstraint {
  c_name : option string;
  c_before : option (list seltok);
  c_after : option (list seltok);
  c_offset : T;
  c_strict : bool
}.

Record Group := MkGroup {
  g_name : option string;
  g_evs : gset (list string)
}.

Record GroupResult := MkGroupResult {
  gr_name : option seltok;
  gr_times : list (val T)           (* a set: no duplicates *)
}.

Record Timeline := MkTimeline {
  ranges : list (string * Range);   (* a dict, in insertion order *)
  events : list Event;
  constraints : list Constraint;    (* a set of objects compared by identity *)
  groups : gmap (option string) Group;
  universal_evs : option nat
}.

(** What [Timeline.add] accepts. *)
#[warnings="-register-all"] Inductive obj :=
| ORange (rg : Range)
| OEvent (ev : Event)
| OConstraint (con : Constraint)
| OGroup (grp : Group)
| OList (os : list obj).

(** The records written to the diagnostics channel. *)
Inductive diag :=
| WRangeOverwrite (name : string)
| WRootIndent
| WRootDedent
| WUnknownBlock (kind : string)
| WBlockNotStarted (kind : string)
| WUnexpectedIndent (k : block_kind)
| WSpanOverwrite (name sword : string) (start : val T)
| WNoPrevSpan (parts : list string)
| WUnhandledDirective (k : block_kind) (parts : list string)
| WEofBlock (k : block_kind)
| WCulled (n : nat)
| WLinkFailed (sname : string) (diff : refs)
| WParentsFailed (name : string) (diff : refs)
| WSelectorUnresolved (sel : option (list seltok))
| WConstraintViolated (con : Constraint) (bft aft : GroupResult)
| WGroupUnresolvable (name : option string) (ev : list string)
| CheckInvalid (con : Constraint)
| CheckUnsatisfied (con : Constraint)
| CheckAllPassed.

Definition out (A : Type) : Type := writer diag A.

(** *** Python built-ins on values *)

(** [x < y] *)
Definition val_lt (x y : val T) : res bool :=
  match x, y with
  | VNum a, VNum b => Ok (num_ltb a b)
  | VStr a, VStr b => Ok (String.ltb a b)
  | _, _ => Raise TypeError
  end.

(** [x <= y] *)
Definition val_le (x y : val T) : res bool :=
  match x, y with
  | VNum a, VNum b => Ok (num_leb a b)
  | VStr a, VStr b => Ok (String.leb a b)
  | _, _ => Raise TypeError
  end.

(** [x + o] for a number [o] *)
Definition val_add (x : val T) (o : T) : res (val T) :=
  match x with
  | VNum a => Ok (VNum (num_add a o))
  | _ => Raise TypeError
  end.

(** [s.add(x)] on a set kept as a list without duplicates. *)
Definition set_add (x : val T) (s : list (val T)) : list (val T) :=
  if bool_decide (x ∈ s) then s else s ++ [x].

(** [s.update(xs)] *)
Definition set_update (s xs : list (val T)) : list (val T) :=
  foldl (fun acc x => set_add x acc) s xs.

Fixpoint min_from (m : val T) (l : list (val T)) : res (val T) :=
  match l with
  | [] => Ok m
  | x :: rest =>
      b ← val_lt x m; min_from (if b : bool then x else m) rest
  end.

(** [min(s)] *)
Definition py_min (s : list (val T)) : res (val T) :=
  match s with
  | [] => Raise ValueError
  | x :: rest => min_from x rest
  end.

Fixpoint max_from (m : val T) (l : list (val T)) : res (val T) :=
  match l with
  | [] => Ok m
  | x :: rest =>
      b ← val_lt m x; max_from (if b : bool then x else m) rest
  end.

(** [max(s)] *)
Definition py_max (s : list (val T)) : res (val T) :=
  match s with
  | [] => Raise ValueError
  | x :: rest => max_from x rest
  end.

(** [sorted(l, key=...)] and [l.sort(key=...)], with [lt] the comparison of
    the keys: a stable sort that uses [<] only. *)
Fixpoint sorted_insert {A} (lt : A → A → res bool) (x : A) (l : list A)
  : res (list A) :=
  match l with
  | [] => Ok [x]
  | y :: ys =>
      b ← lt y x;
      if b : bool
      then l' ← sorted_insert lt x ys; Ok (y :: l')
      else Ok (x :: l)
  end.

Fixpoint py_sorted {A} (lt : A → A → res bool) (l : list A) : res (list A) :=
  match l with
  | [] => Ok []
  | x :: xs => l' ← py_sorted lt xs; sorted_insert lt x l'
  end.

(** [l[i]] with Python's negative indices. *)
Definition py_index {A} (l : list A) (i : Z) : res A :=
  let n := Z.of_nat (length l) in
  if (0 <=? i)%Z
  then of_option IndexError (l !! Z.to_nat i)
  else if (0 <=? n + i)%Z
       then of_option IndexError (l !! Z.to_nat (n + i))
       else Raise IndexError.

(** [d.get(k)] and [d[k] = v] on a dict kept in insertion order. *)
Fixpoint dict_get {V} (k : string) (d : list (string * V)) : option V :=
  match d with
  | [] => None
  | (k', v) :: rest => if bool_decide (k' = k) then Some v else dict_get k rest
  end.

Fixpoint dict_set {V} (k : string) (v : V) (d : list (string * V))
  : list (string * V) :=
  match d with
  | [] => [(k, v)]
  | (k', v') :: rest =>
      if bool_decide (k' = k) then (k, v) :: rest
      else (k', v') :: dict_set k v rest
  end.

Definition dict_mem {V} (k : string) (d : list (string * V)) : bool :=
  bool_decide (is_Some (dict_get k d)).

(** *** Constructors with their default arguments *)

Definition Range_init (cls : range_class) (name : string) : Range :=
  MkRange cls name None ∅ [] None false [] None (Names ∅).

Definition Event_init (name : option string) : Event :=
  MkEvent None None (Names ∅) (Names ∅) ∅ name None.

Definition Constraint_init (name : option string) : Constraint :=
  MkConstraint name None None num_zero false.

Definition Constraint_new (name : string) (before after : list seltok)
  : Constraint :=
  MkConstraint (Some name) (Some before) (Some after) num_zero false.

Definition Group_init (name : option string) : Group := MkGroup name ∅.

Definition Timeline_init : Timeline := MkTimeline [] [] [] ∅ None.

(** *** Timeline.add *)

Fixpoint Timeline_add (self : Timeline) (o : obj) : out Timeline :=
  match o with
  | ORange rg =>
      (if dict_mem (rg_name rg) (ranges self)
       then warn (WRangeOverwrite (rg_name rg)) else mret tt) ;;
      mret (MkTimeline (dict_set (rg_name rg) rg (ranges self)) (events self)
             (constraints self) (groups self) (universal_evs self))
  | OEvent ev =>
      mret (MkTimeline (ranges self) (events self ++ [ev])
             (constraints self) (groups self) (universal_evs self))
  | OConstraint con =>
      mret (MkTimeline (ranges self) (events self)
             (constraints self ++ [con]) (groups self) (universal_evs self))
  | OGroup grp =>
      mret (MkTimeline (ranges self) (events self) (constraints self)
             (<[g_name grp := grp]> (groups self)) (universal_evs self))
  | OList os =>
      (fix add_all (self : Timeline) (os : list obj) : out Timeline :=
         match os with
         | [] => mret self
         | o :: rest => self' ← Timeline_add self o; add_all self' rest
         end) self os
  end.

(** *** The block builders

    Each loop reads the shared token iterator: it takes the tokens not yet
    consumed and returns, with its result, the tokens it leaves. [fin] is
    the exception the tokenizer raises when the tokens are used up. *)

(** The end of a [for t in tok] loop. *)
Definition at_eof {A} (fin : option pyerr) (k : out A) : out A :=
  match fin with
  | Some e => raise e
  | None => k
  end.

(** [parts[i]] *)
Definition part (parts : list string) (i : nat) : res string :=
  of_option IndexError (parts !! i).

(** [float(parts[1])] *)
Definition float_part (parts : list string) : res T :=
  s ← part parts 1; of_option ValueError (float_of_string s).

Definition BEGIN_WORDS (cls : range_class) : list string :=
  match cls with
  | ClsRange => ["begin"]
  | ClsCharacter => ["begin"; "born"; "raised"]
  end.

Definition END_WORDS (cls : range_class) : list string :=
  match cls with
  | ClsRange => ["end"]
  | ClsCharacter => ["end"; "died"; "living"]
  end.

Definition span_start_lt (a b : Span) : res bool :=
  val_lt (sp_start a) (sp_start b).

(** [inst.spans.sort(key=lambda sp: sp.start); return inst] *)
Definition Range_finish (inst : Range) : res Range :=
  spans ← py_sorted span_start_lt (rg_spans inst);
  Ok (MkRange (rg_cls inst) (rg_name inst) (rg_dispname inst)
        (rg_classes inst) spans (rg_idx inst) (rg_ambient inst)
        (rg_hanging_events inst) (rg_gender inst) (rg_parents inst)).

Definition add_classes (ps : list string) (s : gset string) : gset string :=
  foldl (fun acc p => acc ∪ {[p]}) s ps.

Definition add_names (ps : list string) (r : refs) : refs :=
  foldl (fun acc p => refs_add p acc) r ps.

(** [cls.unhandled_directive(inst, parts)] *)
Definition unhandled_directive (cls : range_class) (inst : Range)
    (parts : list string) : out Range :=
  match cls with
  | ClsRange => warn (WUnhandledDirective KRange parts) ;; mret inst
  | ClsCharacter =>
      cmd ← lift (part parts 0);
      if bool_decide (cmd = "gender") then
        g ← lift (part parts 1);
        mret (MkRange (rg_cls inst) (rg_name inst) (rg_dispname inst)
               (rg_classes inst) (rg_spans inst) (rg_idx inst)
               (rg_ambient inst) (rg_hanging_events inst) (Some g)
               (rg_parents inst))
      else if bool_decide (cmd = "parent") then
        mret (MkRange (rg_cls inst) (rg_name inst) (rg_dispname inst)
               (rg_classes inst) (rg_spans inst) (rg_idx inst)
               (rg_ambient inst) (rg_hanging_events inst) (rg_gender inst)
               (add_names (drop 1 parts) (rg_parents inst)))
      else mret inst
  end.

(** One directive line of a Range or Character block: the new values of
    [inst] and [cur_span]. *)
Definition Range_directive (cls : range_class) (inst : Range)
    (cur_span : option Span) (t : string) : out (Range * option Span) :=
  let parts := split t in
  cmd ← lift (part parts 0);
  if bool_decide (cmd ∈ BEGIN_WORDS cls) then
    match cur_span with
    | Some sp => warn (WSpanOverwrite (rg_name inst) (sp_sword sp) (sp_start sp))
    | None => mret tt
    end ;;
    x ← lift (float_part parts);
    mret (inst, Some (MkSpan (VNum x) cmd VNone None))
  else if bool_decide (cmd ∈ END_WORDS cls) then
    match cur_span with
    | None => warn (WNoPrevSpan parts) ;; mret (inst, None)
    | Some sp =>
        x ← lift (float_part parts);
        let sp' := MkSpan (sp_start sp) (sp_sword sp) (VNum x) (Some cmd) in
        mret (MkRange (rg_cls inst) (rg_name inst) (rg_dispname inst)
               (rg_classes inst) (rg_spans inst ++ [sp']) (rg_idx inst)
               (rg_ambient inst) (rg_hanging_events inst) (rg_gender inst)
               (rg_parents inst), None)
    end
  else if bool_decide (cmd = "class") then
    mret (MkRange (rg_cls inst) (rg_name inst) (rg_dispname inst)
           (add_classes (drop 1 parts) (rg_classes inst)) (rg_spans inst)
           (rg_idx inst) (rg_ambient inst) (rg_hanging_events inst)
           (rg_gender inst) (rg_parents inst), cur_span)
  else if bool_decide (cmd = "name") then
    mret (MkRange (rg_cls inst) (rg_name inst) (Some (join (drop 1 parts)))
           (rg_classes inst) (rg_spans inst) (rg_idx inst) (rg_ambient inst)
           (rg_hanging_events inst) (rg_gender inst) (rg_parents inst),
         cur_span)
  else if bool_decide (cmd = "ambient") then
    mret (MkRange (rg_cls inst) (rg_name inst) (rg_dispname inst)
           (rg_classes inst) (rg_spans inst) (rg_idx inst) true
           (rg_hanging_events inst) (rg_gender inst) (rg_parents inst),
         cur_span)
  else
    inst' ← unhandled_directive cls inst parts;
    mret (inst', cur_span).

(** The [for t in tok] loop of [Range.from_tokens]. *)
Fixpoint Range_loop (cls : range_class) (fin : option pyerr) (inst : Range)
    (cur_span : option Span) (tok : list token) : out (Range * list token) :=
  match tok with
  | [] =>
      at_eof fin (
        warn (WEofBlock KRange) ;;
        inst' ← lift (Range_finish inst);
        mret (inst', []))
  | INDENT :: rest =>
      warn (WUnexpectedIndent KRange) ;;
      Range_loop cls fin inst cur_span rest
  | DEDENT :: rest =>
      inst' ← lift (Range_finish inst);
      mret (inst', rest)
  | Content t :: rest =>
      if bool_decide (t = "") then Range_loop cls fin inst cur_span rest
      else
        '(inst', cur') ← Range_directive cls inst cur_span t;
        Range_loop cls fin inst' cur' rest
  end.

Definition Range_from_tokens (cls : range_class) (fin : option pyerr)
    (tok : list token) (hdr : list string) : out (Range * list token) :=
  Range_loop cls fin (Range_init cls (join (drop 1 hdr))) None tok.

(** [if len(hdr) > 1: inst.name = ' '.join(hdr[1:])] *)
Definition hdr_name (hdr : list string) : option string :=
  if bool_decide (1 < length hdr) then Some (join (drop 1 hdr)) else None.

(** One directive line of an Event block. *)
Definition Event_directive (inst : Event) (t : string) : out Event :=
  let parts := split t in
  cmd ← lift (part parts 0);
  if bool_decide (cmd = "at") then
    x ← lift (float_part parts);
    mret (MkEvent (ev_desc inst) (Some x) (ev_from_rg inst) (ev_with_rg inst)
            (ev_classes inst) (ev_name inst) (ev_idx inst))
  else if bool_decide (cmd = "desc") then
    mret (MkEvent (Some (join (drop 1 parts))) (ev_time inst) (ev_from_rg inst)
            (ev_with_rg inst) (ev_classes inst) (ev_name inst) (ev_idx inst))
  else if bool_decide (cmd = "from") then
    mret (MkEvent (ev_desc inst) (ev_time inst)
            (add_names (drop 1 parts) (ev_from_rg inst)) (ev_with_rg inst)
            (ev_classes inst) (ev_name inst) (ev_idx inst))
  else if bool_decide (cmd = "with") then
    mret (MkEvent (ev_desc inst) (ev_time inst) (ev_from_rg inst)
            (add_names (drop 1 parts) (ev_with_rg inst))
            (ev_classes inst) (ev_name inst) (ev_idx inst))
  else if bool_decide (cmd = "class") then
    mret (MkEvent (ev_desc inst) (ev_time inst) (ev_from_rg inst)
            (ev_with_rg inst) (add_classes (drop 1 parts) (ev_classes inst))
            (ev_name inst) (ev_idx inst))
  else
    warn (WUnhandledDirective KEvent parts) ;; mret inst.

Fixpoint Event_loop (fin : option pyerr) (inst : Event) (tok : list token)
  : out (Event * list token) :=
  match tok with
  | [] => at_eof fin (warn (WEofBlock KEvent) ;; mret (inst, []))
  | INDENT :: rest =>
      warn (WUnexpectedIndent KEvent) ;; Event_loop fin inst rest
  | DEDENT :: rest => mret (inst, rest)
  | Content t :: rest =>
      if bool_decide (t = "") then Event_loop fin inst rest
      else inst' ← Event_directive inst t; Event_loop fin inst' rest
  end.

Definition Event_from_tokens (fin : option pyerr) (tok : list token)
    (hdr : list string) : out (Event * list token) :=
  Event_loop fin
    (Event_init (hdr_name hdr)) tok.

(** One directive line of a Constraint block. *)
Definition Constraint_directive (inst : Constraint) (t : string)
  : out Constraint :=
  let parts := split t in
  cmd ← lift (part parts 0);
  if bool_decide (cmd = "before") then
    mret (MkConstraint (c_name inst) (Some (SStr <$> drop 1 parts))
            (c_after inst) (c_offset inst) (c_strict inst))
  else if bool_decide (cmd = "after") then
    mret (MkConstraint (c_name inst) (c_before inst)
            (Some (SStr <$> drop 1 parts)) (c_offset inst) (c_strict inst))
  else if bool_decide (cmd = "offset") then
    x ← lift (float_part parts);
    mret (MkConstraint (c_name inst) (c_before inst) (c_after inst) x
            (c_strict inst))
  else if bool_decide (cmd = "strict") then
    mret (MkConstraint (c_name inst) (c_before inst) (c_after inst)
            (c_offset inst) true)
  else
    warn (WUnhandledDirective KConstraint parts) ;; mret inst.

Fixpoint Constraint_loop (fin : option pyerr) (inst : Constraint)
    (tok : list token) : out (Constraint * list token) :=
  match tok with
  | [] => at_eof fin (warn (WEofBlock KConstraint) ;; mret (inst, []))
  | INDENT :: rest =>
      warn (WUnexpectedIndent KConstraint) ;; Constraint_loop fin inst rest
  | DEDENT :: rest => mret (inst, rest)
  | Content t :: rest =>
      if bool_decide (t = "") then Constraint_loop fin inst rest
      else inst' ← Constraint_directive inst t; Constraint_loop fin inst' rest
  end.

Definition Constraint_from_tokens (fin : option pyerr) (tok : list token)
    (hdr : list string) : out (Constraint * list token) :=
  Constraint_loop fin
    (Constraint_init (hdr_name hdr)) tok.

(** One directive line of a Group block. *)
Definition Group_directive (inst : Group) (t : string) : out Group :=
  let parts := split t in
  cmd ← lift (part parts 0);
  if bool_decide (cmd = "event") then
    mret (MkGroup (g_name inst) (g_evs inst ∪ {[drop 1 parts]}))
  else
    warn (WUnhandledDirective KGroup parts) ;; mret inst.

Fixpoint Group_loop (fin : option pyerr) (inst : Group) (tok : list token)
  : out (Group * list token) :=
  match tok with
  | [] => at_eof fin (warn (WEofBlock KGroup) ;; mret (inst, []))
  | INDENT :: rest =>
      warn (WUnexpectedIndent KGroup) ;; Group_loop fin inst rest
  | DEDENT :: rest => mret (inst, rest)
  | Content t :: rest =>
      if bool_decide (t = "") then Group_loop fin inst rest
      else inst' ← Group_directive inst t; Group_loop fin inst' rest
  end.

Definition Group_from_tokens (fin : option pyerr) (tok : list token)
    (hdr : list string) : out (Group * list token) :=
  Group_loop fin (Group_init (hdr_name hdr)) tok.

(** [f'{nm}_{idx}'] *)
Definition seq_name (nm : option string) (idx : nat) : string :=
  default "None" nm +:+ "_" +:+ pretty idx.

(** The local variables of [Sequence.from_tokens]. *)
Record seq_state := SeqState {
  seq_cons : list Constraint;
  seq_idx : nat;
  seq_lastev : option (list seltok)
}.

Definition Sequence_directive (nm : option string) (st : seq_state)
    (t : string) : out seq_state :=
  let parts := split t in
  cmd ← lift (part parts 0);
  if bool_decide (cmd = "event") then
    let ev := SStr <$> drop 1 parts in
    match seq_lastev st with
    | Some lastev =>
        mret (SeqState
                (seq_cons st ++ [Constraint_new (seq_name nm (seq_idx st)) lastev ev])
                (S (seq_idx st)) (Some ev))
    | None => mret (SeqState (seq_cons st) (seq_idx st) (Some ev))
    end
  else
    warn (WUnhandledDirective KSequence parts) ;; mret st.

Fixpoint Sequence_loop (fin : option pyerr) (nm : option string)
    (st : seq_state) (tok : list token) : out (list Constraint * list token) :=
  match tok with
  | [] => at_eof fin (warn (WEofBlock KSequence) ;; mret (seq_cons st, []))
  | INDENT :: rest =>
      warn (WUnexpectedIndent KSequence) ;; Sequence_loop fin nm st rest
  | DEDENT :: rest => mret (seq_cons st, rest)
  | Content t :: rest =>
      if bool_decide (t = "") then Sequence_loop fin nm st rest
      else st' ← Sequence_directive nm st t; Sequence_loop fin nm st' rest
  end.

Definition Sequence_from_tokens (fin : option pyerr) (tok : list token)
    (hdr : list string) : out (list Constraint * list token) :=
  Sequence_loop fin (hdr_name hdr) (SeqState [] 0 None) tok.

(** *** Timeline.from_tokens *)

(** [handlers.get(parts[0])] followed by [handler.from_tokens(tok, parts)]. *)
Definition handler (kind : string)
  : option (option pyerr → list token → list string → out (obj * list token)) :=
  if bool_decide (kind = "char") then
    Some (fun fin tok hdr =>
            '(r, rest) ← Range_from_tokens ClsCharacter fin tok hdr;
            mret (ORange r, rest))
  else if bool_decide (kind = "event") then
    Some (fun fin tok hdr =>
            '(r, rest) ← Event_from_tokens fin tok hdr; mret (OEvent r, rest))
  else if bool_decide (kind = "constraint") then
    Some (fun fin tok hdr =>
            '(r, rest) ← Constraint_from_tokens fin tok hdr;
            mret (OConstraint r, rest))
  else if bool_decide (kind = "sequence") then
    Some (fun fin tok hdr =>
            '(r, rest) ← Sequence_from_tokens fin tok hdr;
            mret (OList (OConstraint <$> r), rest))
  else if bool_decide (kind = "group") then
    Some (fun fin tok hdr =>
            '(r, rest) ← Group_from_tokens fin tok hdr; mret (OGroup r, rest))
  else None.

(** [osp.read_block(tok)] on the shared iterator: the tokens it leaves. *)
Definition skip_block (fin : option pyerr) (tok : list token)
  : out (list token) :=
  match read_block tok with
  | (_, Some rest) => mret rest
  | (_, None) => at_eof fin (mret [])
  end.

(** The [for t in tok] loop of [Timeline.from_tokens]. Every iteration
    consumes a token, so [fuel] at least the number of tokens is enough. *)
Fixpoint Timeline_loop (fuel : nat) (fin : option pyerr) (inst : Timeline)
    (tok : list token) : out Timeline :=
  match fuel, tok with
  | _, [] => at_eof fin (mret inst)
  | 0, _ :: _ => mret inst
  | S fuel, INDENT :: rest =>
      warn WRootIndent ;; Timeline_loop fuel fin inst rest
  | S fuel, DEDENT :: rest =>
      warn WRootDedent ;; Timeline_loop fuel fin inst rest
  | S fuel, Content t :: rest =>
      if bool_decide (t = "") then Timeline_loop fuel fin inst rest
      else
        let parts := split t in
        kind ← lift (part parts 0);
        if bool_decide (kind = "comment") then
          rest' ← skip_block fin rest; Timeline_loop fuel fin inst rest'
        else
          match handler kind with
          | None =>
              warn (WUnknownBlock kind) ;;
              rest' ← skip_block fin rest; Timeline_loop fuel fin inst rest'
          | Some from_tokens =>
              match rest with
              | [] => raise (default StopIteration fin)
              | INDENT :: body =>
                  '(result, rest') ← from_tokens fin body parts;
                  inst' ← Timeline_add inst result;
                  Timeline_loop fuel fin inst' rest'
              | _ :: rest' =>
                  warn (WBlockNotStarted kind) ;;
                  Timeline_loop fuel fin inst rest'
              end
          end
  end.

Definition Timeline_from_tokens (tok : stream) : out Timeline :=
  Timeline_loop (length (toks tok)) (fin tok) Timeline_init (toks tok).

(** *** Linking *)

Definition with_ranges (self : Timeline) (rgs : list (string * Range))
  : Timeline :=
  MkTimeline rgs (events self) (constraints self) (groups self)
    (universal_evs self).

Definition with_events (self : Timeline) (evs : list Event) : Timeline :=
  MkTimeline (ranges self) evs (constraints self) (groups self)
    (universal_evs self).

Definition with_spans (rg : Range) (spans : list Span) : Range :=
  MkRange (rg_cls rg) (rg_name rg) (rg_dispname rg) (rg_classes rg) spans
    (rg_idx rg) (rg_ambient rg) (rg_hanging_events rg) (rg_gender rg)
    (rg_parents rg).

Definition with_parents (rg : Range) (parents : refs) : Range :=
  MkRange (rg_cls rg) (rg_name rg) (rg_dispname rg) (rg_classes rg)
    (rg_spans rg) (rg_idx rg) (rg_ambient rg) (rg_hanging_events rg)
    (rg_gender rg) parents.

Definition with_idx (rg : Range) (idx : nat) : Range :=
  MkRange (rg_cls rg) (rg_name rg) (rg_dispname rg) (rg_classes rg)
    (rg_spans rg) (Some idx) (rg_ambient rg) (rg_hanging_events rg)
    (rg_gender rg) (rg_parents rg).

Definition add_hanging (rg : Range) (ev : nat) : Range :=
  MkRange (rg_cls rg) (rg_name rg) (rg_dispname rg) (rg_classes rg)
    (rg_spans rg) (rg_idx rg) (rg_ambient rg) (rg_hanging_events rg ++ [ev])
    (rg_gender rg) (rg_parents rg).

Definition with_refs (ev : Event) (from_rg with_rg : refs) : Event :=
  MkEvent (ev_desc ev) (ev_time ev) from_rg with_rg (ev_classes ev)
    (ev_name ev) (ev_idx ev).

Definition with_ev_idx (ev : Event) (idx : nat) : Event :=
  MkEvent (ev_desc ev) (ev_time ev) (ev_from_rg ev) (ev_with_rg ev)
    (ev_classes ev) (ev_name ev) (Some idx).

(** [ev.time] as a value. *)
Definition time_val (ev : Event) : val T :=
  match ev_time ev with Some x => VNum x | None => VNone end.

(** The set [tms] built by [Timeline.time_bounds]. *)
Definition time_set (self : Timeline) : list (val T) :=
  let tms :=
    foldl (fun tms '(_, rg) =>
             foldl (fun tms sp => set_add (sp_end sp) (set_add (sp_start sp) tms))
                   tms (rg_spans rg))
          [] (ranges self) in
  foldl (fun tms ev => set_add (time_val ev) tms) tms (events self).

Definition Timeline_time_bounds (self : Timeline) : res (val T * val T) :=
  let tms := time_set self in
  mnt ← py_min tms; mxt ← py_max tms; Ok (mnt, mxt).

(** [set(tml.ranges[nm] for nm in sval if nm in tml.ranges)] and
    [sval - set(rg.name for rg in nval)]. A Range object is identified by
    the key it is stored under, which [Timeline.add] takes from its name. An
    object is never equal to a key, so a set of objects resolves to nothing
    and is its own difference. *)
Definition resolve (sval : refs) (tml : Timeline) : refs * refs :=
  match sval with
  | Names s =>
      let found := filter (fun nm => is_Some (dict_get nm (ranges tml))) s in
      (Objs found, Names (s ∖ found))
  | Objs s => (Objs ∅, Objs s)
  end.

(** [Range.link] *)
Definition Range_link (self : Range) (tml : Timeline) : res Range :=
  if rg_ambient self then
    '(mnt, mxt) ← Timeline_time_bounds tml;
    Ok (with_spans self [MkSpan mnt "begin" mxt (Some "end")])
  else Ok self.

(** [Character.link] for a Character, [Range.link] otherwise. *)
Definition link_range (self : Range) (tml : Timeline) : out Range :=
  match rg_cls self with
  | ClsRange => lift (Range_link self tml)
  | ClsCharacter =>
      self1 ← lift (Range_link self tml);
      let '(parents, diff) := resolve (rg_parents self1) tml in
      (if refs_nonempty diff
       then warn (WParentsFailed (rg_name self1) diff) else mret tt) ;;
      mret (with_parents self1 parents)
  end.

(** Lines 141-143. The ranges already visited are [done], those still to
    visit [todo]; the Timeline a range sees is the current one. *)
Fixpoint link_ranges (self : Timeline) (done todo : list (string * Range))
  : out (list (string * Range)) :=
  match todo with
  | [] => mret done
  | (k, rg) :: rest =>
      rg' ← link_range rg (with_ranges self (done ++ todo));
      link_ranges self (done ++ [(k, with_idx rg' (length done))]) rest
  end.

Definition Event_is_valid (ev : Event) : bool :=
  bool_decide (is_Some (ev_time ev)).

Definition Event_is_universal (ev : Event) : bool :=
  negb (refs_nonempty (ev_from_rg ev) || refs_nonempty (ev_with_rg ev)).

(** [a.time < b.time] *)
Definition ev_time_lt (a b : Event) : res bool :=
  val_lt (time_val a) (time_val b).

(** [a.idx < b.idx] for two ranges given with their keys. *)
Definition rg_idx_lt (a b : string * Range) : res bool :=
  match rg_idx a.2, rg_idx b.2 with
  | Some i, Some j => Ok (bool_decide (i < j))
  | _, _ => Raise TypeError
  end.

(** The Range objects of a linked set, each with its key. *)
Definition ref_objects (r : refs) (rgs : list (string * Range))
  : list (string * Range) :=
  match r with
  | Objs s =>
      omap (fun k => rg ← dict_get k rgs; Some (k, rg)) (elements s)
  | Names _ => []
  end.

(** [Event.link]: [pos] is the place of the event in [tml.events]. The
    result is the event and the ranges of the Timeline, one of which may
    have got the event as a hanging event. *)
Definition Event_link (self : Event) (pos : nat) (tml : Timeline)
  : out (Event * list (string * Range)) :=
  let '(from_rg, dfrom) := resolve (ev_from_rg self) tml in
  (if refs_nonempty dfrom
   then warn (WLinkFailed "from_rg" dfrom) else mret tt) ;;
  let '(with_rg, dwith) := resolve (ev_with_rg self) tml in
  (if refs_nonempty dwith
   then warn (WLinkFailed "with_rg" dwith) else mret tt) ;;
  let self' := with_refs self from_rg with_rg in
  if refs_nonempty with_rg then
    by_idx ← lift (py_sorted rg_idx_lt (ref_objects with_rg (ranges tml)));
    match last by_idx with
    | Some (k, rg) =>
        mret (self', dict_set k (add_hanging rg pos) (ranges tml))
    | None => raise IndexError
    end
  else mret (self', ranges tml).

(** Lines 148-149: the events already linked are [done]. *)
Fixpoint link_events (self : Timeline) (done todo : list Event)
  : out Timeline :=
  match todo with
  | [] => mret (with_events self done)
  | ev :: rest =>
      '(ev', rgs) ← Event_link ev (length done) self;
      link_events (with_ranges self rgs) (done ++ [ev']) rest
  end.

(** Lines 150-155, on the reversed list of events: the events with their
    [idx] and the final counter. *)
Fixpoint number_universal (idx : nat) (evs : list Event) : list Event * nat :=
  match evs with
  | [] => ([], idx)
  | ev :: rest =>
      if Event_is_universal ev
      then let '(evs', n) := number_universal (S idx) rest in
           (with_ev_idx ev idx :: evs', n)
      else let '(evs', n) := number_universal idx rest in (ev :: evs', n)
  end.

(** Lines 159-160: the two constraints made for the character [rg] and its
    parent [par]. *)
Definition born_after (rg par : string) : Constraint :=
  Constraint_new (rg +:+ "_born_after_" +:+ par) [SStr par] [SStr rg].

Definition born_predeath (rg par : string) : Constraint :=
  Constraint_new (rg +:+ "_born_predeath_" +:+ par)
    [SStr rg] [SStr par; SInt (-1); SStr "end"].

(** Lines 157-160 for one range: [hasattr(rg, 'parents')] holds of a
    Character. A parent that is still a name has no attribute [name]. *)
Definition parent_constraints (rg : Range) : res (list Constraint) :=
  match rg_cls rg with
  | ClsRange => Ok []
  | ClsCharacter =>
      match rg_parents rg with
      | Objs s =>
          Ok (flat_map (fun par => [born_after (rg_name rg) par;
                                    born_predeath (rg_name rg) par])
                (elements s))
      | Names s => if bool_decide (s = ∅) then Ok [] else Raise AttributeError
      end
  end.

Fixpoint all_parent_constraints (rgs : list (string * Range))
  : res (list Constraint) :=
  match rgs with
  | [] => Ok []
  | (_, rg) :: rest =>
      cs ← parent_constraints rg;
      cs' ← all_parent_constraints rest;
      Ok (cs ++ cs')
  end.

Definition Timeline_link (self : Timeline) : out Timeline :=
  rgs ← link_ranges self [] (ranges self);
  let self1 := with_ranges self rgs in
  let ol := length (events self1) in
  evs ← lift (py_sorted ev_time_lt
                (filter (fun ev => Event_is_valid ev) (events self1)));
  (if bool_decide (length evs ≠ ol)
   then warn (WCulled (ol - length evs)) else mret tt) ;;
  self2 ← link_events (with_events self1 evs) [] evs;
  let '(revs, idx) := number_universal 0 (reverse (events self2)) in
  cs ← lift (all_parent_constraints (ranges self2));
  mret (MkTimeline (ranges self2) (reverse revs) (constraints self2 ++ cs)
          (groups self2) (Some idx)).

(** *** Selectors and constraints *)

(** [getattr(sp, prop)] *)
Definition span_getattr (sp : Span) (prop : seltok) : res (val T) :=
  match prop with
  | SInt _ => Raise TypeError
  | SStr p =>
      if bool_decide (p = "start") then Ok (sp_start sp)
      else if bool_decide (p = "end") then Ok (sp_end sp)
      else if bool_decide (p = "sword") then Ok (VStr (sp_sword sp))
      else if bool_decide (p = "eword")
      then Ok (match sp_eword sp with Some w => VStr w | None => VNone end)
      else of_option AttributeError (span_class_attr p)
  end.

(** [int(x)] for an element of a selector. *)
Definition seltok_int (x : seltok) : res Z :=
  match x with
  | SInt z => Ok z
  | SStr s => of_option ValueError (int_of_string s)
  end.

(** [ev.name == x] *)
Definition ev_named (x : seltok) (ev : Event) : bool :=
  match x with
  | SStr s => bool_decide (ev_name ev = Some s)
  | SInt _ => false
  end.

(** [Group.into_result], with [select] standing for [Constraint.select]. *)
Definition Group_into_result
    (select : list seltok → Timeline → out (option GroupResult))
    (self : Group) (tml : Timeline) : out GroupResult :=
  times ←
    (fix loop (times : list (val T)) (evs : list (list string))
       : out (list (val T)) :=
       match evs with
       | [] => mret times
       | ev :: rest =>
           tm ← select (SStr <$> ev) tml;
           match tm with
           | None => warn (WGroupUnresolvable (g_name self) ev) ;; loop times rest
           | Some r => loop (set_update times (gr_times r)) rest
           end
       end) [] (elements (g_evs self));
  mret (MkGroupResult (SStr <$> g_name self) times).

(** [Constraint.select]. [depth] bounds the nesting of groups inside groups
    that the interpreter's recursion limit allows. *)
Fixpoint Constraint_select (depth : nat) (sel : list seltok) (tml : Timeline)
  : out (option GroupResult) :=
  match depth with
  | 0 => raise RecursionError
  | S depth' =>
      match sel with
      | [] => raise IndexError
      | k :: _ =>
          match (match k with SStr s => groups tml !! Some s | SInt _ => None end) with
          | Some grp =>
              r ← Group_into_result (Constraint_select depth') grp tml;
              mret (Some r)
          | None =>
              match (match k with SStr s => dict_get s (ranges tml) | SInt _ => None end) with
              | Some rg =>
                  let prop :=
                    if bool_decide (1 < length sel)
                    then default (SStr "start") (last sel) else SStr "start" in
                  idx ← lift (if bool_decide (2 < length sel)
                              then x ← of_option IndexError (sel !! 1); seltok_int x
                              else Ok 0%Z);
                  sp ← lift (py_index (rg_spans rg) idx);
                  v ← lift (span_getattr sp prop);
                  mret (Some (MkGroupResult (Some k) [v]))
              | None =>
                  match find (ev_named k) (events tml) with
                  | Some ev => mret (Some (MkGroupResult (Some k) [time_val ev]))
                  | None => mret None
                  end
              end
          end
      end
  end.

Definition Constraint_is_valid (self : Constraint) : bool :=
  bool_decide (is_Some (c_before self) ∧ is_Some (c_after self)).

(** [self.select(sel, tml)] for an attribute that may be [None]. *)
Definition select_attr (depth : nat) (sel : option (list seltok))
    (tml : Timeline) : out (option GroupResult) :=
  match sel with
  | Some sel => Constraint_select depth sel tml
  | None => raise TypeError
  end.

(** [GroupResult.min] and [GroupResult.max] *)
Definition gr_min (r : GroupResult) : res (val T) := py_min (gr_times r).
Definition gr_max (r : GroupResult) : res (val T) := py_max (gr_times r).

Definition Constraint_verify (depth : nat) (self : Constraint) (tml : Timeline)
  : out bool :=
  bft ← select_attr depth (c_before self) tml;
  aft ← select_attr depth (c_after self) tml;
  match bft, aft with
  | None, _ => warn (WSelectorUnresolved (c_before self)) ;; mret false
  | Some _, None => warn (WSelectorUnresolved (c_after self)) ;; mret false
  | Some bft, Some aft =>
      cond ← lift (mx ← gr_max bft;
                   mn ← gr_min aft;
                   bound ← val_add mn (c_offset self);
                   if c_strict self then val_lt mx bound else val_le mx bound);
      (if cond : bool then mret tt else warn (WConstraintViolated self bft aft)) ;;
      mret cond
  end.

(** [Timeline.check]; the result is the final value of [good]. *)
Fixpoint check_loop (depth : nat) (self : Timeline) (good : bool)
    (cons : list Constraint) : out bool :=
  match cons with
  | [] => mret good
  | con :: rest =>
      if negb (Constraint_is_valid con)
      then warn (CheckInvalid con) ;; check_loop depth self good rest
      else
        ok ← Constraint_verify depth con self;
        if ok : bool then check_loop depth self good rest
        else warn (CheckUnsatisfied con) ;; check_loop depth self false rest
  end.

Definition Timeline_check (depth : nat) (self : Timeline) : out bool :=
  good ← check_loop depth self true (constraints self);
  (if good : bool then warn CheckAllPassed else mret tt) ;;
  mret good.

(** The program: tokenize, parse, link and check ([layout] and [dump] have
    no part in the result). *)
Definition main (depth : nat) (tabs : option Z) (lines : list string)
  : out (Timeline * bool) :=
  tml ← Timeline_from_tokens (tokenize tabs lines);
  tml' ← Timeline_link tml;
  good ← Timeline_check depth tml';
  mret (tml', good).

End Model.

Arguments Span T : clear implicits.
Arguments Range T : clear implicits.
Arguments Event T : clear implicits.
Arguments Constraint T : clear implicits.
Arguments GroupResult T : clear implicits.
Arguments Timeline T : clear implicits.
Arguments obj T : clear implicits.
Arguments diag T : clear implicits.
Arguments out T A : clear implicits.

(** The order of numbers: [<] is a strict weak order, as it is on the floats
    other than NaN. *)
Class PyOrder (T : Type) `{!PyRuntime T} : Prop := {
  num_lt_asym : ∀ x y : T, num_ltb x y = true → num_ltb y x = false;
  num_lt_negtrans : ∀ x y z : T,
    num_ltb x y = false → num_ltb y z = false → num_ltb x z = false
}.

(** ** A runtime with integer times

    Used for the concrete inputs below: [float] and [int] read an optional
    sign followed by decimal digits. *)

Fixpoint digits_value (acc : Z) (s : string) : option Z :=
  match s with
  | EmptyString => Some acc
  | String c rest =>
      match Ascii.is_nat c with
      | Some d => digits_value (10 * acc + Z.of_nat d)%Z rest
      | None => None
      end
  end.

Definition decimal_of_string (s : string) : option Z :=
  match s with
  | EmptyString => None
  | String "-" (String _ _ as ds) => Z.opp <$> digits_value 0 ds
  | String "+" (String _ _ as ds) => digits_value 0 ds
  | _ => digits_value 0 s
  end.

Definition Z_span_class_attr (p : string) : option (val Z) :=
  if bool_decide (p = "HEIGHT") then Some (VNum 50%Z)
  else if bool_decide (p = "GAP") then Some (VNum 20%Z)
  else if bool_decide (p = "dump") then Some (VObj "Span.dump")
  else if bool_decide (p = "render") then Some (VObj "Span.render")
  else None.

Global Instance Z_runtime : PyRuntime Z := {|
  num_ltb := Z.ltb;
  num_leb := Z.leb;
  num_add := Z.add;
  num_zero := 0%Z;
  float_of_string := decimal_of_string;
  int_of_string := decimal_of_string;
  span_class_attr := Z_span_class_attr
|}.

Global Instance Z_order : PyOrder Z.
Proof.
  split; simpl; intros *; rewrite ?Z.ltb_lt, ?Z.ltb_ge; lia.
Qed.

(** ** Predicates used in the statements *)

(** The line [line], read in state [st], dedents to a level that is not on
    the stack: its level [lev] is below the top, and the level left on top
    once every greater level is popped is not [lev]. *)
Definition dedent_unmatched (tabs : option Z) (st : tok_state) (line : string)
  : Prop :=
  ∃ lev ot popped top below,
    line_level tabs (only_tabbed st) (LWS_span line) = Ok (lev, ot) ∧
    lev_stack st = popped ++ top :: below ∧
    popped ≠ [] ∧ Forall (fun x => (lev < x)%Z) popped ∧
    (top ≤ lev)%Z ∧ top ≠ lev.

(** [s] is a run of spaces and tabs. *)
Fixpoint lws_run (s : string) : bool :=
  match s with
  | String c rest => is_lws c && lws_run rest
  | EmptyString => true
  end.

(** [s] does not begin with a space or a tab. *)
Definition starts_text (s : string) : bool :=
  match s with
  | String c _ => negb (is_lws c)
  | EmptyString => true
  end.

(** A line given in two pieces: its leading spaces and tabs, and what
    follows them. *)
Definition indented (p : string * string) : string := p.1 +:+ p.2.

Definition well_split (p : string * string) : bool :=
  lws_run p.1 && starts_text p.2.

(** The leading run of the line has no space character. *)
Definition tab_indented (p : string * string) : bool :=
  negb (str_contains SPACE p.1).

(** [body] is the inside of a block that is entered at [depth] further
    levels of nesting: its INDENT and DEDENT tokens match, apart from
    [depth] DEDENT tokens that close the levels already open. *)
Fixpoint balanced_from (depth : nat) (body : list token) : bool :=
  match body with
  | [] => bool_decide (depth = 0)
  | INDENT :: rest => balanced_from (S depth) rest
  | DEDENT :: rest =>
      match depth with
      | 0 => false
      | S depth' => balanced_from depth' rest
      end
  | Content _ :: rest => balanced_from depth rest
  end.

(** [m] is a greatest and [n] a least element of a list of numbers. *)
Definition is_max {T} `{!PyRuntime T} (m : T) (l : list T) : Prop :=
  m ∈ l ∧ ∀ x, x ∈ l → num_ltb m x = false.

Definition is_min {T} `{!PyRuntime T} (n : T) (l : list T) : Prop :=
  n ∈ l ∧ ∀ x, x ∈ l → num_ltb x n = false.

(** The part of a reference set that [tml] does not resolve. *)
Definition unresolved {T} `{!PyRuntime T} (r : refs) (tml : Timeline T) : refs :=
  (resolve r tml).2.

(** The parents a range has once it is linked in [tml]. *)
Definition linked_parents {T} (tml : Timeline T) (rg : Range T) : refs :=
  match rg_cls rg with
  | ClsCharacter => (resolve (rg_parents rg) tml).1
  | ClsRange => rg_parents rg
  end.

(** What [link_ranges] makes of the range [krg] met at position [i], given
    the spans [spans] that [Range.link] leaves it. *)
Definition linked_range {T} (tml : Timeline T) (i : nat) (spans : list (Span T))
    (krg : string * Range T) : string * Range T :=
  (krg.1, with_idx (with_parents (with_spans krg.2 spans)
                      (linked_parents tml krg.2)) i).

(** Every range has its [idx]. *)
Definition all_indexed {T} (rgs : list (string * Range T)) : Prop :=
  Forall (λ krg, is_Some (rg_idx krg.2)) rgs.

(** Every Character has Range objects, not names, as parents. *)
Definition chars_linked {T} (rgs : list (string * Range T)) : Prop :=
  Forall (λ krg, rg_cls krg.2 = ClsCharacter →
                 ∃ s, rg_parents krg.2 = Objs s) rgs.

(** The constraints that lines 157-160 make for a linked range. *)
Definition parent_pairs {T} `{!PyRuntime T} (rg : Range T)
  : list (Constraint T) :=
  match rg_cls rg with
  | ClsCharacter =>
      flat_map (λ par, [born_after (rg_name rg) par;
                        born_predeath (rg_name rg) par])
        (elements (refs_set (rg_parents rg)))
  | ClsRange => []
  end.

(** The constraints that linking [self] synthesizes for its range [rg]: two
    for each parent name of a Character that is the name of a range. *)
Definition synthesized {T} `{!PyRuntime T} (self : Timeline T) (rg : Range T)
  : list (Constraint T) :=
  match rg_cls rg with
  | ClsCharacter =>
      flat_map (λ par, [born_after (rg_name rg) par;
                        born_predeath (rg_name rg) par])
        (elements (refs_set (resolve (rg_parents rg) self).1))
  | ClsRange => []
  end.

(** A range without its hanging events. *)
Definition forget_hanging {T} (rg : Range T) : Range T :=
  MkRange (rg_cls rg) (rg_name rg) (rg_dispname rg) (rg_classes rg)
    (rg_spans rg) (rg_idx rg) (rg_ambient rg) [] (rg_gender rg)
    (rg_parents rg).

(** What identifies an event in the event sequence: everything but the
    references and the index that linking computes. *)
Definition ev_data {T} (ev : Event T)
  : option string * option T * option string * gset string :=
  (ev_name ev, ev_time ev, ev_desc ev, ev_classes ev).

(** Every time of a Timeline: the bounds of the spans, then the times of
    the events. *)
Definition span_times {T} (rgs : list (string * Range T)) : list (val T) :=
  flat_map (fun krg => flat_map (fun sp => [sp_start sp; sp_end sp])
                         (rg_spans krg.2)) rgs.

Definition all_times {T} (rgs : list (string * Range T)) (evs : list (Event T))
  : list (val T) :=
  span_times rgs ++ (time_val <$> evs).

(** The values of a set can be compared with each other: they are all
    numbers, or all strings, or there is at most one. *)
Definition is_num {T} (v : val T) : Prop := ∃ x, v = VNum x.
Definition is_str {T} (v : val T) : Prop := ∃ s, v = VStr s.

Definition uniform {T} (s : list (val T)) : Prop :=
  Forall is_num s ∨ Forall is_str s ∨ ∃ v, Forall (fun x => x = v) s.

(** The folds of [min] and [max] differ in the order of the operands of
    [<] only: [pick] is either. *)
Definition pick_from {T} `{!PyRuntime T} (flip : bool) (m : val T)
    (l : list (val T))
  : res (val T) :=
  if flip then max_from m l else min_from m l.

(** What the linked event sequence keeps of an event, and what it resolves. *)
Definition ev_linked {T} (self : Timeline T) (ev : Event T) : Event T :=
  with_refs ev (resolve (ev_from_rg ev) self).1 (resolve (ev_with_rg ev) self).1.

(** The times of the spans of a range. *)
Definition rg_times {T} (rg : Range T) : list (val T) :=
  flat_map (fun sp => [sp_start sp; sp_end sp]) (rg_spans rg).

(** An ambient range has a span. *)
Definition ambient_spanned {T} (rgs : list (string * Range T)) : Prop :=
  Forall (λ krg, rg_ambient krg.2 = true → rg_spans krg.2 ≠ []) rgs.

Definition has_ambient {T} (rgs : list (string * Range T)) : Prop :=
  ∃ krg, krg ∈ rgs ∧ rg_ambient krg.2 = true.





Definition no_group {T} (tml : Timeline T) (k : seltok) : Prop :=
  match k with
  | SStr s => groups tml !! Some s = None
  | SInt _ => True
  end.

(** The key [k] names no range of [tml]. *)
Definition no_range {T} (tml : Timeline T) (k : seltok) : Prop :=
  match k with
  | SStr s => dict_get s (ranges tml) = None
  | SInt _ => True
  end.

(** The keys of a list are in order for [sorted]: no later key is less than
    an earlier one. *)
Definition keys_sorted {T} `{!PyRuntime T} (ks : list (val T)) : Prop :=
  StronglySorted (fun u v => val_lt v u = Ok false) ks.

(** ** Concrete inputs *)

(** A line indented by one tab. *)
Definition tabbed (s : string) : string := String TAB s.

(** The four lines of the tab-width example. *)
Definition latch_lines : list string :=
  [tabbed "A"; tabbed (tabbed "B"); "  C"; tabbed "D"].

(** Lines that open the levels 0, 2 and 4 and then dedent to 3. *)
Definition ragged_lines : list string :=
  ["a"; "  b"; "    c"; "   d"].

(** Number of occurrences of a token. *)
Definition count_token (t : token) (l : list token) : nat :=
  length (filter (fun x => x = t) l).

(** A range with the one span [[s, e]]. *)
Definition range_of (name : string) (s e : Z) : Range Z :=
  MkRange ClsRange name None ∅ [MkSpan (VNum s) "begin" (VNum e) (Some "end")]
    None false [] None (Names ∅).

(** Range A with span [[0, 10]] and Range B with span [[10, 20]]. *)
Definition tml_AB : Timeline Z :=
  MkTimeline [("A", range_of "A" 0 10); ("B", range_of "B" 10 20)] [] [] ∅
    None.

(** before = [A, 0, "end"], after = [B, 0, "start"], offset 0. *)
Definition con_AB (strict : bool) : Constraint Z :=
  MkConstraint None (Some [SStr "A"; SStr "0"; SStr "end"])
    (Some [SStr "B"; SStr "0"; SStr "start"]) 0%Z strict.

(** Tokenize (tab width 4), parse and link. *)
Definition link_lines (lines : list string) : out Z (Timeline Z) :=
  tml ← Timeline_from_tokens (tokenize (Some 4%Z) lines);
  Timeline_link tml.

(** The result of a computation that raised nothing. *)
Definition result {D A} (m : writer D A) : option A :=
  match m.2 with Ok a => Some a | Raise _ => None end.


(** Two characters P1 and P2, and a character Kid with both as parents. *)
Definition kid_lines : list string :=
  ["char P1"; tabbed "born 0"; tabbed "died 50";
   "char P2"; tabbed "born 5"; tabbed "died 60";
   "char Kid"; tabbed "born 20"; tabbed "died 90"; tabbed "parent P1 P2"].

(** A character with the one span [[s, e]] and the parent names [ps]. *)
Definition character_of (name : string) (s e : Z) (ps : list string)
  : Range Z :=
  MkRange ClsCharacter name None ∅
    [MkSpan (VNum s) "born" (VNum e) (Some "died")] None false [] None
    (Names (list_to_set ps)).

(** The Timeline that [kid_lines] parse to. *)
Definition tml_kid : Timeline Z :=
  MkTimeline [("P1", character_of "P1" 0 50 []);
              ("P2", character_of "P2" 5 60 []);
              ("Kid", character_of "Kid" 20 90 ["P1"; "P2"])] [] [] ∅ None.

(** The lines of [kid_lines] and an event from P1 with P2. *)
Definition wedding_lines : list string :=
  kid_lines ++ ["event wedding"; tabbed "at 30"; tabbed "from P1";
                tabbed "with P2"].

(** The lines of [kid_lines], an event without a time, and two events that
    are not given in the order of their times: the birth of Kid and, before
    it, a wedding from P1 with P2. *)
Definition family_lines : list string :=
  kid_lines ++ ["event undated"; tabbed "desc some day";
                "event birth"; tabbed "at 20"; tabbed "with Kid";
                "event wedding"; tabbed "at 15"; tabbed "from P1";
                tabbed "with P2"].

(** Tokenize, parse, link and link again. *)
Definition relink_lines (lines : list string) : out Z (Timeline Z) :=
  tml ← link_lines lines;
  Timeline_link tml.

(** The reference sets of a Timeline: the parents of each range, and the
    from and with sets of each event. *)
Definition ref_names {T} (tml : Timeline T)
  : list (string * list string) * list (list string * list string) :=
  ((λ krg, (krg.1, elements (refs_set (rg_parents krg.2)))) <$> ranges tml,
   (λ ev, (elements (refs_set (ev_from_rg ev)),
           elements (refs_set (ev_with_rg ev)))) <$> events tml).








(** An input with an unresolved parent, an event without a time, an unknown
    directive, an invalid constraint, a constraint on an unknown name and a
    constraint that fails. *)
Definition tolerated_lines : list string :=
  ["char A"; tabbed "born 0"; tabbed "died 9"; tabbed "parent Nobody";
   "event e"; tabbed "desc no time"; tabbed "colour red";
   "event f"; tabbed "at 12";
   "constraint c1"; tabbed "before A";
   "constraint c2"; tabbed "before Nobody"; tabbed "after A";
   "constraint c3"; tabbed "before f"; tabbed "after A end"].

(** The Timeline that [tolerated_lines] parse to. *)
Definition tml_tolerated : Timeline Z :=
  match (Timeline_from_tokens (tokenize (Some 4%Z) tolerated_lines)).2 with
  | Ok tml => tml
  | Raise _ => Timeline_init
  end.

(** The Timeline that [family_lines] parse to. *)
Definition tml_family : Timeline Z :=
  match (Timeline_from_tokens (tokenize (Some 4%Z) family_lines)).2 with
  | Ok tml => tml
  | Raise _ => Timeline_init
  end.

(** ** Further notions used in the statements *)

(** The text of a line token. *)
Definition token_text (t : token) : option string :=
  match t with Content s => Some s | _ => None end.

(** The nesting depth reached after the tokens [l], entered at depth [d];
    [None] when a DEDENT closes a block that was not opened. *)
Fixpoint depth_after (d : nat) (l : list token) : option nat :=
  match l with
  | [] => Some d
  | INDENT :: rest => depth_after (S d) rest
  | DEDENT :: rest =>
      match d with
      | 0 => None
      | S d' => depth_after d' rest
      end
  | Content _ :: rest => depth_after d rest
  end.

(** The level stack as the tokenizer keeps it: strictly decreasing from the
    top ([lev_stack[-1]], the head here) down to the base level 0. *)
Definition stack_ok (stack : list Z) : Prop :=
  StronglySorted (λ a b, (b < a)%Z) stack ∧ last stack = Some 0%Z.

Definition is_Content (t : token) : bool :=
  match t with Content _ => true | _ => false end.

(** The loop of [Timeline.from_tokens], entered with the Timeline [inst]
    built so far and the tokens [tok] still in the stream. *)
Definition Timeline_parse {T} `{!PyRuntime T} (fin : option pyerr)
    (inst : Timeline T) (tok : list token) : out T (Timeline T) :=
  Timeline_loop (length tok) fin inst tok.

(** A span as the builder of the class [cls] closes it: two numbers, a
    begin-word and an end-word of the class. *)
Definition span_complete {T} (cls : range_class) (sp : Span T) : Prop :=
  is_num (sp_start sp) ∧ is_num (sp_end sp) ∧
  sp_sword sp ∈ BEGIN_WORDS cls ∧
  ∃ w, sp_eword sp = Some w ∧ w ∈ END_WORDS cls.

(** The constraints that chain the events [evs] of a sequence named [nm]:
    one for each pair of neighbours, numbered from 0. *)
Definition chain {T} `{!PyRuntime T} (nm : option string)
    (evs : list (list string)) : list (Constraint T) :=
  imap (λ i (p : list string * list string),
          Constraint_new (seq_name nm i) (SStr <$> p.1) (SStr <$> p.2))
       (zip evs (drop 1 evs)).

(** The span that a begin-word of the class [cls] has opened, if any. *)
Definition pending_ok {T} (cls : range_class) (cur : option (Span T)) : Prop :=
  match cur with
  | Some sp => is_num (sp_start sp) ∧ sp_sword sp ∈ BEGIN_WORDS cls
  | None => True
  end.

(** What the directives of a block leave as they found it in a Range under
    construction, and what they keep true of it. *)
Definition Range_built {T} (cls : range_class) (name : string) (rg : Range T)
  : Prop :=
  rg_name rg = name ∧ rg_cls rg = cls ∧
  Forall (span_complete cls) (rg_spans rg) ∧
  rg_idx rg = None ∧ rg_hanging_events rg = [] ∧
  ∃ s, rg_parents rg = Names s.

(** The neighbours of a sequence: the pairs of an event and the next, the
    first pair starting from [last] when there is one. *)
Definition neighbours (last : option (list string)) (evs : list (list string))
  : list (list string * list string) :=
  match last with
  | Some l => zip (l :: evs) evs
  | None => zip evs (drop 1 evs)
  end.

(** What linking [self] makes of the range [krg]: everything is kept but
    the parents, which are resolved, the spans of an ambient range, the
    index and the hanging events. *)
Definition range_linked_from {T} `{!PyRuntime T} (self : Timeline T)
    (krg krg' : string * Range T) : Prop :=
  krg'.1 = krg.1 ∧ rg_name krg'.2 = rg_name krg.2 ∧
  rg_cls krg'.2 = rg_cls krg.2 ∧ rg_dispname krg'.2 = rg_dispname krg.2 ∧
  rg_classes krg'.2 = rg_classes krg.2 ∧
  rg_ambient krg'.2 = rg_ambient krg.2 ∧ rg_gender krg'.2 = rg_gender krg.2 ∧
  (rg_ambient krg.2 = false → rg_spans krg'.2 = rg_spans krg.2) ∧
  rg_parents krg'.2 = linked_parents self krg.2.

(** The universal events of a list. *)
Definition universal {T} (evs : list (Event T)) : list (Event T) :=
  filter (λ ev, Event_is_universal ev) evs.

(** The numbers among the times of a Timeline. *)
Definition num_times {T} (self : Timeline T) : list T :=
  omap (λ v, match v with VNum x => Some x | _ => None end)
       (all_times (ranges self) (events self)).

Definition with_constraints {T} (self : Timeline T)
    (cons : list (Constraint T)) : Timeline T :=
  MkTimeline (ranges self) (events self) cons (groups self)
    (universal_evs self).

(** The constraint [con] does not make the check fail: it is invalid, or
    it is verified and holds. *)
Definition passes {T} `{!PyRuntime T} (depth : nat) (self : Timeline T)
    (con : Constraint T) : bool :=
  negb (Constraint_is_valid con) ||
  match (Constraint_verify depth con self).2 with
  | Ok ok => ok
  | Raise _ => false
  end.

(** The constraint [con] is verified without an exception, if it is
    valid. *)
Definition verifiable {T} `{!PyRuntime T} (depth : nat) (self : Timeline T)
    (con : Constraint T) : bool :=
  negb (Constraint_is_valid con) ||
  is_ok (Constraint_verify depth con self).2.

(** Range A with the group g of a name that nothing has, and two
    constraints whose selectors resolve but cannot be compared: the first
    takes the latest time of the empty group, the second compares the
    begin-word of a span with a number. *)
Definition con_empty_group : Constraint Z :=
  MkConstraint (Some "c1") (Some [SStr "g"]) (Some [SStr "A"]) 0%Z false.

Definition con_begin_word : Constraint Z :=
  MkConstraint (Some "c2") (Some [SStr "A"; SStr "0"; SStr "sword"])
    (Some [SStr "A"]) 0%Z false.

Definition tml_clash : Timeline Z :=
  MkTimeline [("A", range_of "A" 0 10)] [] [con_empty_group; con_begin_word]
    {[ Some "g" := MkGroup (Some "g") {[ ["nobody"] ]} ]} None.

(** Ranges A and B with the group g of A, of the end of B, and of a name
    that nothing has. *)
Definition tml_group : Timeline Z :=
  MkTimeline (ranges tml_AB) [] []
    {[ Some "g" := MkGroup (Some "g") {[ ["A"]; ["B"; "0"; "end"]; ["nobody"] ]} ]}
    None.

(** A group that is its own member. *)
Definition tml_loop : Timeline Z :=
  MkTimeline [] [] [] {[ Some "loop" := MkGroup (Some "loop") {[ ["loop"] ]} ]}
    None.

(** ** tml.py: layout

    [Timeline.layout], [Range.layout] and [Event.layout] give every range
    and every event that is drawn a row: they set the attribute [y] of the
    object and move [current_y] on. The attribute is kept here beside the
    objects, in the order of the assignments: for a range under the key it
    has in [Timeline.ranges], for an event under its position in
    [Timeline.events]. *)

Definition Span_HEIGHT : Z := 50.
Definition Span_GAP : Z := 20.

Record layout := Layout {
  current_y : Z;
  range_y : list (string * Z);
  event_y : list (nat * Z)
}.

(** [Event.layout] *)
Definition Event_layout (pos : nat) (tml : layout) : layout :=
  Layout (current_y tml + Span_GAP) (range_y tml)
    (event_y tml ++ [(pos, current_y tml)]).

(** [Range.layout] *)
Definition Range_layout {T} (k : string) (rg : Range T) (tml : layout)
  : layout :=
  foldl (λ tml ev, Event_layout ev tml)
    (Layout (current_y tml + Span_HEIGHT) (range_y tml ++ [(k, current_y tml)])
       (event_y tml))
    (rg_hanging_events rg).

(** [Timeline.layout]; [self.height] is the final [current_y]. *)
Definition Timeline_layout {T} (self : Timeline T) : layout :=
  let tml :=
    foldl (λ tml (krg : string * Range T), Range_layout krg.1 krg.2 tml)
      (Layout 0 [] []) (ranges self) in
  foldl (λ tml (pev : nat * Event T),
           if Event_is_universal pev.2 then Event_layout pev.1 tml else tml)
    tml (reverse (imap (λ i ev, (i, ev)) (events self))).

(** The events that hang on the ranges [rgs]. *)
Definition hanging {T} (rgs : list (string * Range T)) : list nat :=
  flat_map (λ krg, rg_hanging_events krg.2) rgs.

(** The positions, counted from [start], of the events of [evs] that have a
    with-range. *)
Definition hang_positions {T} (start : nat) (evs : list (Event T)) : list nat :=
  (filter (λ pev : nat * Event T, refs_nonempty (ev_with_rg pev.2))
     (imap (λ i ev, (start + i, ev)) evs)).*1.

(** The one span of an ambient range. *)
Definition ambient_span {T} (rg : Range T) : Prop :=
  ∃ mnt mxt, rg_spans rg = [MkSpan mnt "begin" mxt (Some "end")].

(** The Timeline that [wedding_lines] parse to. *)
Definition tml_wedding : Timeline Z :=
  match (Timeline_from_tokens (tokenize (Some 4%Z) wedding_lines)).2 with
  | Ok tml => tml
  | Raise _ => Timeline_init
  end.

(** A character with a span, an event, and an ambient character. *)
Definition tml_ambient : Timeline Z :=
  match (Timeline_from_tokens
           (tokenize (Some 4%Z)
              ["char A"; tabbed "born 3"; tabbed "died 9";
               "char World"; tabbed "ambient";
               "event e"; tabbed "at 12"])).2 with
  | Ok tml => tml
  | Raise _ => Timeline_init
  end.

(** Every INDENT of [l] is directly followed by a line token. *)
Fixpoint indents_followed (l : list token) : bool :=
  match l with
  | [] => true
  | INDENT :: rest =>
      match rest with
      | Content _ :: _ => indents_followed rest
      | _ => false
      end
  | _ :: rest => indents_followed rest
  end.

(** Three events that are not given in the order of their times, and one
    without a time. *)
Definition tml_unsorted : Timeline Z :=
  match (Timeline_from_tokens
           (tokenize (Some 4%Z)
              ["event last"; tabbed "at 30";
               "event never"; tabbed "desc no time";
               "event first"; tabbed "at 10";
               "event middle"; tabbed "at 20"])).2 with
  | Ok tml => tml
  | Raise _ => Timeline_init
  end.

(** ** The conditions of a run without an exception *)








(** The computation [m] raises nothing but [fin], the exception of the
    tokenizer if it has one, and what it returns satisfies [P]. *)
Definition raises_only {D A} (fin : option pyerr) (P : A → Prop)
    (m : writer D A) : Prop :=
  match m.2 with
  | Ok a => P a
  | Raise e => fin = Some e
  end.











(** * Properties of the tokenizer *)

Section TokenizerFacts.

Lemma str_count_absent c s : str_contains c s = false → str_count c s = 0.
Proof.
  induction s as [|d s IH]; simpl; [done|].
  case_bool_decide; simpl; [done|]. auto.
Qed.

Lemma line_level_latch tabs ot span lev ot' :
  line_level tabs ot span = Ok (lev, ot') →
  ot' = ot && negb (str_contains SPACE span).
Proof.
  unfold line_level. case_bool_decide as Hemp.
  - subst span. intros [= <- <-]. by rewrite andb_true_r.
  - destruct (str_contains SPACE span), (str_contains TAB span), ot, tabs;
      simpl; intros [= <- <-]; done.
Qed.

Lemma line_level_value w ot span :
  line_level (Some w) ot span =
  Ok ((Z.of_nat (str_count SPACE span) +
       Z.of_nat (str_count TAB span) *
         (if ot && negb (str_contains SPACE span) then 1 else w))%Z,
      ot && negb (str_contains SPACE span)).
Proof.
  unfold line_level. case_bool_decide as Hemp.
  - subst span. simpl. by rewrite andb_true_r.
  - destruct (str_contains SPACE span) eqn:Hsp,
      (str_contains TAB span) eqn:Htab, ot; simpl; try done;
      rewrite (str_count_absent _ _ Htab); do 2 f_equal; lia.
Qed.

Lemma tokenize_line_latch tabs st line out st' :
  tokenize_line tabs st line = (out, Ok st') →
  only_tabbed st' = only_tabbed st && tabs_only line.
Proof.
  unfold tokenize_line, tabs_only.
  destruct (line_level _ _ _) as [[lev ot]|e] eqn:Hlev; [|done].
  apply line_level_latch in Hlev as ->.
  destruct (lev_stack st) as [|top below]; [done|].
  repeat case_match; intros [= <- <-]; done.
Qed.

Lemma tokenize_loop_latch tabs lines : ∀ st out st',
  tokenize_loop tabs st lines = (out, Ok st') →
  only_tabbed st' = only_tabbed st && forallb tabs_only lines.
Proof.
  induction lines as [|line rest IH]; intros st out st'; simpl.
  - intros [= <- <-]. by rewrite andb_true_r.
  - destruct (tokenize_line tabs st line) as [o [st1|e]] eqn:Hline; [|done].
    destruct (tokenize_loop tabs st1 rest) as [o' r] eqn:Hrest.
    intros [= <- ->]. apply IH in Hrest as ->.
    apply tokenize_line_latch in Hline as ->. by rewrite andb_assoc.
Qed.

Lemma LWS_span_indented ind body :
  lws_run ind = true → starts_text body = true →
  LWS_span (ind +:+ body) = ind.
Proof.
  intros Hind Hbody. induction ind as [|c ind IH]; simpl in *.
  - destruct body as [|c body]; [done|]. simpl in *.
    by destruct (is_lws c).
  - apply andb_true_iff in Hind as [-> Hind]. by rewrite IH.
Qed.

Lemma tabs_only_indented p :
  well_split p = true → tabs_only (indented p) = tab_indented p.
Proof.
  intros [Hind Hbody]%andb_true_iff. unfold tabs_only, indented, tab_indented.
  by rewrite LWS_span_indented.
Qed.

Lemma forallb_tabs_only_indented ps :
  forallb well_split ps = true →
  forallb tabs_only (indented <$> ps) = forallb tab_indented ps.
Proof.
  induction ps as [|p ps IH]; [done|]. rewrite fmap_cons.
  cbn [forallb]. intros [Hp Hps]%andb_true_iff.
  by rewrite tabs_only_indented, IH.
Qed.

(** The level of a line in terms of the run that [LWS] matches. *)
Lemma level_of_line_value (w : Z) (pre : list string) (line : string) :
  is_ok (tokenize_loop (Some w) tok_init pre).2 = true →
  level_of_line (Some w) pre line =
  Some (Z.of_nat (str_count SPACE (LWS_span line)) +
        Z.of_nat (str_count TAB (LWS_span line)) *
          (if forallb tabs_only (pre ++ [line]) then 1 else w))%Z.
Proof.
  intros Hok. unfold level_of_line.
  destruct (tokenize_loop (Some w) tok_init pre) as [out [st|e]] eqn:Hrun;
    [|done].
  apply tokenize_loop_latch in Hrun. simpl in Hrun.
  rewrite line_level_value, Hrun, forallb_app. simpl.
  unfold tabs_only at 2. by rewrite andb_true_r.
Qed.

(** C2. With tab width [w], the level the tokenizer gives a line it reaches
    is its number of leading spaces plus its number of leading tabs times
    [t], where [t] is 1 as long as no indentation run up to and including
    this line has a space, and [w] from then on. The lines are given in two
    pieces, the leading run [ind] of spaces and tabs and the text [body]
    that starts with neither: only the characters of [ind] count, whatever
    white space [body] has. With [w = 4] the lines "\tA", "\t\tB", "  C",
    "\tD" get the levels 1, 2, 2 and 4. *)
Theorem C2_indentation_level :
  (∀ (w : Z) (pre : list (string * string)) (ind body : string),
      forallb well_split (pre ++ [(ind, body)]) = true →
      is_ok (tokenize_loop (Some w) tok_init (indented <$> pre)).2 = true →
      level_of_line (Some w) (indented <$> pre) (ind +:+ body) =
      Some (Z.of_nat (str_count SPACE ind) +
            Z.of_nat (str_count TAB ind) *
              (if forallb tab_indented (pre ++ [(ind, body)])
               then 1 else w))%Z) ∧
  (∀ i, i < 4 →
      level_of_line (Some 4%Z) (take i latch_lines)
        (default "" (latch_lines !! i)) = [1; 2; 2; 4]%Z !! i).
Proof.
  split.
  - intros w pre ind body Hsplit Hok.
    rewrite level_of_line_value by done.
    pose proof Hsplit as Hall.
    rewrite forallb_app in Hsplit.
    apply andb_true_iff in Hsplit as [_ Hline]. simpl in Hline.
    rewrite andb_true_r in Hline.
    apply andb_true_iff in Hline as [Hind Hbody].
    rewrite LWS_span_indented by done.
    change ([ind +:+ body]) with (indented <$> [(ind, body)]).
    by rewrite <-fmap_app, forallb_tabs_only_indented.
  - intros i Hi.
    destruct i as [|[|[|[|i]]]]; [reflexivity..|lia].
Qed.

(** The second line has a tab after two spaces of text and white space at
    its end; the first has spaces inside its text. *)
Lemma C2_indentation_level_witness :
  level_of_line (Some 8%Z) ["  x  q"] (tabbed ("y z" +:+ tabbed " ."))
  = Some 8%Z ∧
  level_of_line (Some 8%Z) [tabbed "x  q"] (tabbed ("y z" +:+ tabbed " ."))
  = Some 1%Z.
Proof.
  split.
  - exact (proj1 C2_indentation_level 8%Z [("  ", "x  q")]
             (tabbed "") ("y z" +:+ tabbed " .") eq_refl eq_refl).
  - exact (proj1 C2_indentation_level 8%Z [(tabbed "", "x  q")]
             (tabbed "") ("y z" +:+ tabbed " .") eq_refl eq_refl).
Defined.

Lemma tokenize_loop_app tabs pre : ∀ st post,
  tokenize_loop tabs st (pre ++ post) =
  match tokenize_loop tabs st pre with
  | (o, Ok st') =>
      let '(o', r) := tokenize_loop tabs st' post in (o ++ o', r)
  | (o, Raise e) => (o, Raise e)
  end.
Proof.
  induction pre as [|line pre IH]; intros st post; simpl.
  - by destruct (tokenize_loop tabs st post).
  - destruct (tokenize_line tabs st line) as [o [st1|e]]; [|done].
    rewrite IH. destruct (tokenize_loop tabs st1 pre) as [o1 [st2|e]];
      [|done].
    destruct (tokenize_loop tabs st2 post) as [o2 r]. by rewrite app_assoc.
Qed.

Lemma tokenize_loop_raise_inv tabs lines : ∀ st out e,
  tokenize_loop tabs st lines = (out, Raise e) →
  ∃ pre line post o1 st1 o2,
    lines = pre ++ line :: post ∧
    tokenize_loop tabs st pre = (o1, Ok st1) ∧
    tokenize_line tabs st1 line = (o2, Raise e).
Proof.
  induction lines as [|line rest IH]; intros st out e; simpl; [done|].
  destruct (tokenize_line tabs st line) as [o [st1|e1]] eqn:Hline.
  - destruct (tokenize_loop tabs st1 rest) as [o' r] eqn:Hrest.
    intros [= <- ->].
    destruct (IH _ _ _ Hrest) as (pre & l & post & o1 & st2 & o2 & -> & Hpre & Hl).
    exists (line :: pre), l, post, (o ++ o1), st2, o2. simpl.
    by rewrite Hline, Hpre.
  - intros [= <- <-]. by exists [], line, rest, [], st, o.
Qed.

Lemma pop_levels_spec lev stack : ∀ out stack',
  pop_levels lev stack = (out, stack') →
  ∃ popped,
    stack = popped ++ stack' ∧ Forall (fun x => (lev < x)%Z) popped ∧
    out = replicate (length popped) DEDENT ∧
    (∀ top below, stack' = top :: below → (top ≤ lev)%Z).
Proof.
  induction stack as [|top below IH]; intros out stack'; simpl.
  - intros [= <- <-]. by exists [].
  - destruct (Z.ltb_spec lev top) as [Hlt|Hge].
    + destruct (pop_levels lev below) as [o s'] eqn:Hpop. intros [= <- <-].
      destruct (IH _ _ eq_refl) as (popped & -> & Hall & -> & Htop).
      exists (top :: popped). repeat split; auto.
    + intros [= <- <-]. exists []. repeat split; auto.
      by intros ?? [= <- <-].
Qed.

Lemma pop_levels_app lev popped top below :
  Forall (fun x => (lev < x)%Z) popped → (top ≤ lev)%Z →
  pop_levels lev (popped ++ top :: below) =
  (replicate (length popped) DEDENT, top :: below).
Proof.
  intros Hall Htop. induction Hall as [|x popped Hx _ IH]; simpl.
  - destruct (Z.ltb_spec lev top); [lia|done].
  - destruct (Z.ltb_spec lev x); [|lia]. by rewrite IH.
Qed.

Lemma line_level_raise tabs ot span e :
  line_level tabs ot span = Raise e → e = SpanLength.
Proof.
  unfold line_level. repeat case_match; congruence.
Qed.

Lemma tokenize_line_unmatched tabs st line :
  (∃ out, tokenize_line tabs st line = (out, Raise UnmatchedLevel)) ↔
  dedent_unmatched tabs st line.
Proof.
  unfold tokenize_line, dedent_unmatched. split.
  - intros [out H].
    destruct (line_level _ _ _) as [[lev ot]|e] eqn:Hlev;
      [|apply line_level_raise in Hlev; congruence].
    destruct (lev_stack st) as [|top below] eqn:Hst; [done|].
    destruct (Z.ltb_spec top lev); [done|].
    destruct (Z.ltb_spec lev top); [|done].
    destruct (pop_levels lev (top :: below)) as [o stack'] eqn:Hpop.
    destruct stack' as [|top' below']; [done|].
    destruct (Z.ltb_spec top' lev); [|done].
    destruct (pop_levels_spec _ _ _ _ Hpop) as (popped & Heq & Hall & _ & Hle).
    exists lev, ot, popped, top', below'. repeat split; eauto; [|lia].
    intros ->. simpl in Heq. injection Heq as -> _. lia.
  - intros (lev & ot & popped & top & below & -> & -> & Hne & Hall & Hle & Hneq).
    destruct popped as [|p popped]; [done|]. simpl.
    inversion Hall as [|?? Hp Hall']; subst.
    destruct (Z.ltb_spec p lev); [lia|].
    destruct (Z.ltb_spec lev p); [|lia].
    rewrite pop_levels_app by done.
    destruct (Z.ltb_spec top lev); [|lia]. eauto.
Qed.

(** C6. Tokenization stops with the unmatched-indentation-level error exactly
    when it reaches a line whose level is strictly below the top of the
    level stack and differs from the level that is on top once all strictly
    greater levels are popped. The lines [ragged_lines] open the levels
    0, 2, 4 and then give a line of level 3: the error is raised. *)
Theorem C6_unmatched_level :
  (∀ tabs lines,
      fin (tokenize tabs lines) = Some UnmatchedLevel ↔
      ∃ pre line post out st,
        lines = pre ++ line :: post ∧
        tokenize_loop tabs tok_init pre = (out, Ok st) ∧
        dedent_unmatched tabs st line) ∧
  (tokenize_loop (Some 4%Z) tok_init (take 3 ragged_lines)).2
    = Ok (TokState [4; 2; 0]%Z false) ∧
  level_of_line (Some 4%Z) (take 3 ragged_lines) "   d" = Some 3%Z ∧
  fin (tokenize (Some 4%Z) ragged_lines) = Some UnmatchedLevel.
Proof.
  split; [|by vm_compute].
  intros tabs lines. unfold tokenize, tokenize_run. split.
  - destruct (tokenize_loop tabs tok_init lines) as [out [st|e]] eqn:Hrun.
    + by destruct (close_blocks (lev_stack st)).
    + intros [= ->].
      destruct (tokenize_loop_raise_inv _ _ _ _ _ Hrun)
        as (pre & line & post & o1 & st1 & o2 & -> & Hpre & Hline).
      exists pre, line, post, o1, st1. repeat split; [done|].
      apply tokenize_line_unmatched. eauto.
  - intros (pre & line & post & out & st & -> & Hpre & Hun).
    apply tokenize_line_unmatched in Hun as [o Hline].
    rewrite tokenize_loop_app, Hpre. simpl. by rewrite Hline.
Qed.

(** *** Balance of INDENT and DEDENT *)

Lemma count_token_app t l1 l2 :
  count_token t (l1 ++ l2) = count_token t l1 + count_token t l2.
Proof. unfold count_token. by rewrite filter_app, length_app. Qed.

Lemma count_token_replicate_same t n : count_token t (replicate n t) = n.
Proof.
  unfold count_token. induction n as [|n IH]; simpl; [done|].
  rewrite filter_cons_True by done. simpl. by rewrite IH.
Qed.

Lemma count_token_replicate_other t u n :
  t ≠ u → count_token t (replicate n u) = 0.
Proof.
  intros Hne. unfold count_token. induction n as [|n IH]; simpl; [done|].
  by rewrite filter_cons_False.
Qed.

Lemma tokenize_line_balance tabs st line out st' :
  tokenize_line tabs st line = (out, Ok st') →
  count_token INDENT out + length (lev_stack st) =
    count_token DEDENT out + length (lev_stack st') ∧
  (last (lev_stack st) = Some 0%Z → last (lev_stack st') = Some 0%Z).
Proof.
  unfold tokenize_line.
  destruct (line_level _ _ _) as [[lev ot]|e]; [|done].
  destruct (lev_stack st) as [|top below] eqn:Hst; [done|].
  destruct (Z.ltb_spec top lev).
  { intros [= <- <-]. simpl. split; [done|]. by destruct below. }
  destruct (Z.ltb_spec lev top).
  - destruct (pop_levels lev (top :: below)) as [o stack'] eqn:Hpop.
    destruct stack' as [|top' below']; [done|].
    destruct (Z.ltb_spec top' lev); [done|]. intros [= <- <-]. simpl.
    destruct (pop_levels_spec _ _ _ _ Hpop) as (popped & Heq & _ & -> & _).
    rewrite !count_token_app, count_token_replicate_same,
      count_token_replicate_other by done.
    apply (f_equal length) in Heq as Hlen.
    rewrite length_app in Hlen. simpl in Hlen.
    split; [unfold count_token; simpl; lia|].
    rewrite Heq, last_app.
    destruct (last (top' :: below')) eqn:E; [done|]. by apply last_None in E.
  - by intros [= <- <-].
Qed.

Lemma tokenize_loop_balance tabs lines : ∀ st out st',
  tokenize_loop tabs st lines = (out, Ok st') →
  count_token INDENT out + length (lev_stack st) =
    count_token DEDENT out + length (lev_stack st') ∧
  (last (lev_stack st) = Some 0%Z → last (lev_stack st') = Some 0%Z).
Proof.
  induction lines as [|line rest IH]; intros st out st'; simpl.
  - by intros [= <- <-].
  - destruct (tokenize_line tabs st line) as [o [st1|e]] eqn:Hline; [|done].
    destruct (tokenize_loop tabs st1 rest) as [o' r] eqn:Hrest.
    intros [= <- ->].
    apply tokenize_line_balance in Hline as [H1 L1].
    apply IH in Hrest as [H2 L2].
    rewrite !count_token_app. split; [lia|auto].
Qed.

Lemma close_blocks_spec stack :
  close_blocks stack =
  (replicate (length stack - 1) DEDENT, drop (length stack - 1) stack).
Proof.
  induction stack as [|a [|b below] IH]; [done..|].
  change (close_blocks (a :: b :: below))
    with (let '(out, stack') := close_blocks (b :: below) in
          (DEDENT :: out, stack')).
  rewrite IH. simpl. by rewrite Nat.sub_0_r.
Qed.

(** C7. In a run of the tokenizer that raises nothing, the end of the input
    yields one DEDENT for each level of the stack above the base, the stack
    is left as [0], and as many INDENT as DEDENT tokens were yielded. *)
Theorem C7_indents_balance_dedents tabs lines out stack :
  tokenize_run tabs lines = (out, Ok stack) →
  count_token INDENT out = count_token DEDENT out ∧
  stack = [0%Z] ∧
  ∃ body st,
    tokenize_loop tabs tok_init lines = (body, Ok st) ∧
    out = body ++ replicate (length (lev_stack st) - 1) DEDENT.
Proof.
  unfold tokenize_run.
  destruct (tokenize_loop tabs tok_init lines) as [body [st|e]] eqn:Hrun;
    [|done].
  rewrite close_blocks_spec. intros [= <- <-].
  apply tokenize_loop_balance in Hrun as [Hcount Hlast].
  specialize (Hlast eq_refl). simpl in Hcount.
  rewrite !count_token_app, count_token_replicate_other,
    count_token_replicate_same by done.
  split; [|split; [|by exists body, st]].
  - destruct (lev_stack st); simpl in *; [done|lia].
  - destruct (lev_stack st) as [|x l _] using rev_ind; [done|].
    rewrite last_snoc in Hlast. injection Hlast as ->.
    rewrite length_app. simpl.
    replace (length l + 1 - 1) with (length l) by lia.
    by rewrite drop_app_length.
Qed.

Lemma C7_indents_balance_dedents_witness :
  count_token INDENT (tokenize_run (Some 4%Z) latch_lines).1 =
  count_token DEDENT (tokenize_run (Some 4%Z) latch_lines).1.
Proof.
  exact (proj1 (C7_indents_balance_dedents (Some 4%Z) latch_lines
                  (tokenize_run (Some 4%Z) latch_lines).1 [0%Z] eq_refl)).
Defined.

End TokenizerFacts.

(** * Basic facts about the embedding of dicts and of the monads *)

Section DictFacts.
Context {V : Type}.
Implicit Types (k : string) (v : V) (d : list (string * V)).

Lemma dict_get_set_eq k v d : dict_get k (dict_set k v d) = Some v.
Proof.
  induction d as [|[k' v'] d IH]; simpl.
  - by rewrite bool_decide_true.
  - case_bool_decide; simpl.
    + by rewrite bool_decide_true.
    + by rewrite bool_decide_false.
Qed.

Lemma dict_get_set_ne k k' v d :
  k ≠ k' → dict_get k' (dict_set k v d) = dict_get k' d.
Proof.
  intros Hne. induction d as [|[k1 v1] d IH]; simpl.
  - by rewrite bool_decide_false.
  - case_bool_decide; simpl.
    + subst k1. by rewrite !bool_decide_false.
    + by rewrite IH.
Qed.

Lemma dict_set_keys k v d :
  is_Some (dict_get k d) → (dict_set k v d).*1 = d.*1.
Proof.
  induction d as [|[k' v'] d IH]; simpl.
  - by intros [? [=]].
  - case_bool_decide as Hk.
    + by subst k'.
    + intros Hd. rewrite fmap_cons. simpl. f_equal. auto.
Qed.

Lemma dict_get_is_Some k d : is_Some (dict_get k d) ↔ k ∈ d.*1.
Proof.
  induction d as [|[k' v'] d IH]; simpl.
  - split; [by intros [? [=]]|by intros ?%elem_of_nil].
  - rewrite elem_of_cons. case_bool_decide.
    + subst. split; eauto.
    + rewrite IH. split; [by right|]. by intros [?|?].
Qed.

Lemma dict_get_elem_of k v d : dict_get k d = Some v → (k, v) ∈ d.
Proof.
  induction d as [|[k' v'] d IH]; simpl; [done|].
  case_bool_decide.
  - intros [= ->]. subst. by left.
  - intros. right. auto.
Qed.

End DictFacts.

Lemma Forall_fmap_eq {A B} (f : A → B) (P : B → Prop) (Q : A → Prop)
    (l1 l2 : list A) :
  (∀ a, Q a ↔ P (f a)) → f <$> l1 = f <$> l2 → Forall Q l1 → Forall Q l2.
Proof.
  intros HQ Heq H1.
  assert (∀ l, Forall Q l ↔ Forall P (f <$> l)) as E.
  { intros l. rewrite Forall_fmap. apply Forall_proper; [|done].
    intros a. apply HQ. }
  apply E. rewrite <-Heq. by apply E.
Qed.

Section SortFacts.
Context {A : Type} (lt : A → A → res bool).

Lemma sorted_insert_perm x l l' :
  sorted_insert lt x l = Ok l' → l' ≡ₚ x :: l.
Proof.
  revert l'. induction l as [|y ys IH]; intros l'; simpl.
  - by intros [= <-].
  - destruct (lt y x) as [[]|e]; simpl; [|by intros [= <-]|done].
    destruct (sorted_insert lt x ys) as [l1|e]; simpl; [|done].
    intros [= <-]. rewrite (IH l1 eq_refl). apply Permutation_swap.
Qed.

Lemma py_sorted_perm l l' : py_sorted lt l = Ok l' → l' ≡ₚ l.
Proof.
  revert l'. induction l as [|x xs IH]; intros l'; simpl.
  - by intros [= <-].
  - destruct (py_sorted lt xs) as [l1|e]; simpl; [|done].
    intros Hins%sorted_insert_perm. by rewrite Hins, (IH l1 eq_refl).
Qed.

Lemma py_sorted_length l l' : py_sorted lt l = Ok l' → length l' = length l.
Proof. intros Hperm%py_sorted_perm. by rewrite Hperm. Qed.

(** No comparison raises: the sort returns. *)
Lemma sorted_insert_total x l :
  (∀ y, y ∈ l → is_ok (lt y x) = true) → is_ok (sorted_insert lt x l) = true.
Proof.
  induction l as [|y ys IH]; intros Hok; simpl; [done|].
  pose proof (Hok y (list_elem_of_here _ _)) as Hy.
  destruct (lt y x) as [[]|e]; simpl; [|done|done].
  assert (is_ok (sorted_insert lt x ys) = true) as Hrec.
  { apply IH. intros z Hz. apply Hok. by right. }
  by destruct (sorted_insert lt x ys).
Qed.

Lemma py_sorted_total l :
  (∀ x y, x ∈ l → y ∈ l → is_ok (lt x y) = true) →
  is_ok (py_sorted lt l) = true.
Proof.
  induction l as [|x xs IH]; intros Hok; simpl; [done|].
  assert (is_ok (py_sorted lt xs) = true) as Hrec.
  { apply IH. intros y z Hy Hz. apply Hok; by right. }
  destruct (py_sorted lt xs) as [l1|e] eqn:Hs; simpl; [|done].
  apply sorted_insert_total. intros y Hy. apply Hok; [|by left].
  right. by rewrite <-(py_sorted_perm _ _ Hs).
Qed.

End SortFacts.

Section MonadFacts.
Context {D : Type}.

Lemma bind_Ok_inv {A B} (m : writer D A) (k : A → writer D B) log b :
  (m ≫= k) = (log, Ok b) →
  ∃ l1 a l2, m = (l1, Ok a) ∧ k a = (l2, Ok b) ∧ log = l1 ++ l2.
Proof.
  unfold mbind, writer_bind. destruct m as [l1 [a|e]]; [|done].
  destruct (k a) as [l2 r] eqn:Hk. intros [= <- ->]. by exists l1, a, l2.
Qed.

Lemma bind_Ok {A B} (m : writer D A) (k : A → writer D B) l1 a l2 r :
  m = (l1, Ok a) → k a = (l2, r) → (m ≫= k) = (l1 ++ l2, r).
Proof. intros -> Hk. unfold mbind, writer_bind. by rewrite Hk. Qed.

Lemma lift_Ok_inv {A} (r : res A) log a :
  lift (D:=D) r = (log, Ok a) → r = Ok a ∧ log = [].
Proof. unfold lift. by intros [= <- ->]. Qed.

Lemma rbind_Ok_inv {A B} (m : res A) (k : A → res B) b :
  (m ≫= k) = Ok b → ∃ a, m = Ok a ∧ k a = Ok b.
Proof. unfold mbind, res_bind. destruct m as [a|e]; [|done]. eauto. Qed.

End MonadFacts.

(** * Properties of [read_block] and of the parser *)

Section ReadBlockFacts.

Lemma read_block_loop_balanced body : ∀ depth rest,
  balanced_from depth body = true →
  read_block_loop (Z.of_nat depth + 1) (body ++ DEDENT :: rest)
  = (body, Some rest).
Proof.
  induction body as [|t body IH]; intros depth rest Hbal; simpl in *.
  - case_bool_decide; [subst depth|done]. reflexivity.
  - destruct t as [| |s]; simpl.
    + replace (Z.of_nat depth + 1 + 1)%Z with (Z.of_nat (S depth) + 1)%Z
        by lia.
      by rewrite IH.
    + destruct depth as [|depth']; [done|].
      destruct (Z.eqb_spec (Z.of_nat (S depth') + 1 - 1) 0); [lia|].
      replace (Z.of_nat (S depth') + 1 - 1)%Z with (Z.of_nat depth' + 1)%Z
        by lia.
      by rewrite IH.
    + by rewrite IH.
Qed.

(** C9 (as amended). Started on the stream positioned just before the INDENT
    that opens a block, [read_block] consumes the tokens up to and
    including the matching DEDENT and leaves the stream just past it; the
    callback is called on every token consumed except that last DEDENT. *)
Theorem C9_read_block_skips_block (body rest : list token) :
  balanced_from 0 body = true →
  read_block (INDENT :: body ++ DEDENT :: rest) = (INDENT :: body, Some rest).
Proof.
  intros Hbal. unfold read_block.
  pose proof (read_block_loop_balanced body 0 rest Hbal) as Hloop.
  change (Z.of_nat 0) with 0%Z in Hloop. simpl. by rewrite Hloop.
Qed.

Lemma C9_read_block_skips_block_witness :
  read_block ([INDENT; Content "a"; INDENT; Content "b"; DEDENT; DEDENT;
               Content "c"])
  = ([INDENT; Content "a"; INDENT; Content "b"; DEDENT], Some [Content "c"]).
Proof.
  exact (C9_read_block_skips_block [Content "a"; INDENT; Content "b"; DEDENT]
           [Content "c"] eq_refl).
Defined.

(** C9, the claim as stated fails: started just after the opening INDENT of
    the block [INDENT; "a"; DEDENT], with "b" following the block,
    [read_block] does not stop at the matching DEDENT; it hands it to the
    callback and consumes "b" as well, exhausting the stream. *)
Lemma C9_after_indent_overruns :
  read_block [Content "a"; DEDENT; Content "b"]
  = ([Content "a"; DEDENT; Content "b"], None).
Proof. reflexivity. Qed.

End ReadBlockFacts.

Section ParserFacts.
Context {T : Type} `{!PyRuntime T}.

(** C8, what the code does: registering a Range under a name already in the
    mapping prints the overwrite warning and replaces the entry; registering
    a Group replaces the entry under its name and prints nothing, whether or
    not the name was present. *)
Theorem C8_add_overwrites (self : Timeline T) :
  (∀ rg : Range T,
      dict_mem (rg_name rg) (ranges self) = true →
      ∃ self',
        Timeline_add self (ORange rg)
          = ([WRangeOverwrite (rg_name rg)], Ok self') ∧
        dict_get (rg_name rg) (ranges self') = Some rg ∧
        (ranges self').*1 = (ranges self).*1) ∧
  (∀ grp : Group,
      ∃ self',
        Timeline_add self (OGroup grp) = ([], Ok self') ∧
        groups self' !! g_name grp = Some grp).
Proof.
  split.
  - intros rg Hmem. simpl. rewrite Hmem. eexists. split; [reflexivity|].
    simpl. split; [apply dict_get_set_eq|].
    apply dict_set_keys. by apply bool_decide_eq_true in Hmem.
  - intros grp. eexists. split; [reflexivity|]. simpl.
    by rewrite lookup_insert_eq.
Qed.

End ParserFacts.

Lemma C8_add_overwrites_witness :
  ∃ self',
    Timeline_add
      (MkTimeline [("A", Range_init (T:=Z) ClsCharacter "A")] [] [] ∅ None)
      (ORange (Range_init ClsCharacter "A"))
    = ([WRangeOverwrite "A"], Ok self').
Proof.
  destruct (proj1 (C8_add_overwrites (T:=Z)
       (MkTimeline [("A", Range_init (T:=Z) ClsCharacter "A")] [] [] ∅ None))
     (Range_init ClsCharacter "A") eq_refl) as (self' & H & _).
  by exists self'.
Defined.

(** * Properties of the Range and Character builder *)

Section RangeBuilderFacts.
Context {T : Type} `{!PyRuntime T}.

Lemma Range_finish_spans (inst inst' : Range T) :
  Range_finish inst = Ok inst' → rg_spans inst' ≡ₚ rg_spans inst.
Proof.
  unfold Range_finish.
  destruct (py_sorted span_start_lt (rg_spans inst)) as [l|e] eqn:Hs;
    simpl; [|done].
  intros [= <-]. simpl. by apply py_sorted_perm in Hs.
Qed.

(** C10. When a Range or Character block ends, at its DEDENT or at the end
    of the input, while a span opened by a begin-word is pending, the
    builder returns what it returns with no span pending, diagnostics
    included: nothing is printed at a DEDENT, only the end-of-input warning
    at the end of the input, and the spans of the result are those closed
    before, reordered. *)
Theorem C10_pending_span_dropped
    (cls : range_class) (inst : Range T) (sp : Span T) (rest : list token) :
  (∀ fin,
      Range_loop cls fin inst (Some sp) (DEDENT :: rest)
        = Range_loop cls fin inst None (DEDENT :: rest) ∧
      Range_loop cls fin inst (Some sp) []
        = Range_loop cls fin inst None []) ∧
  (∀ fin log inst' rest',
      Range_loop cls fin inst (Some sp) (DEDENT :: rest)
        = (log, Ok (inst', rest')) →
      log = [] ∧ rest' = rest ∧ rg_spans inst' ≡ₚ rg_spans inst) ∧
  (∀ log inst' rest',
      Range_loop cls None inst (Some sp) [] = (log, Ok (inst', rest')) →
      log = [WEofBlock KRange] ∧ rest' = [] ∧
      rg_spans inst' ≡ₚ rg_spans inst).
Proof.
  split; [done|]. split.
  - intros fin log inst' rest'. simpl.
    destruct (Range_finish inst) as [i|e] eqn:Hfin; simpl; [|done].
    intros [= <- <- <-]. by apply Range_finish_spans in Hfin.
  - intros log inst' rest'. simpl.
    destruct (Range_finish inst) as [i|e] eqn:Hfin; simpl; [|done].
    intros [= <- <- <-]. by apply Range_finish_spans in Hfin.
Qed.

End RangeBuilderFacts.

(** A Character block with the lines "begin 1", "end 5", "born 10": the span
    opened by "born 10" is not in the result and nothing is printed. *)
Lemma C10_pending_span_dropped_witness :
  ∃ inst',
    Range_from_tokens (T:=Z) ClsCharacter None
      [Content "begin 1"; Content "end 5"; Content "born 10"; DEDENT]
      ["char"; "A"]
    = ([], Ok (inst', [])) ∧
    rg_spans inst' ≡ₚ [MkSpan (VNum 1%Z) "begin" (VNum 5%Z) (Some "end")].
Proof.
  eexists. split; [vm_compute; reflexivity|].
  apply (proj1 (proj2 (C10_pending_span_dropped (T:=Z) ClsCharacter
    (MkRange ClsCharacter "A" None ∅
       [MkSpan (VNum 1%Z) "begin" (VNum 5%Z) (Some "end")] None false []
       None (Names ∅))
    (MkSpan (VNum 10%Z) "born" VNone None) [])) None [] _ []).
  vm_compute. reflexivity.
Defined.

(** * Properties of constraint verification *)

Section VerifyFacts.
Context {T : Type} `{!PyRuntime T} `{!PyOrder T}.

Lemma num_lt_irrefl (x : T) : num_ltb x x = false.
Proof.
  destruct (num_ltb x x) eqn:E; [|done]. by rewrite (num_lt_asym _ _ E) in E.
Qed.

Lemma max_from_nums (l : list T) : ∀ m,
  ∃ m', max_from (VNum m) (VNum <$> l) = Ok (VNum m') ∧ is_max m' (m :: l).
Proof.
  induction l as [|x l IH]; intros m; simpl.
  - exists m. split; [done|]. split; [by left|].
    intros x [->|?%elem_of_nil]%elem_of_cons; [|done].
    apply num_lt_irrefl.
  - destruct (num_ltb m x) eqn:E.
    + destruct (IH x) as (m' & Heq & Hin & Hmax). exists m'.
      split; [exact Heq|]. split; [by right|].
      pose proof (Hmax x (list_elem_of_here _ _)) as Hx.
      intros y [->|Hy]%elem_of_cons; [|by apply Hmax].
      eapply num_lt_negtrans; [exact Hx|]. by apply num_lt_asym.
    + destruct (IH m) as (m' & Heq & Hin & Hmax). exists m'.
      pose proof (Hmax m (list_elem_of_here _ _)) as Hm.
      split; [exact Heq|]. split.
      * apply elem_of_cons in Hin as [->|Hin]; [by left|by do 2 right].
      * intros y [->|[->|Hy]%elem_of_cons]%elem_of_cons; [done| |].
        -- by eapply num_lt_negtrans.
        -- apply Hmax. by right.
Qed.

Lemma min_from_nums (l : list T) : ∀ n,
  ∃ n', min_from (VNum n) (VNum <$> l) = Ok (VNum n') ∧ is_min n' (n :: l).
Proof.
  induction l as [|x l IH]; intros n; simpl.
  - exists n. split; [done|]. split; [by left|].
    intros x [->|?%elem_of_nil]%elem_of_cons; [|done].
    apply num_lt_irrefl.
  - destruct (num_ltb x n) eqn:E.
    + destruct (IH x) as (n' & Heq & Hin & Hmin). exists n'.
      split; [exact Heq|]. split; [by right|].
      pose proof (Hmin x (list_elem_of_here _ _)) as Hx.
      intros y [->|Hy]%elem_of_cons; [|by apply Hmin].
      eapply num_lt_negtrans; [|exact Hx]. by apply num_lt_asym.
    + destruct (IH n) as (n' & Heq & Hin & Hmin). exists n'.
      pose proof (Hmin n (list_elem_of_here _ _)) as Hn.
      split; [exact Heq|]. split.
      * apply elem_of_cons in Hin as [->|Hin]; [by left|by do 2 right].
      * intros y [->|[->|Hy]%elem_of_cons]%elem_of_cons; [done| |].
        -- by eapply num_lt_negtrans.
        -- apply Hmin. by right.
Qed.

Lemma py_max_nums (l : list T) :
  l ≠ [] → ∃ m, py_max (VNum <$> l) = Ok (VNum m) ∧ is_max m l.
Proof. destruct l as [|x l]; [done|]. intros _. apply max_from_nums. Qed.

Lemma py_min_nums (l : list T) :
  l ≠ [] → ∃ n, py_min (VNum <$> l) = Ok (VNum n) ∧ is_min n l.
Proof. destruct l as [|x l]; [done|]. intros _. apply min_from_nums. Qed.

Lemma verify_semantics (depth : nat) (con : Constraint T) (tml : Timeline T)
    (before after : list seltok) (lb la : list (diag T))
    (B A : GroupResult T) (tb ta : list T) :
  c_before con = Some before → c_after con = Some after →
  Constraint_select depth before tml = (lb, Ok (Some B)) →
  Constraint_select depth after tml = (la, Ok (Some A)) →
  gr_times B = VNum <$> tb → tb ≠ [] →
  gr_times A = VNum <$> ta → ta ≠ [] →
  ∃ m n log,
    is_max m tb ∧ is_min n ta ∧
    Constraint_verify depth con tml =
      (log, Ok (if c_strict con
                then num_ltb m (num_add n (c_offset con))
                else num_leb m (num_add n (c_offset con)))).
Proof.
  intros Hb Ha Hsb Hsa HB Htb HA Hta.
  destruct (py_max_nums tb Htb) as (m & Hmax & Hm).
  destruct (py_min_nums ta Hta) as (n & Hmin & Hn).
  exists m, n. unfold Constraint_verify, gr_max, gr_min.
  rewrite Hb, Ha. simpl. rewrite Hsb. simpl. rewrite Hsa. simpl.
  rewrite HB, HA, Hmax. simpl. rewrite Hmin. simpl.
  destruct (c_strict con); simpl.
  - destruct (num_ltb m (num_add n (c_offset con))); eauto.
  - destruct (num_leb m (num_add n (c_offset con))); eauto.
Qed.

End VerifyFacts.

(** C1. When the before-selector of a constraint resolves to a non-empty set
    of times B and the after-selector to a non-empty set of times A,
    verification returns [max(B) < min(A) + offset] for a strict constraint
    and [max(B) <= min(A) + offset] otherwise. With Range A of span [0, 10]
    and Range B of span [10, 20], the constraint before = [A, 0, "end"],
    after = [B, 0, "start"], offset 0 passes when it is not strict (and
    prints nothing) and fails when it is strict. *)
Theorem C1_verify_semantics :
  (∀ (T : Type) (R : PyRuntime T) (O : PyOrder T) (depth : nat)
     (con : Constraint T) (tml : Timeline T) (before after : list seltok)
     (lb la : list (diag T)) (B A : GroupResult T) (tb ta : list T),
      c_before con = Some before → c_after con = Some after →
      Constraint_select depth before tml = (lb, Ok (Some B)) →
      Constraint_select depth after tml = (la, Ok (Some A)) →
      gr_times B = VNum <$> tb → tb ≠ [] →
      gr_times A = VNum <$> ta → ta ≠ [] →
      ∃ m n log,
        is_max m tb ∧ is_min n ta ∧
        Constraint_verify depth con tml =
          (log, Ok (if c_strict con
                    then num_ltb m (num_add n (c_offset con))
                    else num_leb m (num_add n (c_offset con))))) ∧
  Constraint_verify 1 (con_AB false) tml_AB = ([], Ok true) ∧
  (Constraint_verify 1 (con_AB true) tml_AB).2 = Ok false.
Proof.
  split; [|by vm_compute].
  intros T R O. apply verify_semantics.
Qed.

(** Range B ends at 20 and Range A starts at 0: with offset 25 the strict
    constraint B.end < A.start + 25 holds. *)
Lemma C1_verify_semantics_witness :
  ∃ log,
    Constraint_verify 1
      (MkConstraint None (Some [SStr "B"; SStr "end"]) (Some [SStr "A"]) 25%Z
         true) tml_AB
    = (log, Ok true).
Proof.
  destruct (proj1 C1_verify_semantics Z _ _ 1
    (MkConstraint None (Some [SStr "B"; SStr "end"]) (Some [SStr "A"]) 25%Z
       true) tml_AB [SStr "B"; SStr "end"] [SStr "A"] [] []
    (MkGroupResult (Some (SStr "B")) [VNum 20%Z])
    (MkGroupResult (Some (SStr "A")) [VNum 0%Z]) [20%Z] [0%Z]
    eq_refl eq_refl eq_refl eq_refl eq_refl ltac:(done) eq_refl ltac:(done))
    as (m & n & log & Hm & Hn & Hv).
  exists log. rewrite Hv. f_equal. f_equal. simpl.
  destruct Hm as [Hm%list_elem_of_singleton _].
  destruct Hn as [Hn%list_elem_of_singleton _]. by subst.
Defined.

(** * Properties of linking *)

Section LinkFacts.
Context {T : Type} `{!PyRuntime T}.
Implicit Types (self tml : Timeline T) (rg : Range T) (ev : Event T).

(** ** Resolution of names *)

Lemma resolve_keys (r : refs) tml1 tml2 :
  (ranges tml1).*1 = (ranges tml2).*1 → resolve r tml1 = resolve r tml2.
Proof.
  intros Hkeys. destruct r as [s|s]; simpl; [|done].
  assert (filter (λ nm, is_Some (dict_get nm (ranges tml1))) s
          = filter (λ nm, is_Some (dict_get nm (ranges tml2))) s) as ->; [|done].
  apply set_eq. intros nm. rewrite !elem_of_filter, !dict_get_is_Some.
  by rewrite Hkeys.
Qed.

Lemma resolve_is_Objs (r : refs) tml : ∃ s, (resolve r tml).1 = Objs s.
Proof. destruct r; simpl; eauto. Qed.

Lemma resolve_Objs (s : gset string) tml : (resolve (Objs s) tml).1 = Objs ∅.
Proof. done. Qed.

Lemma resolve_found (r : refs) tml nm :
  nm ∈ refs_set (resolve r tml).1 → is_Some (dict_get nm (ranges tml)).
Proof.
  destruct r as [s|s]; simpl; [|by intros ?%not_elem_of_empty].
  by intros [? _]%elem_of_filter.
Qed.

Lemma linked_parents_keys tml1 tml2 rg :
  (ranges tml1).*1 = (ranges tml2).*1 →
  linked_parents tml1 rg = linked_parents tml2 rg.
Proof.
  intros Hkeys. unfold linked_parents.
  destruct (rg_cls rg); [done|]. by rewrite (resolve_keys _ _ _ Hkeys).
Qed.

(** ** One range *)

(** The spans a range has once it is linked in [tml]. *)
Lemma Range_link_inv rg tml rg' :
  Range_link rg tml = Ok rg' →
  ∃ spans, rg' = with_spans rg spans ∧
    if rg_ambient rg
    then ∃ mnt mxt, Timeline_time_bounds tml = Ok (mnt, mxt) ∧
                    spans = [MkSpan mnt "begin" mxt (Some "end")]
    else spans = rg_spans rg.
Proof.
  unfold Range_link. destruct (rg_ambient rg).
  - destruct (Timeline_time_bounds tml) as [[mnt mxt]|e]; simpl; [|done].
    intros [= <-]. eexists. split; [done|]. eauto.
  - intros [= <-]. exists (rg_spans rg). split; [by destruct rg|done].
Qed.

Lemma link_range_inv rg tml log rg' :
  link_range rg tml = (log, Ok rg') →
  ∃ spans, rg' = with_parents (with_spans rg spans) (linked_parents tml rg) ∧
    if rg_ambient rg
    then ∃ mnt mxt, Timeline_time_bounds tml = Ok (mnt, mxt) ∧
                    spans = [MkSpan mnt "begin" mxt (Some "end")]
    else spans = rg_spans rg.
Proof.
  unfold link_range, linked_parents. destruct (rg_cls rg) eqn:Hcls.
  - intros [Hl _]%lift_Ok_inv.
    destruct (Range_link_inv _ _ _ Hl) as (spans & -> & Hsp).
    exists spans. split; [|done]. by destruct rg.
  - intros (l1 & rg1 & l2 & [Hl _]%lift_Ok_inv & Hk & _)%bind_Ok_inv.
    destruct (Range_link_inv _ _ _ Hl) as (spans & -> & Hsp).
    exists spans. split; [|done]. simpl in Hk.
    destruct (resolve (rg_parents rg) tml) as [parents diff].
    destruct (refs_nonempty diff); simpl in Hk; by injection Hk as _ <-.
Qed.

Lemma link_range_total rg tml :
  is_ok (Range_link rg tml) = true → is_ok (link_range rg tml).2 = true.
Proof.
  unfold link_range. destruct (Range_link rg tml) as [rg1|e]; [|done].
  intros _. destruct (rg_cls rg); [done|]. simpl.
  destruct (resolve (rg_parents rg1) tml) as [parents diff].
  by destruct (refs_nonempty diff).
Qed.

(** ** The loop over the ranges *)

Lemma link_ranges_inv self todo : ∀ done log rgs,
  link_ranges self done todo = (log, Ok rgs) →
  ∃ todo',
    rgs = done ++ todo' ∧
    Forall2 (λ krg krg', ∃ i spans,
               krg' = linked_range (with_ranges self (done ++ todo)) i spans krg
               ∧ (rg_ambient krg.2 = false → spans = rg_spans krg.2))
            todo todo' ∧
    (∀ j krg', todo' !! j = Some krg' → rg_idx krg'.2 = Some (length done + j)).
Proof.
  induction todo as [|[k rg] rest IH]; intros done log rgs; simpl.
  - intros [= <- <-]. exists []. by rewrite app_nil_r.
  - intros (l1 & rg' & l2 & Hrg & Hrest & _)%bind_Ok_inv.
    destruct (link_range_inv _ _ _ _ Hrg) as (spans & -> & Hsp).
    destruct (IH _ _ _ Hrest) as (todo' & -> & Hall & Hidx).
    set (tml := with_ranges self (done ++ (k, rg) :: rest)) in *.
    exists (linked_range tml (length done) spans (k, rg) :: todo').
    split; [by rewrite <-app_assoc|]. split.
    + constructor.
      * exists (length done), spans. split; [done|].
        intros Hamb. simpl in Hamb. by rewrite Hamb in Hsp.
      * eapply Forall2_impl; [exact Hall|].
        intros krg krg' (i & sp & -> & Hsp'). exists i, sp. split; [|done].
        unfold linked_range. do 3 f_equal.
        apply linked_parents_keys. simpl.
        by rewrite <-app_assoc, !fmap_app.
    + intros [|j] krg'; simpl.
      * intros [= <-]. simpl. f_equal. lia.
      * intros Hj. rewrite (Hidx _ _ Hj), length_app. simpl. f_equal. lia.
Qed.

(** ** The events *)

Lemma forget_hanging_add rg pos :
  forget_hanging (add_hanging rg pos) = forget_hanging rg.
Proof. done. Qed.

Lemma dict_set_forget (k : string) rg pos (d : list (string * Range T)) :
  dict_get k d = Some rg →
  prod_map id forget_hanging <$> dict_set k (add_hanging rg pos) d
  = prod_map id forget_hanging <$> d.
Proof.
  induction d as [|[k' rg'] d IH]; simpl; [done|].
  case_bool_decide.
  - intros [= ->]. subst k'. by rewrite !fmap_cons.
  - intros Hd. rewrite !fmap_cons. f_equal. auto.
Qed.

Lemma forget_keys (d1 d2 : list (string * Range T)) :
  prod_map id forget_hanging <$> d1 = prod_map id forget_hanging <$> d2 →
  d1.*1 = d2.*1.
Proof.
  intros H. apply (f_equal (fmap fst)) in H.
  rewrite <-!list_fmap_compose in H.
  by rewrite (list_fmap_ext _ fst d1), (list_fmap_ext _ fst d2) in H
    by (by intros ? []).
Qed.

Lemma ref_objects_spec (r : refs) (rgs : list (string * Range T)) k rg :
  (k, rg) ∈ ref_objects r rgs → dict_get k rgs = Some rg.
Proof.
  destruct r as [s|s]; simpl; [by intros ?%elem_of_nil|].
  intros (k' & _ & Hk)%list_elem_of_omap.
  destruct (dict_get k' rgs) eqn:E; simpl in Hk; [|done].
  by injection Hk as -> ->.
Qed.

Lemma ref_objects_nonempty (s : gset string) (rgs : list (string * Range T)) :
  s ≠ ∅ → (∀ nm, nm ∈ s → is_Some (dict_get nm rgs)) →
  ref_objects (Objs s) rgs ≠ [].
Proof.
  intros Hne Hall. simpl.
  destruct (elements s) as [|nm l] eqn:Hel.
  { by apply elements_empty_inv, leibniz_equiv in Hel. }
  destruct (Hall nm) as [rg Hrg].
  { apply elem_of_elements. rewrite Hel. by left. }
  simpl. by rewrite Hrg.
Qed.

Lemma all_indexed_forget (d1 d2 : list (string * Range T)) :
  prod_map id forget_hanging <$> d1 = prod_map id forget_hanging <$> d2 →
  all_indexed d1 → all_indexed d2.
Proof.
  intros H. apply (f_equal (fmap (λ krg, rg_idx krg.2))) in H.
  rewrite <-!list_fmap_compose in H.
  unfold all_indexed.
  rewrite <-(Forall_fmap (λ krg, rg_idx krg.2) is_Some d1),
    <-(Forall_fmap (λ krg, rg_idx krg.2) is_Some d2).
  assert (∀ d : list (string * Range T),
            (λ krg, rg_idx krg.2) ∘ prod_map id forget_hanging <$> d
            = (λ krg, rg_idx krg.2) <$> d) as E.
  { intros d. apply list_fmap_ext. by intros ? []. }
  rewrite !E in H. by rewrite H.
Qed.

Lemma Event_link_spec ev pos tml :
  all_indexed (ranges tml) →
  ∃ log rgs,
    Event_link ev pos tml
      = (log, Ok (with_refs ev (resolve (ev_from_rg ev) tml).1
                               (resolve (ev_with_rg ev) tml).1, rgs)) ∧
    prod_map id forget_hanging <$> rgs
      = prod_map id forget_hanging <$> ranges tml.
Proof.
  intros Hidx. unfold Event_link.
  pose proof (resolve_found (ev_with_rg ev) tml) as Hfound.
  destruct (resolve (ev_from_rg ev) tml) as [from_rg dfrom].
  destruct (resolve (ev_with_rg ev) tml) as [with_rg dwith] eqn:Hw.
  simpl in *.
  set (w1 := if refs_nonempty dfrom
             then warn (WLinkFailed "from_rg" dfrom) else mret ()).
  set (w2 := if refs_nonempty dwith
             then warn (WLinkFailed "with_rg" dwith) else mret ()).
  assert (∃ l1, w1 = (l1, Ok ())) as [l1 ->]
    by (unfold w1; destruct (refs_nonempty dfrom); eauto).
  assert (∃ l2, w2 = (l2, Ok ())) as [l2 ->]
    by (unfold w2; destruct (refs_nonempty dwith); eauto).
  unfold refs_nonempty. case_bool_decide as Hne; simpl.
  - destruct (resolve_is_Objs (ev_with_rg ev) tml) as [s Hs].
    rewrite Hw in Hs. simpl in Hs. subst with_rg. simpl in Hne, Hfound.
    assert (is_ok (py_sorted rg_idx_lt (ref_objects (Objs s) (ranges tml)))
            = true) as Hok.
    { apply py_sorted_total. intros [k1 r1] [k2 r2] H1 H2.
      apply ref_objects_spec, dict_get_elem_of in H1, H2.
      unfold all_indexed in Hidx. rewrite Forall_forall in Hidx.
      destruct (Hidx _ H1) as [i1 Hi1], (Hidx _ H2) as [i2 Hi2].
      unfold rg_idx_lt. simpl in *. by rewrite Hi1, Hi2. }
    destruct (py_sorted rg_idx_lt _) as [by_idx|e] eqn:Hs; [|done]. simpl.
    pose proof (py_sorted_perm _ _ _ Hs) as Hperm.
    destruct (last by_idx) as [[k rg]|] eqn:Hlast.
    + simpl. eexists _, _. split; [by rewrite !app_nil_r|].
      apply dict_set_forget, (ref_objects_spec (Objs s)).
      rewrite <-Hperm. by eapply last_Some_elem_of.
    + apply last_None in Hlast. subst by_idx.
      apply Permutation_nil_l in Hperm.
      by destruct (ref_objects_nonempty s (ranges tml)).
  - eexists _, _. split; [by rewrite !app_nil_r|done].
Qed.

Lemma link_events_spec todo : ∀ self done,
  all_indexed (ranges self) →
  ∃ log self',
    link_events self done todo = (log, Ok self') ∧
    events self' =
      done ++ ((λ ev, with_refs ev (resolve (ev_from_rg ev) self).1
                                   (resolve (ev_with_rg ev) self).1) <$> todo) ∧
    prod_map id forget_hanging <$> ranges self'
      = prod_map id forget_hanging <$> ranges self ∧
    constraints self' = constraints self ∧ groups self' = groups self.
Proof.
  induction todo as [|ev rest IH]; intros self done Hidx; simpl.
  - eexists _, _. split; [done|]. by rewrite app_nil_r.
  - destruct (Event_link_spec ev (length done) self Hidx)
      as (l1 & rgs & -> & Hrgs).
    destruct (IH (with_ranges self rgs)
                (done ++ [with_refs ev (resolve (ev_from_rg ev) self).1
                                       (resolve (ev_with_rg ev) self).1]))
      as (l2 & self' & Hrest & Hev & Hfor & Hcon & Hgrp).
    { eapply all_indexed_forget; [symmetry; exact Hrgs|done]. }
    simpl. rewrite Hrest. eexists _, _. split; [done|].
    rewrite Hev, Hfor, Hcon, Hgrp. simpl.
    split; [|done]. rewrite <-app_assoc. simpl. do 2 f_equal.
    apply list_fmap_ext. intros _ ev' _.
    by rewrite !(resolve_keys _ (with_ranges self rgs) self)
      by (simpl; by apply forget_keys).
Qed.

Lemma number_universal_fmap {B} (f : Event T → B) (evs : list (Event T)) :
  (∀ ev i, f (with_ev_idx ev i) = f ev) →
  ∀ idx, f <$> (number_universal idx evs).1 = f <$> evs.
Proof.
  intros Hf. induction evs as [|ev rest IH]; intros idx; simpl; [done|].
  destruct (Event_is_universal ev).
  - specialize (IH (S idx)). destruct (number_universal (S idx) rest).
    simpl. rewrite Hf. f_equal. exact IH.
  - specialize (IH idx). destruct (number_universal idx rest).
    simpl. f_equal. exact IH.
Qed.

(** ** The synthesized constraints *)

Lemma parent_constraints_linked rg :
  (rg_cls rg = ClsCharacter → ∃ s, rg_parents rg = Objs s) →
  parent_constraints rg = Ok (parent_pairs rg).
Proof.
  unfold parent_constraints, parent_pairs.
  destruct (rg_cls rg); [done|]. intros [s ->]; done.
Qed.

Lemma all_parent_constraints_linked (rgs : list (string * Range T)) :
  chars_linked rgs →
  all_parent_constraints rgs = Ok (flat_map (λ krg, parent_pairs krg.2) rgs).
Proof.
  induction 1 as [|[k rg] rgs Hrg _ IH]; simpl; [done|].
  by rewrite (parent_constraints_linked rg Hrg), IH.
Qed.

Lemma parent_pairs_forget rg : parent_pairs (forget_hanging rg) = parent_pairs rg.
Proof. done. Qed.

Lemma flat_map_parent_pairs_forget (d1 d2 : list (string * Range T)) :
  prod_map id forget_hanging <$> d1 = prod_map id forget_hanging <$> d2 →
  flat_map (λ krg, parent_pairs krg.2) d1
  = flat_map (λ krg, parent_pairs krg.2) d2.
Proof.
  intros H.
  apply (f_equal (flat_map (λ krg : string * Range T, parent_pairs krg.2))) in H.
  assert (∀ d : list (string * Range T),
            flat_map (λ krg, parent_pairs krg.2)
              (prod_map id forget_hanging <$> d)
            = flat_map (λ krg, parent_pairs krg.2) d) as E.
  { intros d. induction d as [|[k rg] d IH]; [done|].
    rewrite fmap_cons. simpl. f_equal. exact IH. }
  by rewrite !E in H.
Qed.

Lemma chars_linked_forget (d1 d2 : list (string * Range T)) :
  prod_map id forget_hanging <$> d1 = prod_map id forget_hanging <$> d2 →
  chars_linked d1 → chars_linked d2.
Proof.
  intros H.
  apply (f_equal (fmap (λ krg : string * Range T,
                          (rg_cls krg.2, rg_parents krg.2)))) in H.
  rewrite <-!list_fmap_compose in H.
  assert (∀ d : list (string * Range T),
            (λ krg, (rg_cls krg.2, rg_parents krg.2))
              ∘ prod_map id forget_hanging <$> d
            = (λ krg, (rg_cls krg.2, rg_parents krg.2)) <$> d) as E.
  { intros d. apply list_fmap_ext. by intros ? []. }
  rewrite !E in H. clear E. unfold chars_linked.
  rewrite <-(Forall_fmap (λ krg, (rg_cls krg.2, rg_parents krg.2))
              (λ cp, cp.1 = ClsCharacter → ∃ s, cp.2 = Objs s) d1),
    <-(Forall_fmap (λ krg, (rg_cls krg.2, rg_parents krg.2))
              (λ cp, cp.1 = ClsCharacter → ∃ s, cp.2 = Objs s) d2).
  by rewrite H.
Qed.

Lemma linked_ranges_facts self (rgs0 rgs : list (string * Range T)) :
  Forall2 (λ krg krg', ∃ i spans,
             krg' = linked_range (with_ranges self rgs0) i spans krg
             ∧ (rg_ambient krg.2 = false → spans = rg_spans krg.2))
          rgs0 rgs →
  chars_linked rgs ∧
  flat_map (λ krg, parent_pairs krg.2) rgs
    = flat_map (λ krg, synthesized (with_ranges self rgs0) krg.2) rgs0 ∧
  rgs.*1 = rgs0.*1.
Proof.
  generalize (with_ranges self rgs0). intros tml.
  induction 1 as [|[k rg] krg' l l' (i & spans & -> & _) _ (IH1 & IH2 & IH3)];
    [by repeat split; try constructor|].
  split; [|split].
  - constructor; [|done]. simpl. intros Hcls. unfold linked_parents.
    rewrite Hcls. apply resolve_is_Objs.
  - simpl. rewrite IH2. f_equal.
    unfold parent_pairs, synthesized, linked_parents. simpl.
    by destruct (rg_cls rg).
  - rewrite !fmap_cons. by rewrite IH3.
Qed.

Lemma synthesized_keys tml1 tml2 rg :
  (ranges tml1).*1 = (ranges tml2).*1 → synthesized tml1 rg = synthesized tml2 rg.
Proof.
  intros Hkeys. unfold synthesized. by rewrite (resolve_keys _ _ _ Hkeys).
Qed.

Lemma valid_events_sort (evs : list (Event T)) :
  is_ok (py_sorted ev_time_lt (filter (λ ev, Event_is_valid ev) evs)) = true.
Proof.
  apply py_sorted_total.
  intros x y [Hx _]%list_elem_of_filter [Hy _]%list_elem_of_filter.
  apply bool_decide_unpack in Hx as [tx Hx], Hy as [ty Hy].
  unfold ev_time_lt, time_val. by rewrite Hx, Hy.
Qed.

(** ** The whole of [Timeline.link] *)

(** Linking can only raise in the loop over the ranges; when that loop
    returns, this is the linked Timeline. *)
Lemma Timeline_link_after_ranges self l1 rgs :
  link_ranges self [] (ranges self) = (l1, Ok rgs) →
  ∃ log self' evs,
    Timeline_link self = (log, Ok self') ∧
    py_sorted ev_time_lt (filter (λ ev, Event_is_valid ev) (events self))
      = Ok evs ∧
    prod_map id forget_hanging <$> ranges self'
      = prod_map id forget_hanging <$> rgs ∧
    (∀ B (f : Event T → B), (∀ ev i, f (with_ev_idx ev i) = f ev) →
       f <$> events self' = f ∘ ev_linked self <$> evs) ∧
    constraints self'
      = constraints self ++ flat_map (λ krg, synthesized self krg.2) (ranges self) ∧
    groups self' = groups self ∧
    log = l1 ++ (if bool_decide (length evs ≠ length (events self))
                 then [WCulled (length (events self) - length evs)]
                 else [])
             ++ (link_events (with_events (with_ranges self rgs) evs) [] evs).1.
Proof.
  intros Hrgs.
  destruct (link_ranges_inv _ _ _ _ _ Hrgs) as (rgs' & Heq & Hall & Hidx).
  simpl in Heq. subst rgs'. simpl in Hall.
  destruct (linked_ranges_facts _ _ _ Hall) as (Hchars & Hpairs & Hkeys).
  assert (all_indexed rgs) as Hindexed.
  { apply Forall_forall. intros krg (j & Hj)%list_elem_of_lookup.
    rewrite (Hidx _ _ Hj). eauto. }
  pose proof (valid_events_sort (events self)) as Hsort.
  destruct (py_sorted ev_time_lt _) as [evs|e] eqn:Hevs; [|done].
  destruct (link_events_spec evs (with_events (with_ranges self rgs) evs) []
              Hindexed) as (l2 & self2 & Hle & Hev2 & Hfor & Hcon & Hgrp).
  destruct (number_universal 0 (reverse (events self2))) as [revs idx] eqn:Hnum.
  pose proof (all_parent_constraints_linked (ranges self2)) as Hcs.
  rewrite (flat_map_parent_pairs_forget _ _ Hfor) in Hcs. simpl in Hcs.
  rewrite Hpairs in Hcs.
  assert (chars_linked (ranges self2)) as Hchars2
    by (eapply chars_linked_forget; [symmetry; exact Hfor|done]).
  specialize (Hcs Hchars2).
  exists (l1 ++ (if bool_decide (length evs ≠ length (events self))
                 then [WCulled (length (events self) - length evs)] else [])
             ++ l2).
  eexists _, evs. split; [|split; [done|]].
  - unfold Timeline_link. rewrite Hrgs. simpl. rewrite Hevs. simpl.
    case_bool_decide; simpl; rewrite Hle; simpl; rewrite Hnum, Hcs; simpl;
      by rewrite ?app_nil_r.
  - simpl. split; [exact Hfor|]. split; [|split].
    + intros B f Hf.
      rewrite fmap_reverse.
      pose proof (number_universal_fmap f (reverse (events self2)) Hf 0) as Hn.
      rewrite Hnum in Hn. simpl in Hn. rewrite Hn, fmap_reverse, reverse_involutive.
      rewrite Hev2. simpl. rewrite list_fmap_compose. f_equal.
      apply list_fmap_ext. intros _ ev _. unfold ev_linked.
      by rewrite !(resolve_keys _ (with_events (with_ranges self rgs) evs) self).
    + rewrite Hcon. simpl. by f_equal.
    + split; [by rewrite Hgrp|]. by rewrite Hle.
Qed.

Lemma Timeline_link_ranges_inv self log self' :
  Timeline_link self = (log, Ok self') →
  ∃ l1 rgs, link_ranges self [] (ranges self) = (l1, Ok rgs).
Proof.
  unfold Timeline_link. intros (l1 & rgs & l2 & H & _)%bind_Ok_inv. eauto.
Qed.

(** ** What linking prints *)

Lemma link_range_log rg tml log rg' :
  link_range rg tml = (log, Ok rg') →
  rg_cls rg = ClsCharacter →
  refs_nonempty (unresolved (rg_parents rg) tml) = true →
  WParentsFailed (rg_name rg) (unresolved (rg_parents rg) tml) ∈ log.
Proof.
  unfold link_range, unresolved. intros Hl Hcls Hne. rewrite Hcls in Hl.
  apply bind_Ok_inv in Hl as (l1 & rg1 & l2 & [Hrg ->]%lift_Ok_inv & Hk & ->).
  destruct (Range_link_inv _ _ _ Hrg) as (spans & -> & _). simpl in Hk.
  destruct (resolve (rg_parents rg) tml) as [parents diff]. simpl in Hne.
  rewrite Hne in Hk. simpl in Hk. injection Hk as <- _. by left.
Qed.

Lemma link_ranges_log self todo : ∀ done log rgs,
  link_ranges self done todo = (log, Ok rgs) →
  (done ++ todo).*1 = (ranges self).*1 →
  ∀ krg, krg ∈ todo → rg_cls krg.2 = ClsCharacter →
    refs_nonempty (unresolved (rg_parents krg.2) self) = true →
    WParentsFailed (rg_name krg.2) (unresolved (rg_parents krg.2) self) ∈ log.
Proof.
  unfold unresolved.
  induction todo as [|[k rg] rest IH]; intros done log rgs Hl Hkeys krg Hin;
    [by apply elem_of_nil in Hin|].
  simpl in Hl.
  apply bind_Ok_inv in Hl as (l1 & rg' & l2 & Hrg & Hrest & ->).
  intros Hcls Hne. apply elem_of_app.
  apply elem_of_cons in Hin as [->|Hin].
  - left. simpl in *.
    rewrite <-(resolve_keys _ (with_ranges self (done ++ (k, rg) :: rest)) self)
      in * by done.
    by apply (link_range_log _ _ _ _ Hrg).
  - right. apply (IH _ _ _ Hrest); [|done..].
    rewrite <-Hkeys, <-app_assoc. by rewrite !fmap_app.
Qed.

Lemma Event_link_log ev pos tml :
  (Event_link ev pos tml).1
  = (if refs_nonempty (unresolved (ev_from_rg ev) tml)
     then [WLinkFailed "from_rg" (unresolved (ev_from_rg ev) tml)] else [])
    ++ (if refs_nonempty (unresolved (ev_with_rg ev) tml)
        then [WLinkFailed "with_rg" (unresolved (ev_with_rg ev) tml)] else []).
Proof.
  unfold Event_link, unresolved.
  destruct (resolve (ev_from_rg ev) tml) as [from_rg dfrom].
  destruct (resolve (ev_with_rg ev) tml) as [with_rg dwith]. simpl.
  destruct (refs_nonempty dfrom), (refs_nonempty dwith),
    (refs_nonempty with_rg); simpl;
    try destruct (py_sorted rg_idx_lt _) as [by_idx|e]; simpl;
    try destruct (last by_idx) as [[k rg]|]; done.
Qed.

Lemma link_events_log todo : ∀ self done,
  all_indexed (ranges self) →
  ∀ ev, ev ∈ todo →
    (refs_nonempty (unresolved (ev_from_rg ev) self) = true →
     WLinkFailed "from_rg" (unresolved (ev_from_rg ev) self)
       ∈ (link_events self done todo).1) ∧
    (refs_nonempty (unresolved (ev_with_rg ev) self) = true →
     WLinkFailed "with_rg" (unresolved (ev_with_rg ev) self)
       ∈ (link_events self done todo).1).
Proof.
  induction todo as [|ev0 rest IH]; intros self done Hidx ev Hin;
    [by apply elem_of_nil in Hin|].
  pose proof (Event_link_log ev0 (length done) self) as Hlog.
  destruct (Event_link_spec ev0 (length done) self Hidx)
    as (l1 & rgs & Heq & Hrgs).
  rewrite Heq in Hlog. simpl in Hlog. simpl. rewrite Heq. simpl.
  assert (all_indexed (ranges (with_ranges self rgs))) as Hidx'
    by (eapply all_indexed_forget; [symmetry; exact Hrgs|done]).
  specialize (IH (with_ranges self rgs)
                (done ++ [with_refs ev0 (resolve (ev_from_rg ev0) self).1
                                        (resolve (ev_with_rg ev0) self).1])
                Hidx').
  destruct (link_events _ _ rest) as [l2 r]. simpl in *.
  apply elem_of_cons in Hin as [->|Hin].
  - subst l1. split; intros ->; rewrite !elem_of_app.
    + left. left. by left.
    + left. right. by left.
  - destruct (IH ev Hin) as [IHf IHw]. unfold unresolved in *.
    rewrite !(resolve_keys (ev_from_rg ev) (with_ranges self rgs) self) in IHf
      by (simpl; by apply forget_keys).
    rewrite !(resolve_keys (ev_with_rg ev) (with_ranges self rgs) self) in IHw
      by (simpl; by apply forget_keys).
    split; intros Hne; apply elem_of_app; right; auto.
Qed.

(** Every name that [Timeline.link] cannot resolve is reported: the parent
    names of the characters and the from and with names of the events that
    have a time. *)
Lemma Timeline_link_log self log self' :
  Timeline_link self = (log, Ok self') →
  (∀ krg, krg ∈ ranges self → rg_cls krg.2 = ClsCharacter →
     refs_nonempty (unresolved (rg_parents krg.2) self) = true →
     WParentsFailed (rg_name krg.2) (unresolved (rg_parents krg.2) self)
       ∈ log) ∧
  (∀ ev, ev ∈ events self → Event_is_valid ev = true →
     (refs_nonempty (unresolved (ev_from_rg ev) self) = true →
      WLinkFailed "from_rg" (unresolved (ev_from_rg ev) self) ∈ log) ∧
     (refs_nonempty (unresolved (ev_with_rg ev) self) = true →
      WLinkFailed "with_rg" (unresolved (ev_with_rg ev) self) ∈ log)).
Proof.
  intros Hlink.
  destruct (Timeline_link_ranges_inv _ _ _ Hlink) as (l1 & rgs & Hrgs).
  destruct (Timeline_link_after_ranges _ _ _ Hrgs)
    as (log' & self1 & evs & Hlink' & Hevs & _ & _ & _ & _ & Hlog).
  rewrite Hlink in Hlink'. injection Hlink' as <- <-.
  destruct (link_ranges_inv _ _ _ _ _ Hrgs) as (rgs' & Heq & Hall & Hidx).
  simpl in Heq. subst rgs'. simpl in Hall.
  destruct (linked_ranges_facts _ _ _ Hall) as (_ & _ & Hkeys).
  assert (all_indexed rgs) as Hindexed.
  { apply Forall_forall. intros krg (j & Hj)%list_elem_of_lookup.
    rewrite (Hidx _ _ Hj). eauto. }
  split.
  - intros krg Hin Hcls Hne. rewrite Hlog. apply elem_of_app. left.
    by apply (link_ranges_log _ _ _ _ _ Hrgs).
  - intros ev Hin Hvalid.
    assert (ev ∈ evs) as Hev.
    { rewrite (py_sorted_perm _ _ _ Hevs). apply list_elem_of_filter.
      split; [by rewrite Hvalid|done]. }
    destruct (link_events_log evs (with_events (with_ranges self rgs) evs) []
                Hindexed ev Hev) as [Hf Hw].
    unfold unresolved in *.
    rewrite !(resolve_keys (ev_from_rg ev)
                (with_events (with_ranges self rgs) evs) self) in Hf by done.
    rewrite !(resolve_keys (ev_with_rg ev)
                (with_events (with_ranges self rgs) evs) self) in Hw by done.
    rewrite Hlog.
    split; intros Hne; apply elem_of_app; right; apply elem_of_app; right;
      auto.
Qed.

End LinkFacts.

(** * The constraints synthesized for parents *)

Section SynthesizedFacts.
Context {T : Type} `{!PyRuntime T}.

Lemma synthesized_elem_of (self : Timeline T) (rg : Range T) (c : Constraint T) :
  c ∈ synthesized self rg ↔
  rg_cls rg = ClsCharacter ∧
  ∃ par, par ∈ refs_set (resolve (rg_parents rg) self).1 ∧
         (c = born_after (rg_name rg) par ∨ c = born_predeath (rg_name rg) par).
Proof.
  unfold synthesized. destruct (rg_cls rg).
  - split; [by intros ?%elem_of_nil|by intros [[=] _]].
  - rewrite list_elem_of_In, in_flat_map. split.
    + intros (par & Hpar & Hc). split; [done|]. exists par.
      rewrite <-list_elem_of_In, elem_of_elements in Hpar. split; [done|].
      simpl in Hc. destruct Hc as [<-|[<-|[]]]; auto.
    + intros (_ & par & Hpar & Hc). exists par. split.
      * by rewrite <-list_elem_of_In, elem_of_elements.
      * simpl. destruct Hc as [Hc|Hc]; rewrite Hc; auto.
Qed.

Lemma synthesized_length (self : Timeline T) (rg : Range T) :
  length (synthesized self rg) =
  match rg_cls rg with
  | ClsCharacter => 2 * size (refs_set (resolve (rg_parents rg) self).1)
  | ClsRange => 0
  end.
Proof.
  unfold synthesized, size, set_size. destruct (rg_cls rg); [done|]. simpl.
  induction (elements _) as [|par l IH]; simpl; [done|]. rewrite IH. lia.
Qed.

End SynthesizedFacts.

(** C5 (as amended). Linking adds to the constraint bag, for every Character
    and for each of its parent names that is the name of a range, exactly
    two constraints and nothing else: one with before-selector [parent] and
    after-selector [character], and one with before-selector [character]
    and after-selector [parent, -1, "end"]; both are not strict and have
    offset 0. A Character with [n] resolved parents so gets [2 * n]
    constraints. *)
Theorem C5_parent_constraints :
  (∀ (T : Type) (R : PyRuntime T) (self self' : Timeline T) (log : list (diag T)),
      Timeline_link self = (log, Ok self') →
      constraints self'
        = constraints self
          ++ flat_map (λ krg, synthesized self krg.2) (ranges self)) ∧
  (∀ (T : Type) (R : PyRuntime T) (self : Timeline T) (rg : Range T),
      (∀ c, c ∈ synthesized self rg ↔
            rg_cls rg = ClsCharacter ∧
            ∃ par, par ∈ refs_set (rg_parents rg) ∧
                   is_Some (dict_get par (ranges self)) ∧
                   ∃ parents, rg_parents rg = Names parents ∧
                   (c = born_after (rg_name rg) par ∨
                    c = born_predeath (rg_name rg) par)) ∧
      length (synthesized self rg) =
        match rg_cls rg with
        | ClsCharacter => 2 * size (refs_set (resolve (rg_parents rg) self).1)
        | ClsRange => 0
        end) ∧
  (∀ (T : Type) (R : PyRuntime T) (rg par : string),
      born_after (T:=T) rg par
        = MkConstraint (Some (rg +:+ "_born_after_" +:+ par))
            (Some [SStr par]) (Some [SStr rg]) num_zero false ∧
      born_predeath (T:=T) rg par
        = MkConstraint (Some (rg +:+ "_born_predeath_" +:+ par))
            (Some [SStr rg]) (Some [SStr par; SInt (-1); SStr "end"])
            num_zero false).
Proof.
  split; [|split; [|done]].
  - intros T R self self' log Hlink.
    destruct (Timeline_link_ranges_inv _ _ _ Hlink) as (l1 & rgs & Hrgs).
    destruct (Timeline_link_after_ranges _ _ _ Hrgs)
      as (log' & self'' & evs & Hlink' & _ & _ & _ & Hcon & _).
    rewrite Hlink in Hlink'. by injection Hlink' as _ <-.
  - intros T R self rg. split; [|apply synthesized_length].
    intros c. rewrite synthesized_elem_of.
    destruct (rg_parents rg) as [s|s]; simpl.
    + split.
      * intros (Hcls & par & [Hpar Hs]%elem_of_filter & Hc). eauto 10.
      * intros (Hcls & par & Hs & Hpar & _ & _ & Hc). split; [done|].
        exists par. by rewrite elem_of_filter.
    + split.
      * by intros (_ & par & ?%not_elem_of_empty & _).
      * by intros (_ & par & _ & _ & ? & [=] & _).
Qed.

Lemma C5_parent_constraints_witness :
  ∃ log self',
    Timeline_link tml_kid = (log, Ok self') ∧
    constraints self'
      = constraints tml_kid
        ++ flat_map (λ krg, synthesized tml_kid krg.2) (ranges tml_kid).
Proof.
  destruct (Timeline_link tml_kid) as [log [self'|e]] eqn:Hlink.
  - exists log, self'. split; [done|].
    exact (proj1 C5_parent_constraints Z _ tml_kid self' log Hlink).
  - exfalso. by vm_compute in Hlink.
Defined.

(** C5, the claim as stated fails: the character Kid of [kid_lines] has the
    two parents P1 and P2, both resolved, and linking synthesizes four
    constraints for it, not two. *)
Lemma C5_two_parents_four_constraints :
  (constraints <$> result (Timeline_from_tokens (T:=Z)
                             (tokenize (Some 4%Z) kid_lines))) = Some [] ∧
  (λ tml, c_name <$> constraints tml) <$> result (link_lines kid_lines)
  = Some [Some "Kid_born_after_P1"; Some "Kid_born_predeath_P1";
          Some "Kid_born_after_P2"; Some "Kid_born_predeath_P2"].
Proof. split; vm_compute; reflexivity. Qed.

(** * The time bounds of a Timeline *)

Section BoundsFacts.
Context {T : Type} `{!PyRuntime T}.
Implicit Types (s : list (val T)) (x y v : val T).

Lemma elem_of_set_add x y s : x ∈ set_add y s ↔ x = y ∨ x ∈ s.
Proof.
  unfold set_add. case_bool_decide.
  - split; [auto|]. by intros [->|?].
  - rewrite elem_of_app, list_elem_of_singleton. tauto.
Qed.

Lemma elem_of_time_set (tml : Timeline T) x :
  x ∈ time_set tml ↔ x ∈ all_times (ranges tml) (events tml).
Proof.
  unfold time_set, all_times, span_times.
  assert (∀ (sps : list (Span T)) s,
             x ∈ foldl (λ tms sp, set_add (sp_end sp) (set_add (sp_start sp) tms))
                   s sps
             ↔ x ∈ s ∨ x ∈ flat_map (λ sp, [sp_start sp; sp_end sp]) sps) as Hsp.
  { induction sps as [|sp sps IH]; intros s; simpl.
    - rewrite elem_of_nil. tauto.
    - rewrite IH, !elem_of_set_add, !elem_of_cons. tauto. }
  assert (∀ (rgs : list (string * Range T)) s,
             x ∈ foldl (λ tms '(_, rg),
                     foldl (λ tms sp, set_add (sp_end sp)
                                        (set_add (sp_start sp) tms))
                       tms (rg_spans rg)) s rgs
             ↔ x ∈ s ∨ x ∈ flat_map (λ krg, flat_map
                                   (λ sp, [sp_start sp; sp_end sp])
                                   (rg_spans krg.2)) rgs) as Hrg.
  { induction rgs as [|[k rg] rgs IH]; intros s; simpl.
    - rewrite elem_of_nil. tauto.
    - rewrite IH, Hsp, elem_of_app. tauto. }
  assert (∀ (evs : list (Event T)) s,
             x ∈ foldl (λ tms ev, set_add (time_val ev) tms) s evs
             ↔ x ∈ s ∨ x ∈ time_val <$> evs) as Hev.
  { induction evs as [|ev evs IH]; intros s.
    - simpl. rewrite elem_of_nil. tauto.
    - rewrite fmap_cons. simpl. rewrite IH, elem_of_set_add, elem_of_cons.
      tauto. }
  rewrite Hev, Hrg, elem_of_app, elem_of_nil. tauto.
Qed.

Lemma set_add_NoDup y s : NoDup s → NoDup (set_add y s).
Proof.
  intros Hs. unfold set_add. case_bool_decide; [done|].
  apply NoDup_app. split; [done|]. split; [|apply NoDup_singleton].
  intros x Hx ->%list_elem_of_singleton. done.
Qed.

Lemma time_set_NoDup (tml : Timeline T) : NoDup (time_set tml).
Proof.
  unfold time_set.
  assert (∀ (sps : list (Span T)) s, NoDup s →
             NoDup (foldl (λ tms sp, set_add (sp_end sp)
                                       (set_add (sp_start sp) tms)) s sps))
    as Hsp.
  { induction sps as [|sp sps IH]; intros s Hs; simpl; [done|].
    by apply IH, set_add_NoDup, set_add_NoDup. }
  assert (∀ (rgs : list (string * Range T)) s, NoDup s →
             NoDup (foldl (λ tms '(_, rg),
                     foldl (λ tms sp, set_add (sp_end sp)
                                        (set_add (sp_start sp) tms))
                       tms (rg_spans rg)) s rgs)) as Hrg.
  { induction rgs as [|[k rg] rgs IH]; intros s Hs; simpl; [done|].
    by apply IH, Hsp. }
  assert (∀ (evs : list (Event T)) s, NoDup s →
             NoDup (foldl (λ tms ev, set_add (time_val ev) tms) s evs)) as Hev.
  { induction evs as [|ev evs IH]; intros s Hs; simpl; [done|].
    by apply IH, set_add_NoDup. }
  apply Hev, Hrg, NoDup_nil_2.
Qed.

(** ** [min] and [max] return exactly on uniform sets *)

Lemma uniform_subseteq s s' : uniform s → (∀ x, x ∈ s' → x ∈ s) → uniform s'.
Proof.
  unfold uniform. intros [H|[H|[v H]]] Hsub;
    [left|right; left|right; right; exists v];
    rewrite Forall_forall in *; eauto.
Qed.

Lemma val_lt_Ok_inv x y b :
  val_lt x y = Ok b → (is_num x ∧ is_num y) ∨ (is_str x ∧ is_str y).
Proof.
  unfold is_num, is_str. destruct x, y; simpl; try done; eauto 10.
Qed.

Lemma val_lt_nums x y : is_num x → is_num y → is_ok (val_lt x y) = true.
Proof. by intros [? ->] [? ->]. Qed.

Lemma val_lt_strs x y : is_str x → is_str y → is_ok (val_lt x y) = true.
Proof. by intros [? ->] [? ->]. Qed.

Lemma pick_from_cons flip m x l :
  pick_from flip m (x :: l) =
  (b ← (if flip then val_lt m x else val_lt x m);
   pick_from flip (if b : bool then x else m) l).
Proof. by destruct flip. Qed.

Lemma pick_from_uniform flip (P : val T → Prop) l : ∀ m,
  (∀ x y, P x → P y → is_ok (val_lt x y) = true) →
  P m → Forall P l →
  ∃ r, pick_from flip m l = Ok r ∧ r ∈ m :: l.
Proof.
  intros m HP. revert m.
  induction l as [|x l IH]; intros m Hm Hl.
  - exists m. split; [by destruct flip|by left].
  - inversion Hl as [|?? Hx Hl']; subst. rewrite pick_from_cons.
    assert (∃ b, (if flip then val_lt m x else val_lt x m) = Ok b) as [b ->].
    { destruct flip.
      - pose proof (HP m x Hm Hx). destruct (val_lt m x); [eauto|done].
      - pose proof (HP x m Hx Hm). destruct (val_lt x m); [eauto|done]. }
    simpl. destruct (IH (if b then x else m)) as (r & -> & Hr);
      [by destruct b|done|].
    exists r. split; [done|].
    apply elem_of_cons in Hr as [->|Hr]; [|by do 2 right].
    destruct b; [right; left|left]; done.
Qed.

Lemma pick_from_elem_of flip l : ∀ m r,
  pick_from flip m l = Ok r → r ∈ m :: l.
Proof.
  induction l as [|x l IH]; intros m r.
  - destruct flip; intros [= <-]; by left.
  - rewrite pick_from_cons. intros (b & _ & Hrest)%rbind_Ok_inv.
    apply IH in Hrest as [->|Hr]%elem_of_cons; [|by do 2 right].
    destruct b; [right; left|left]; done.
Qed.

Lemma pick_from_Ok_inv flip l : ∀ m r,
  pick_from flip m l = Ok r →
  Forall is_num (m :: l) ∨ Forall is_str (m :: l) ∨ l = [].
Proof.
  induction l as [|x l IH]; intros m r; [by auto|].
  rewrite pick_from_cons.
  intros (b & Hb & Hrest)%rbind_Ok_inv.
  assert ((is_num m ∧ is_num x) ∨ (is_str m ∧ is_str x)) as Hkind.
  { destruct flip; apply val_lt_Ok_inv in Hb; tauto. }
  apply IH in Hrest as [Hr|[Hr| ->]].
  - left. inversion Hr as [|?? Hh Ht]; subst.
    destruct Hkind as [[? ?]|[[? ->] [? ->]]].
    + by repeat constructor.
    + destruct b; by destruct Hh.
  - right; left. inversion Hr as [|?? Hh Ht]; subst.
    destruct Hkind as [[[? ->] [? ->]]|[? ?]].
    + destruct b; by destruct Hh.
    + by repeat constructor.
  - destruct Hkind as [[? ?]|[? ?]]; [left|right; left]; by repeat constructor.
Qed.

Lemma min_max_uniform s :
  NoDup s → s ≠ [] → uniform s →
  ∃ mn mx, py_min s = Ok mn ∧ py_max s = Ok mx ∧ mn ∈ s ∧ mx ∈ s.
Proof.
  intros Hnd Hne Hun. destruct s as [|m l]; [done|]. simpl.
  assert (∀ flip, ∃ r, pick_from flip m l = Ok r ∧ r ∈ m :: l) as Hpick.
  { intros flip. destruct Hun as [H|[H|[v H]]].
    - inversion H; subst. eapply pick_from_uniform; eauto using val_lt_nums.
    - inversion H; subst. eapply pick_from_uniform; eauto using val_lt_strs.
    - destruct l as [|x l].
      + exists m. split; [by destruct flip|by left].
      + inversion H as [|?? -> H']; subst. inversion H' as [|?? -> _]; subst.
        apply NoDup_cons in Hnd as [Hnd _]. by destruct Hnd; left. }
  destruct (Hpick false) as (mn & Hmn & ?), (Hpick true) as (mx & Hmx & ?).
  by exists mn, mx.
Qed.

Lemma py_min_uniform s mn : py_min s = Ok mn → uniform s.
Proof.
  destruct s as [|m l]; [done|]. simpl.
  intros [H|[H| ->]]%(pick_from_Ok_inv false); [by left|by right; left|].
  right; right. exists m. by repeat constructor.
Qed.

Lemma time_bounds_Ok_inv (tml : Timeline T) mnt mxt :
  Timeline_time_bounds tml = Ok (mnt, mxt) →
  uniform (all_times (ranges tml) (events tml)) ∧
  mnt ∈ all_times (ranges tml) (events tml) ∧
  mxt ∈ all_times (ranges tml) (events tml).
Proof.
  unfold Timeline_time_bounds.
  intros (mn & Hmin & (mx & Hmax & [= <- <-])%rbind_Ok_inv)%rbind_Ok_inv.
  pose proof (py_min_uniform _ _ Hmin) as Hun.
  split.
  { eapply uniform_subseteq; [exact Hun|]. intros x. by rewrite elem_of_time_set. }
  destruct (time_set tml) as [|m l] eqn:Hts; [done|].
  apply (pick_from_elem_of false) in Hmin.
  apply (pick_from_elem_of true) in Hmax.
  rewrite <-Hts, elem_of_time_set in Hmin, Hmax. done.
Qed.

Lemma time_bounds_uniform (tml : Timeline T) :
  all_times (ranges tml) (events tml) ≠ [] →
  uniform (all_times (ranges tml) (events tml)) →
  ∃ mnt mxt, Timeline_time_bounds tml = Ok (mnt, mxt).
Proof.
  intros Hne Hun.
  destruct (min_max_uniform (time_set tml)) as (mn & mx & Hmin & Hmax & _).
  - apply time_set_NoDup.
  - destruct (all_times _ _) as [|x l] eqn:E; [done|].
    assert (x ∈ time_set tml) as Hx by (rewrite elem_of_time_set, E; by left).
    intros Hnil. rewrite Hnil in Hx. by apply elem_of_nil in Hx.
  - eapply uniform_subseteq; [exact Hun|]. intros x. by rewrite elem_of_time_set.
  - exists mn, mx. unfold Timeline_time_bounds. by rewrite Hmin, Hmax.
Qed.

End BoundsFacts.

(** * Sorting by a key *)

Section KeySortFacts.
Context {T : Type} `{!PyRuntime T} {A : Type} (key : A → val T).

Lemma py_sorted_already (l : list A) :
  keys_sorted (key <$> l) →
  py_sorted (λ a b, val_lt (key a) (key b)) l = Ok l.
Proof.
  induction l as [|x xs IH]; [done|].
  rewrite fmap_cons. intros [Hxs Hx]%StronglySorted_inv.
  simpl. rewrite (IH Hxs). simpl.
  destruct xs as [|y ys]; [done|].
  rewrite fmap_cons in Hx. apply Forall_cons in Hx as [Hy _].
  simpl. by rewrite Hy.
Qed.

Context `{!PyOrder T}.

Lemma sorted_insert_keys_sorted (x : A) (l : list A) :
  is_num (key x) → Forall (λ a, is_num (key a)) l →
  keys_sorted (key <$> l) →
  ∃ l', sorted_insert (λ a b, val_lt (key a) (key b)) x l = Ok l' ∧
        keys_sorted (key <$> l') ∧ l' ≡ₚ x :: l.
Proof.
  intros [kx Hkx]. induction l as [|y ys IH]; intros Hnum Hsorted.
  - exists [x]. repeat split; [|done]. repeat constructor.
  - apply Forall_cons in Hnum as [[ky Hky] Hnum].
    rewrite fmap_cons in Hsorted.
    apply StronglySorted_inv in Hsorted as [Hys Hy].
    simpl. rewrite Hky, Hkx. simpl. destruct (num_ltb ky kx) eqn:Hlt.
    + destruct (IH Hnum Hys) as (l1 & -> & Hl1 & Hperm). simpl.
      exists (y :: l1). split; [done|]. split.
      * rewrite fmap_cons. constructor; [done|].
        rewrite Hperm, fmap_cons. constructor; [|done].
        rewrite Hky, Hkx. simpl. by rewrite (num_lt_asym _ _ Hlt).
      * rewrite Hperm. apply Permutation_swap.
    + exists (x :: y :: ys). split; [done|]. split; [|done].
      rewrite !fmap_cons. constructor.
      * rewrite <-fmap_cons. by constructor.
      * constructor; [by rewrite Hky, Hkx; simpl; rewrite Hlt|].
        rewrite Forall_fmap in Hy |- *. rewrite Forall_forall in Hy, Hnum |- *.
        intros z Hz. destruct (Hnum z Hz) as [kz Hkz].
        specialize (Hy z Hz). simpl in *. rewrite Hkz, Hky in Hy.
        rewrite Hkz, Hkx. simpl in *. injection Hy as Hy.
        by rewrite (num_lt_negtrans _ _ _ Hy Hlt).
Qed.

Lemma py_sorted_keys_sorted (l : list A) :
  Forall (λ a, is_num (key a)) l →
  ∃ l', py_sorted (λ a b, val_lt (key a) (key b)) l = Ok l' ∧
        keys_sorted (key <$> l') ∧ l' ≡ₚ l.
Proof.
  induction l as [|x xs IH]; intros Hnum.
  - exists []. repeat split; [|done]. constructor.
  - apply Forall_cons in Hnum as [Hx Hnum].
    destruct (IH Hnum) as (l1 & Hl1 & Hs1 & Hp1).
    destruct (sorted_insert_keys_sorted x l1) as (l' & Hl' & Hs' & Hp');
      [done|by rewrite Hp1|done|].
    exists l'. simpl. rewrite Hl1. simpl. split; [done|]. split; [done|].
    by rewrite Hp', Hp1.
Qed.

End KeySortFacts.

(** * Linking a second time *)

Section RelinkFacts.
Context {T : Type} `{!PyRuntime T}.
Implicit Types (self tml : Timeline T) (rg : Range T) (ev : Event T).

Lemma span_times_app (l1 l2 : list (string * Range T)) :
  span_times (l1 ++ l2) = span_times l1 ++ span_times l2.
Proof. unfold span_times. by rewrite flat_map_app. Qed.

Lemma span_times_forget (d1 d2 : list (string * Range T)) :
  prod_map id forget_hanging <$> d1 = prod_map id forget_hanging <$> d2 →
  span_times d1 = span_times d2.
Proof.
  intros H. apply (f_equal span_times) in H.
  assert (∀ d : list (string * Range T),
            span_times (prod_map id forget_hanging <$> d) = span_times d) as E.
  { intros d. induction d as [|[k rg] d IH]; [done|].
    rewrite fmap_cons. unfold span_times in *. simpl. f_equal. exact IH. }
  by rewrite !E in H.
Qed.

Lemma span_times_cons k rg (l : list (string * Range T)) :
  span_times ((k, rg) :: l) = rg_times rg ++ span_times l.
Proof. done. Qed.

Lemma elem_of_all_times (rgs : list (string * Range T)) evs x :
  x ∈ all_times rgs evs ↔ x ∈ span_times rgs ∨ x ∈ time_val <$> evs.
Proof. unfold all_times. by rewrite elem_of_app. Qed.

Lemma elem_of_span_times_middle (l1 l2 : list (string * Range T)) k rg x :
  x ∈ span_times (l1 ++ (k, rg) :: l2)
  ↔ x ∈ span_times l1 ∨ x ∈ rg_times rg ∨ x ∈ span_times l2.
Proof. by rewrite span_times_app, span_times_cons, !elem_of_app. Qed.

(** The first run: the loop over the ranges returned. *)
Lemma link_ranges_first self todo : ∀ done log rgs,
  link_ranges self done todo = (log, Ok rgs) →
  ∃ todo',
    rgs = done ++ todo' ∧
    (has_ambient todo → uniform (all_times (done ++ todo) (events self))) ∧
    (∀ x, x ∈ span_times todo' → x ∈ all_times (done ++ todo) (events self)) ∧
    ambient_spanned todo' ∧
    (λ krg, rg_ambient krg.2) <$> todo' = (λ krg, rg_ambient krg.2) <$> todo.
Proof.
  induction todo as [|[k rg] rest IH]; intros done log rgs; simpl.
  - intros [= <- <-]. exists []. rewrite app_nil_r.
    repeat split; try done; [|by intros ? ?%elem_of_nil|constructor].
    by intros (? & ?%elem_of_nil & _).
  - intros (l1 & rg' & l2 & Hrg & Hrest & _)%bind_Ok_inv.
    destruct (link_range_inv _ _ _ _ Hrg) as (spans & -> & Hsp).
    destruct (IH _ _ _ Hrest) as (todo' & -> & Hun & Hsub & Hamb & Hflags).
    clear IH Hrg Hrest. rewrite <-app_assoc in Hun, Hsub. simpl in Hun, Hsub.
    set (rg'' := with_idx (with_parents (with_spans rg spans) _) _) in *.
    assert (rg_times rg'' = flat_map (λ sp, [sp_start sp; sp_end sp]) spans)
      as Htimes by done.
    exists ((k, rg'') :: todo'). split; [by rewrite <-app_assoc|].
    assert (∀ x, x ∈ rg_times rg'' →
                 x ∈ all_times (done ++ (k, rg) :: rest) (events self)) as Hnew.
    { intros x Hx. rewrite Htimes in Hx. destruct (rg_ambient rg).
      - destruct Hsp as (mnt & mxt & (_ & Hmn & Hmx)%time_bounds_Ok_inv & ->).
        simpl in Hx.
        apply elem_of_cons in Hx as [->|Hx]; [done|].
        by apply list_elem_of_singleton in Hx as ->.
      - subst spans. rewrite elem_of_all_times, elem_of_span_times_middle. auto. }
    assert (∀ x, x ∈ all_times (done ++ (k, rg'') :: rest) (events self) →
                 x ∈ all_times (done ++ (k, rg) :: rest) (events self)) as Hstate.
    { intros x. rewrite elem_of_all_times, elem_of_span_times_middle.
      intros [[?|[?|?]]|?]; [|by apply Hnew|..];
        rewrite elem_of_all_times, elem_of_span_times_middle; auto. }
    split; [|split; [|split]].
    + intros (krg & Hin & Hk). destruct (rg_ambient rg) eqn:Hrg.
      * by destruct Hsp as (mnt & mxt & (Hu & _)%time_bounds_Ok_inv & _).
      * subst spans. eapply uniform_subseteq.
        -- apply Hun. exists krg. split; [|done].
           apply elem_of_cons in Hin as [->|?]; [|done]. simpl in Hk. congruence.
        -- intros x. rewrite !elem_of_all_times, !elem_of_span_times_middle.
           by rewrite Htimes.
    + intros x. rewrite span_times_cons, elem_of_app. intros [Hx|Hx].
      * by apply Hnew.
      * by apply Hstate, Hsub.
    + constructor; [|done]. simpl. intros Hrg. rewrite Hrg in Hsp.
      by destruct Hsp as (mnt & mxt & _ & ->).
    + rewrite !fmap_cons. by rewrite Hflags.
Qed.

(** The loop over the ranges returns when the times it can meet form a
    uniform set and every ambient range already has a span. *)
Lemma link_ranges_total self (Ω : list (val T)) todo : ∀ done,
  (∀ x, x ∈ all_times (done ++ todo) (events self) → x ∈ Ω) →
  (has_ambient todo → uniform Ω) →
  ambient_spanned todo →
  ∃ log rgs, link_ranges self done todo = (log, Ok rgs).
Proof.
  induction todo as [|[k rg] rest IH]; intros done Hsub Hun Hamb; simpl.
  - by eexists _, _.
  - apply Forall_cons in Hamb as [Hrg Hamb]. simpl in Hrg.
    set (tml := with_ranges self (done ++ (k, rg) :: rest)).
    assert (∃ rg1, Range_link rg tml = Ok rg1 ∧
                   ∀ x, x ∈ rg_times rg1 → x ∈ Ω) as (rg1 & Hrg1 & Hx1).
    { unfold Range_link. destruct (rg_ambient rg) eqn:Ha.
      - destruct (time_bounds_uniform tml) as (mnt & mxt & Hb).
        + specialize (Hrg eq_refl).
          destruct (rg_spans rg) as [|sp sps] eqn:Hsps; [done|].
          intros Hnil.
          assert (sp_start sp ∈ all_times (ranges tml) (events tml)) as Hin.
          { simpl. rewrite elem_of_all_times, elem_of_span_times_middle.
            left; right; left. unfold rg_times. rewrite Hsps. by left. }
          rewrite Hnil in Hin. by apply elem_of_nil in Hin.
        + eapply uniform_subseteq; [|exact Hsub].
          apply Hun. exists (k, rg). split; [by left|done].
        + rewrite Hb. simpl. eexists. split; [done|].
          apply time_bounds_Ok_inv in Hb as (_ & Hmn & Hmx).
          intros x. unfold rg_times. simpl.
          intros [->|[->|?%elem_of_nil]%elem_of_cons]%elem_of_cons;
            [by apply Hsub..|done].
      - exists rg. split; [done|]. intros x Hx. apply Hsub.
        rewrite elem_of_all_times, elem_of_span_times_middle. auto. }
    pose proof (link_range_total rg tml) as Htot. rewrite Hrg1 in Htot.
    destruct (link_range rg tml) as [l1 [rg'|e]] eqn:Hlr;
      [|by discriminate Htot].
    assert (rg_times rg' = rg_times rg1) as Hspans.
    { unfold link_range in Hlr. rewrite Hrg1 in Hlr.
      destruct (rg_cls rg); simpl in Hlr; [by injection Hlr as _ <-|].
      destruct (resolve (rg_parents rg1) tml) as [ps diff].
      destruct (refs_nonempty diff); simpl in Hlr; by injection Hlr as _ <-. }
    destruct (IH (done ++ [(k, with_idx rg' (length done))]))
      as (l2 & rgs & Hrest).
    + intros x. rewrite <-app_assoc. simpl.
      rewrite elem_of_all_times, elem_of_span_times_middle.
      intros [[?|[Hx|?]]|?].
      * apply Hsub. rewrite elem_of_all_times, elem_of_span_times_middle. auto.
      * apply Hx1. by rewrite <-Hspans.
      * apply Hsub. rewrite elem_of_all_times, elem_of_span_times_middle. auto.
      * apply Hsub. rewrite elem_of_all_times. auto.
    + intros (krg & Hin & Hk). apply Hun. exists krg. split; [by right|done].
    + done.
    + exists (l1 ++ l2), rgs. unfold mbind, writer_bind. by rewrite Hrest.
Qed.

End RelinkFacts.

Section RelinkTheorem.
Context {T : Type} `{!PyRuntime T}.
Implicit Types (self tml : Timeline T) (rg : Range T) (ev : Event T).

Lemma link_ranges_idx self todo : ∀ done log rgs,
  link_ranges self done todo = (log, Ok rgs) →
  (λ krg, (krg.1, rg_idx krg.2)) <$> rgs
  = ((λ krg, (krg.1, rg_idx krg.2)) <$> done)
    ++ imap (λ j k, (k, Some (length done + j))) todo.*1.
Proof.
  induction todo as [|[k rg] rest IH]; intros done log rgs; simpl.
  - intros [= <- <-]. by rewrite app_nil_r.
  - intros (l1 & rg' & l2 & Hrg & Hrest & _)%bind_Ok_inv.
    rewrite (IH _ _ _ Hrest), fmap_app, <-app_assoc. f_equal. simpl.
    rewrite Nat.add_0_r. f_equal. apply imap_ext. intros j x _. simpl.
    rewrite length_app. simpl. do 2 f_equal. lia.
Qed.

Lemma forget_fmap {B} (f : string * Range T → B) (d1 d2 : list (string * Range T)) :
  (∀ krg, f (prod_map id forget_hanging krg) = f krg) →
  prod_map id forget_hanging <$> d1 = prod_map id forget_hanging <$> d2 →
  f <$> d1 = f <$> d2.
Proof.
  intros Hf H. apply (f_equal (fmap f)) in H.
  rewrite <-!list_fmap_compose in H.
  assert (∀ d : list (string * Range T),
            f ∘ prod_map id forget_hanging <$> d = f <$> d) as E.
  { intros d. apply list_fmap_ext. intros _ krg _. apply Hf. }
  by rewrite !E in H.
Qed.

Lemma has_ambient_flags (d1 d2 : list (string * Range T)) :
  (λ krg, rg_ambient krg.2) <$> d1 = (λ krg, rg_ambient krg.2) <$> d2 →
  has_ambient d1 → has_ambient d2.
Proof.
  intros Hflags (krg & Hin & Hamb).
  assert (true ∈ (λ krg : string * Range T, rg_ambient krg.2) <$> d1) as Ht.
  { apply list_elem_of_fmap. by exists krg. }
  rewrite Hflags in Ht. apply list_elem_of_fmap in Ht as (krg' & ? & ?).
  by exists krg'.
Qed.

Lemma ambient_spanned_forget (d1 d2 : list (string * Range T)) :
  prod_map id forget_hanging <$> d1 = prod_map id forget_hanging <$> d2 →
  ambient_spanned d1 → ambient_spanned d2.
Proof.
  intros H.
  apply (forget_fmap (λ krg, (rg_ambient krg.2, rg_spans krg.2))) in H;
    [|by intros []].
  unfold ambient_spanned.
  rewrite <-(Forall_fmap (λ krg, (rg_ambient krg.2, rg_spans krg.2))
              (λ p, p.1 = true → p.2 ≠ []) d1),
    <-(Forall_fmap (λ krg, (rg_ambient krg.2, rg_spans krg.2))
              (λ p, p.1 = true → p.2 ≠ []) d2).
  by rewrite H.
Qed.

Lemma ev_linked_time self ev : time_val (ev_linked self ev) = time_val ev.
Proof. done. Qed.

Lemma filter_valid_all (evs : list (Event T)) :
  Forall (λ ev, is_num (time_val ev)) evs →
  filter (λ ev, Event_is_valid ev) evs = evs.
Proof.
  induction 1 as [|ev evs [x Hx] _ IH]; [done|].
  rewrite filter_cons_True, IH; [done|].
  apply bool_decide_pack. unfold time_val in Hx.
  destruct (ev_time ev); [eauto|done].
Qed.

Lemma valid_is_num (evs : list (Event T)) :
  Forall (λ ev, is_num (time_val ev)) (filter (λ ev, Event_is_valid ev) evs).
Proof.
  apply Forall_forall. intros ev [Hv _]%list_elem_of_filter.
  apply bool_decide_unpack in Hv as [x Hx]. exists x.
  unfold time_val. by rewrite Hx.
Qed.

Context `{!PyOrder T}.

(** C3 (as amended). Linking a second time a Document that linking returned
    raises nothing and changes neither the idx of any Range nor the order or
    the membership of the event sequence; but it replaces every resolved
    parent, from and with set by the empty set, since the Range objects that
    these sets now hold are not names in the range mapping, and it reports
    every such set that was not empty as a failed link. *)
Theorem C3_relink self log1 self1 :
  Timeline_link self = (log1, Ok self1) →
  ∃ log2 self2,
    Timeline_link self1 = (log2, Ok self2) ∧
    (λ krg, (krg.1, rg_idx krg.2)) <$> ranges self2
      = (λ krg, (krg.1, rg_idx krg.2)) <$> ranges self1 ∧
    ev_data <$> events self2 = ev_data <$> events self1 ∧
    Forall (λ krg, rg_cls krg.2 = ClsCharacter → rg_parents krg.2 = Objs ∅)
      (ranges self2) ∧
    Forall (λ ev, ev_from_rg ev = Objs ∅ ∧ ev_with_rg ev = Objs ∅)
      (events self2) ∧
    (∀ krg, krg ∈ ranges self1 → rg_cls krg.2 = ClsCharacter →
       refs_nonempty (rg_parents krg.2) = true →
       WParentsFailed (rg_name krg.2) (rg_parents krg.2) ∈ log2) ∧
    (∀ ev, ev ∈ events self1 →
       (refs_nonempty (ev_from_rg ev) = true →
        WLinkFailed "from_rg" (ev_from_rg ev) ∈ log2) ∧
       (refs_nonempty (ev_with_rg ev) = true →
        WLinkFailed "with_rg" (ev_with_rg ev) ∈ log2)).
Proof.
  intros Hlink.
  destruct (Timeline_link_ranges_inv _ _ _ Hlink) as (l1 & rgs1 & Hrgs1).
  destruct (Timeline_link_after_ranges _ _ _ Hrgs1)
    as (log' & self1' & evs1 & Hlink' & Hevs1 & Hfor1 & Hev1 & _).
  rewrite Hlink in Hlink'. injection Hlink' as _ <-.
  destruct (link_ranges_first _ _ _ _ _ Hrgs1)
    as (todo' & Heq & Hun1 & Hsub1 & Hamb1 & Hflags1).
  simpl in Heq. subst todo'. simpl in Hun1, Hsub1.
  destruct (link_ranges_inv _ _ _ _ _ Hrgs1) as (todo' & Heq & Hall1 & _).
  simpl in Heq. subst todo'. simpl in Hall1.
  destruct (linked_ranges_facts _ _ _ Hall1) as (Hchars1 & _ & Hkeys1).
  (* the events of the first run are in order *)
  destruct (py_sorted_keys_sorted time_val _ (valid_is_num (events self)))
    as (evs1' & Hevs1' & Hsorted1 & Hperm1).
  change (py_sorted ev_time_lt (filter (λ ev, Event_is_valid ev) (events self))
          = Ok evs1') in Hevs1'.
  rewrite Hevs1 in Hevs1'. injection Hevs1' as <-.
  assert (time_val <$> events self1 = time_val <$> evs1) as Htimes.
  { rewrite (Hev1 _ time_val) by done. by apply list_fmap_ext. }
  assert (Forall (λ ev, is_num (time_val ev)) (events self1)) as Hvalid1.
  { apply (proj1 (Forall_fmap time_val is_num (events self1))).
    rewrite Htimes. apply (proj2 (Forall_fmap time_val is_num evs1)).
    unfold compose. rewrite Hperm1. apply valid_is_num. }
  (* the loop over the ranges returns again *)
  destruct (link_ranges_total self1 (all_times (ranges self) (events self))
              (ranges self1) []) as (l2 & rgs2 & Hrgs2).
  { intros x [Hx|Hx]%elem_of_all_times; simpl in Hx.
    - apply Hsub1. by rewrite <-(span_times_forget _ _ Hfor1).
    - rewrite Htimes in Hx. apply elem_of_all_times. right.
      apply list_elem_of_fmap in Hx as (ev & -> & Hev).
      rewrite Hperm1 in Hev. apply list_elem_of_filter in Hev as [_ Hev].
      apply list_elem_of_fmap. eauto. }
  { intros Ha. apply Hun1. eapply has_ambient_flags; [|exact Ha].
    rewrite <-Hflags1. by apply forget_fmap; [intros []|]. }
  { eapply ambient_spanned_forget; [symmetry; exact Hfor1|done]. }
  destruct (Timeline_link_after_ranges _ _ _ Hrgs2)
    as (log2 & self2 & evs2 & Hlink2 & Hevs2 & Hfor2 & Hev2 & _).
  rewrite (filter_valid_all _ Hvalid1) in Hevs2.
  change (py_sorted (λ a b, val_lt (time_val a) (time_val b)) (events self1)
          = Ok evs2) in Hevs2.
  rewrite py_sorted_already in Hevs2 by (by rewrite Htimes).
  injection Hevs2 as <-.
  assert (chars_linked (ranges self1)) as Hchars
    by (eapply chars_linked_forget; [symmetry; exact Hfor1|done]).
  assert (∀ ev, ev ∈ events self1 →
                ∃ s1 s2, ev_from_rg ev = Objs s1 ∧ ev_with_rg ev = Objs s2)
    as Hobjs.
  { intros ev Hin.
    apply (list_elem_of_fmap_2 (λ ev, (ev_from_rg ev, ev_with_rg ev))) in Hin.
    rewrite (Hev1 _ (λ ev, (ev_from_rg ev, ev_with_rg ev))) in Hin by done.
    apply list_elem_of_fmap in Hin as (ev0 & [= -> ->] & _). simpl.
    destruct (resolve_is_Objs (ev_from_rg ev0) self) as [s1 ->].
    destruct (resolve_is_Objs (ev_with_rg ev0) self) as [s2 ->]. eauto. }
  destruct (Timeline_link_log _ _ _ Hlink2) as [Hplog Hevlog].
  exists log2, self2. split; [done|].
  split; [|split; [|split; [|split; [|split]]]].
  - rewrite (forget_fmap (λ krg, (krg.1, rg_idx krg.2)) _ _
               ltac:(by intros []) Hfor2).
    rewrite (forget_fmap (λ krg, (krg.1, rg_idx krg.2)) _ _
               ltac:(by intros []) Hfor1).
    rewrite (link_ranges_idx _ _ _ _ _ Hrgs2), (link_ranges_idx _ _ _ _ _ Hrgs1).
    simpl. f_equal. rewrite <-Hkeys1. by apply forget_keys.
  - rewrite (Hev2 _ ev_data) by done. by apply list_fmap_ext.
  - destruct (link_ranges_inv _ _ _ _ _ Hrgs2) as (todo' & Heq & Hall2 & _).
    simpl in Heq. subst todo'. simpl in Hall2.
    assert (Forall (λ krg, rg_cls krg.2 = ClsCharacter →
                           rg_parents krg.2 = Objs ∅) rgs2) as Hp2.
    { clear -Hall2 Hchars. revert Hchars.
      generalize (with_ranges self1 (ranges self1)). intros tml.
      induction Hall2 as [|[k rg] krg' l l' (i & spans & -> & _) _ IH];
        intros Hchars; [constructor|].
      apply Forall_cons in Hchars as [Hrg Hchars].
      constructor; [|by apply IH]. simpl in *. intros Hcls.
      unfold linked_parents. rewrite Hcls.
      destruct (Hrg Hcls) as [s ->]. done. }
    eapply (Forall_fmap_eq (λ krg, (rg_cls krg.2, rg_parents krg.2))
              (λ p, p.1 = ClsCharacter → p.2 = Objs ∅)); [done| |exact Hp2].
    symmetry. by apply forget_fmap; [intros []|].
  - apply Forall_forall. intros ev Hin.
    apply (list_elem_of_fmap_2 (λ ev, (ev_from_rg ev, ev_with_rg ev))) in Hin.
    rewrite (Hev2 _ (λ ev, (ev_from_rg ev, ev_with_rg ev))) in Hin by done.
    apply list_elem_of_fmap in Hin as (ev0 & [= -> ->] & Hin0). simpl.
    destruct (Hobjs ev0 Hin0) as (s1 & s2 & -> & ->). done.
  - intros krg Hin Hcls Hne.
    unfold chars_linked in Hchars. rewrite Forall_forall in Hchars.
    destruct (Hchars krg Hin Hcls) as [s Hs].
    specialize (Hplog krg Hin Hcls). unfold unresolved in Hplog.
    rewrite Hs in Hplog, Hne |- *. by apply Hplog.
  - intros ev Hin.
    assert (Event_is_valid ev = true) as Hvalid.
    { rewrite Forall_forall in Hvalid1. destruct (Hvalid1 ev Hin) as [x Hx].
      apply bool_decide_eq_true. unfold time_val in Hx.
      destruct (ev_time ev); [eauto|done]. }
    destruct (Hobjs ev Hin) as (s1 & s2 & Hs1 & Hs2).
    destruct (Hevlog ev Hin Hvalid) as [Hf Hw]. unfold unresolved in Hf, Hw.
    rewrite Hs1 in Hf |- *. rewrite Hs2 in Hw |- *. by split.
Qed.

End RelinkTheorem.

(** [family_lines]: the first link drops the event without a time and puts
    the wedding before the birth; the second keeps the indices and the two
    events, and reports the parents of Kid and the from set of the wedding,
    now Range objects, as failed. *)
Lemma C3_relink_witness :
  ∃ log1 self1 log2 self2,
    Timeline_link tml_family = (log1, Ok self1) ∧
    Timeline_link self1 = (log2, Ok self2) ∧
    ev_name <$> events self1 = [Some "wedding"; Some "birth"] ∧
    (λ krg, (krg.1, rg_idx krg.2)) <$> ranges self2
      = [("P1", Some 0); ("P2", Some 1); ("Kid", Some 2)] ∧
    ev_data <$> events self2 = ev_data <$> events self1 ∧
    (∃ ps, elements ps = ["P1"; "P2"] ∧
           WParentsFailed "Kid" (Objs ps) ∈ log2) ∧
    (∃ fs, elements fs = ["P1"] ∧ WLinkFailed "from_rg" (Objs fs) ∈ log2).
Proof.
  destruct (Timeline_link tml_family) as [log1 [self1|e]] eqn:Hlink;
    [|exfalso; vm_compute in Hlink; discriminate Hlink].
  destruct (C3_relink (T:=Z) tml_family log1 self1 Hlink)
    as (log2 & self2 & H2 & Hidx & Hev & _ & _ & Hpar & Hevs).
  pose proof Hlink as Hvalue. vm_compute in Hvalue.
  injection Hvalue as Hlog Hself.
  exists log1, self1, log2, self2.
  split; [reflexivity|]. split; [exact H2|].
  split; [rewrite <-Hself; vm_compute; reflexivity|].
  split; [rewrite Hidx, <-Hself; vm_compute; reflexivity|].
  split; [exact Hev|]. split.
  - assert (∃ krg, ranges self1 !! 2 = Some krg ∧ rg_name krg.2 = "Kid" ∧
                   rg_cls krg.2 = ClsCharacter ∧
                   ∃ ps, rg_parents krg.2 = Objs ps ∧
                         elements ps = ["P1"; "P2"])
      as (krg & Hin & Hname & Hcls & ps & Hps & Hel).
    { rewrite <-Hself. eexists. split; [reflexivity|].
      split; [reflexivity|]. split; [reflexivity|].
      eexists. split; [reflexivity|]. vm_compute. reflexivity. }
    exists ps. split; [exact Hel|]. rewrite <-Hname, <-Hps.
    apply Hpar; [exact (list_elem_of_lookup_2 _ _ _ Hin)|exact Hcls|].
    rewrite Hps. apply bool_decide_eq_true. intros Hemp.
    change (ps = ∅) in Hemp. rewrite Hemp in Hel. vm_compute in Hel. discriminate Hel.
  - assert (∃ ev, events self1 !! 0 = Some ev ∧
                  ∃ fs, ev_from_rg ev = Objs fs ∧ elements fs = ["P1"])
      as (ev & Hin & fs & Hfs & Hel).
    { rewrite <-Hself. eexists. split; [reflexivity|].
      eexists. split; [reflexivity|]. vm_compute. reflexivity. }
    exists fs. split; [exact Hel|]. rewrite <-Hfs.
    apply (Hevs ev (list_elem_of_lookup_2 _ _ _ Hin)).
    rewrite Hfs. apply bool_decide_eq_true. intros Hemp.
    change (fs = ∅) in Hemp. rewrite Hemp in Hel. vm_compute in Hel. discriminate Hel.
Defined.

(** C3, the claim as stated fails: every name of [wedding_lines] resolves
    (linking prints nothing), and linking gives Kid the parents P1 and P2
    and the event the sets from = {P1}, with = {P2}; linking a second time
    leaves all of these sets empty. *)
Lemma C3_second_link_empties_refs :
  (link_lines wedding_lines).1 = [] ∧
  ref_names <$> result (link_lines wedding_lines)
    = Some ([("P1", []); ("P2", []); ("Kid", ["P1"; "P2"])],
            [(["P1"], ["P2"])]) ∧
  ref_names <$> result (relink_lines wedding_lines)
    = Some ([("P1", []); ("P2", []); ("Kid", [])], [([], [])]).
Proof. repeat split; vm_compute; reflexivity. Qed.

(** * What raises and what is only reported *)

Section CheckFacts.
Context {T : Type} `{!PyRuntime T}.
Implicit Types (self tml : Timeline T) (con : Constraint T).



(** A selector that resolves to nothing is reported and fails the
    constraint. *)
Lemma verify_unresolved depth con tml lb la ra :
  select_attr depth (c_before con) tml = (lb, Ok None) →
  select_attr depth (c_after con) tml = (la, Ok ra) →
  Constraint_verify depth con tml
  = (lb ++ la ++ [WSelectorUnresolved (c_before con)], Ok false).
Proof.
  intros Hb Ha. unfold Constraint_verify. rewrite Hb. simpl. by rewrite Ha.
Qed.


(** ** Only [Timeline.check] prints the closing message *)






(** ** Selectors that resolve cleanly *)

Lemma select_unresolved depth k rest tml :
  no_group tml k → no_range tml k → find (ev_named k) (events tml) = None →
  Constraint_select (S depth) (k :: rest) tml = ([], Ok None).
Proof.
  intros Hg Hr Hev. simpl. destruct k as [s|z]; simpl in *.
  - by rewrite Hg, Hr, Hev.
  - by rewrite Hev.
Qed.

Lemma select_event depth k rest tml ev :
  no_group tml k → no_range tml k → find (ev_named k) (events tml) = Some ev →
  Constraint_select (S depth) (k :: rest) tml
  = ([], Ok (Some (MkGroupResult (Some k) [time_val ev]))).
Proof.
  intros Hg Hr Hev. simpl. destruct k as [s|z]; simpl in *.
  - by rewrite Hg, Hr, Hev.
  - by rewrite Hev.
Qed.

Lemma select_range_first depth s tml rg sp :
  groups tml !! Some s = None → dict_get s (ranges tml) = Some rg →
  py_index (rg_spans rg) 0 = Ok sp →
  Constraint_select (S depth) [SStr s] tml
  = ([], Ok (Some (MkGroupResult (Some (SStr s)) [sp_start sp]))).
Proof.
  intros Hg Hr Hsp. simpl. rewrite Hg, Hr. simpl. by rewrite Hsp.
Qed.

(** A span index outside the span list is not reported: it raises. *)
Lemma select_range_bad_index depth s x prop tml rg i :
  groups tml !! Some s = None → dict_get s (ranges tml) = Some rg →
  seltok_int x = Ok i → py_index (rg_spans rg) i = Raise IndexError →
  Constraint_select (S depth) [SStr s; x; prop] tml = ([], Raise IndexError).
Proof.
  intros Hg Hr Hx Hsp. simpl. rewrite Hg, Hr. simpl.
  rewrite Hx. simpl. by rewrite Hsp.
Qed.

(** ** Unknown directive words *)

Lemma unknown_event_directive (inst : Event T) (t cmd : string) args :
  split t = cmd :: args →
  cmd ∉ ["at"; "desc"; "from"; "with"; "class"] →
  Event_directive inst t = ([WUnhandledDirective KEvent (cmd :: args)], Ok inst).
Proof.
  intros Hsplit Hcmd. unfold Event_directive. rewrite Hsplit. simpl.
  repeat (case_bool_decide; [subst cmd; exfalso; apply Hcmd;
                             repeat constructor|]).
  done.
Qed.

Lemma unknown_constraint_directive (inst : Constraint T) (t cmd : string) args :
  split t = cmd :: args →
  cmd ∉ ["before"; "after"; "offset"; "strict"] →
  Constraint_directive inst t
  = ([WUnhandledDirective KConstraint (cmd :: args)], Ok inst).
Proof.
  intros Hsplit Hcmd. unfold Constraint_directive. rewrite Hsplit. simpl.
  repeat (case_bool_decide; [subst cmd; exfalso; apply Hcmd;
                             repeat constructor|]).
  done.
Qed.

End CheckFacts.

(** The diagnostics of [tolerated_lines]: an unknown directive, an unresolved
    parent, an event without a time, an invalid constraint, an unresolved
    selector and a violated constraint are all reported, and the check
    returns [False]. *)
Lemma tolerated_lines_complete :
  ∃ tml log,
    main (T:=Z) 10 (Some 4%Z) tolerated_lines = (log, Ok (tml, false)) ∧
    WUnhandledDirective KEvent ["colour"; "red"] ∈ log ∧
    WParentsFailed "A" (Names {["Nobody"]}) ∈ log ∧
    WCulled 1 ∈ log ∧
    WSelectorUnresolved (Some [SStr "Nobody"]) ∈ log.
Proof.
  destruct (main (T:=Z) 10 (Some 4%Z) tolerated_lines) as [log r] eqn:Hmain.
  vm_compute in Hmain. injection Hmain as <- <-.
  eexists _, _. split; [reflexivity|].
  split_and!; apply list_elem_of_In; vm_compute; tauto.
Qed.

(** * Further properties of the tokenizer *)

Section TokenizerInvariants.

Lemma stack_ok_init : stack_ok (lev_stack tok_init).
Proof. split; [repeat constructor|done]. Qed.

Lemma stack_ok_nonneg stack : stack_ok stack → Forall (λ x, (0 ≤ x)%Z) stack.
Proof.
  intros [Hs Hl]. induction stack as [|a stack IH]; [done|].
  apply StronglySorted_inv in Hs as [Hs Ha].
  destruct stack as [|b stack'].
  - injection Hl as ->. by repeat constructor.
  - specialize (IH Hs Hl). constructor; [|done].
    apply Forall_cons in Ha as [Hb _]. apply Forall_cons in IH as [Hb' _]. lia.
Qed.

Lemma stack_ok_split stack :
  stack_ok stack →
  ∃ popped, stack = popped ++ [0%Z] ∧ Forall (λ x, (0 < x)%Z) popped.
Proof.
  intros [Hs Hl]. induction stack as [|a stack IH]; [done|].
  apply StronglySorted_inv in Hs as [Hs Ha].
  destruct stack as [|b stack'].
  - injection Hl as ->. by exists [].
  - destruct (IH Hs Hl) as (popped & Heq & Hpos). rewrite Heq in *.
    exists (a :: popped). split; [done|]. constructor; [|done].
    apply Forall_app in Ha as [_ Ha]. apply Forall_cons in Ha as [Ha _]. lia.
Qed.

Lemma stack_ok_suffix popped stack :
  stack ≠ [] → stack_ok (popped ++ stack) → stack_ok stack.
Proof.
  intros Hne [Hs Hl]. split.
  - clear Hl. induction popped as [|a popped IH]; [done|].
    simpl in Hs. apply StronglySorted_inv in Hs as [Hs _]. auto.
  - rewrite last_app in Hl. destruct (last stack) eqn:E; [done|].
    by apply last_None in E.
Qed.

Lemma tokenize_line_stack_ok tabs st line out st' :
  tokenize_line tabs st line = (out, Ok st') →
  stack_ok (lev_stack st) → stack_ok (lev_stack st').
Proof.
  unfold tokenize_line.
  destruct (line_level _ _ _) as [[lev ot]|e]; [|done].
  destruct (lev_stack st) as [|top below] eqn:Hst; [done|].
  destruct (Z.ltb_spec top lev).
  { intros [= <- <-] [Hs Hl]. simpl. split; [|done].
    constructor; [done|]. constructor; [lia|].
    apply StronglySorted_inv in Hs as [_ Hb].
    eapply Forall_impl; [exact Hb|]. simpl. lia. }
  destruct (Z.ltb_spec lev top).
  - destruct (pop_levels lev (top :: below)) as [o stack'] eqn:Hpop.
    destruct stack' as [|top' below']; [done|].
    destruct (Z.ltb_spec top' lev); [done|]. intros [= <- <-]. simpl.
    destruct (pop_levels_spec _ _ _ _ Hpop) as (popped & -> & _).
    by apply stack_ok_suffix.
  - by intros [= <- <-].
Qed.

Lemma tokenize_loop_stack_ok tabs lines : ∀ st out st',
  tokenize_loop tabs st lines = (out, Ok st') →
  stack_ok (lev_stack st) → stack_ok (lev_stack st').
Proof.
  induction lines as [|line rest IH]; intros st out st'; simpl.
  - by intros [= <- <-].
  - destruct (tokenize_line tabs st line) as [o [st1|e]] eqn:Hline; [|done].
    destruct (tokenize_loop tabs st1 rest) as [o' r] eqn:Hrest.
    intros [= <- ->] Hok. eapply IH; [done|].
    by eapply tokenize_line_stack_ok.
Qed.

(** ** Nesting *)

Lemma depth_after_app l1 : ∀ d l2,
  depth_after d (l1 ++ l2) = depth_after d l1 ≫= λ d', depth_after d' l2.
Proof.
  induction l1 as [|t l1 IH]; intros d l2; [done|].
  destruct t as [| |s]; simpl; [apply IH| |apply IH].
  destruct d; [done|apply IH].
Qed.

Lemma depth_after_dedents n : ∀ d,
  n ≤ d → depth_after d (replicate n DEDENT) = Some (d - n).
Proof.
  induction n as [|n IH]; intros d Hn; simpl.
  - f_equal. lia.
  - destruct d as [|d]; [lia|]. rewrite IH by lia. done.
Qed.

Lemma balanced_from_depth l : ∀ d,
  balanced_from d l = bool_decide (depth_after d l = Some 0).
Proof.
  induction l as [|t l IH]; intros d; simpl.
  - apply bool_decide_ext. split; [by intros ->|by intros [= ->]].
  - destruct t as [| |s]; [apply IH| |apply IH].
    destruct d; [|apply IH]. by rewrite bool_decide_false.
Qed.

Lemma tokenize_line_depth tabs st line out st' :
  tokenize_line tabs st line = (out, Ok st') →
  depth_after (length (lev_stack st) - 1) out
  = Some (length (lev_stack st') - 1).
Proof.
  unfold tokenize_line.
  destruct (line_level _ _ _) as [[lev ot]|e]; [|done].
  destruct (lev_stack st) as [|top below] eqn:Hst; [done|].
  destruct (Z.ltb_spec top lev).
  { intros [= <- <-]. simpl. by rewrite Nat.sub_0_r. }
  destruct (Z.ltb_spec lev top).
  - destruct (pop_levels lev (top :: below)) as [o stack'] eqn:Hpop.
    destruct stack' as [|top' below']; [done|].
    destruct (Z.ltb_spec top' lev); [done|]. intros [= <- <-].
    destruct (pop_levels_spec _ _ _ _ Hpop) as (popped & Heq & _ & -> & _).
    apply (f_equal length) in Heq. rewrite length_app in Heq. simpl in *.
    rewrite depth_after_app, depth_after_dedents by lia. simpl.
    f_equal. lia.
  - by intros [= <- <-].
Qed.

Lemma tokenize_loop_depth tabs lines : ∀ st out st',
  tokenize_loop tabs st lines = (out, Ok st') →
  depth_after (length (lev_stack st) - 1) out
  = Some (length (lev_stack st') - 1).
Proof.
  induction lines as [|line rest IH]; intros st out st'; simpl.
  - by intros [= <- <-].
  - destruct (tokenize_line tabs st line) as [o [st1|e]] eqn:Hline; [|done].
    destruct (tokenize_loop tabs st1 rest) as [o' r] eqn:Hrest.
    intros [= <- ->]. rewrite depth_after_app.
    rewrite (tokenize_line_depth _ _ _ _ _ Hline). simpl. by apply IH.
Qed.

(** ** The text of the lines *)

Lemma lstrip_LWS_rest line : lstrip (LWS_rest line) = lstrip line.
Proof.
  induction line as [|c line IH]; [done|]. simpl.
  destruct (is_lws c) eqn:Hc; [|done].
  assert (py_isspace c = true) as ->; [|done].
  unfold is_lws in Hc. apply orb_true_iff in Hc as [Hc|Hc];
    apply bool_decide_eq_true in Hc; by subst c.
Qed.

Lemma strip_LWS_rest line : strip (LWS_rest line) = strip line.
Proof. unfold strip. by rewrite lstrip_LWS_rest. Qed.

Lemma omap_text_dedents n : omap token_text (replicate n DEDENT) = [].
Proof. induction n; [done|]. simpl. done. Qed.

Lemma tokenize_line_text tabs st line out st' :
  tokenize_line tabs st line = (out, Ok st') →
  omap token_text out = [strip line].
Proof.
  unfold tokenize_line. rewrite strip_LWS_rest.
  destruct (line_level _ _ _) as [[lev ot]|e]; [|done].
  destruct (lev_stack st) as [|top below] eqn:Hst; [done|].
  destruct (Z.ltb_spec top lev); [by intros [= <- <-]|].
  destruct (Z.ltb_spec lev top); [|by intros [= <- <-]].
  destruct (pop_levels lev (top :: below)) as [o stack'] eqn:Hpop.
  destruct stack' as [|top' below']; [done|].
  destruct (Z.ltb_spec top' lev); [done|]. intros [= <- <-].
  destruct (pop_levels_spec _ _ _ _ Hpop) as (popped & _ & _ & -> & _).
  by rewrite omap_app, omap_text_dedents.
Qed.

Lemma tokenize_loop_text tabs lines : ∀ st out st',
  tokenize_loop tabs st lines = (out, Ok st') →
  omap token_text out = strip <$> lines.
Proof.
  induction lines as [|line rest IH]; intros st out st'; simpl.
  - by intros [= <- <-].
  - destruct (tokenize_line tabs st line) as [o [st1|e]] eqn:Hline; [|done].
    destruct (tokenize_loop tabs st1 rest) as [o' r] eqn:Hrest.
    intros [= <- ->].
    rewrite omap_app, (tokenize_line_text _ _ _ _ _ Hline).
    change (strip line :: omap token_text o' = strip line :: (strip <$> rest)).
    f_equal. by eapply IH.
Qed.

(** X1. The tokens of a run that raises nothing are well nested: no DEDENT
    closes a block that no INDENT opened, and at the end of the stream
    every block is closed. *)
Theorem X1_tokens_well_nested tabs lines out stack :
  tokenize_run tabs lines = (out, Ok stack) →
  balanced_from 0 out = true.
Proof.
  unfold tokenize_run.
  destruct (tokenize_loop tabs tok_init lines) as [body [st|e]] eqn:Hrun;
    [|done].
  rewrite close_blocks_spec. intros [= <- <-].
  rewrite balanced_from_depth, depth_after_app.
  rewrite (tokenize_loop_depth _ _ _ _ _ Hrun : depth_after 0 body = _).
  simpl. rewrite depth_after_dedents by lia.
  apply bool_decide_eq_true. f_equal. lia.
Qed.

(** X2. After any number of lines read without an error, the stack of open
    levels is strictly increasing from its base, and the base is 0; so
    every open level but the base is positive. *)
Theorem X2_level_stack_increasing tabs lines out st :
  tokenize_loop tabs tok_init lines = (out, Ok st) →
  stack_ok (lev_stack st) ∧
  ∃ above, lev_stack st = above ++ [0%Z] ∧ Forall (λ x, (0 < x)%Z) above.
Proof.
  intros Hrun.
  assert (stack_ok (lev_stack st)) as Hok
    by (eapply tokenize_loop_stack_ok; [done|apply stack_ok_init]).
  split; [done|]. by apply stack_ok_split.
Qed.

(** X3. In a run that raises nothing every line gives exactly one line
    token, in the order of the lines, and its text is the line without the
    white space at its two ends. *)
Theorem X3_one_token_per_line tabs lines out stack :
  tokenize_run tabs lines = (out, Ok stack) →
  omap token_text out = strip <$> lines.
Proof.
  unfold tokenize_run.
  destruct (tokenize_loop tabs tok_init lines) as [body [st|e]] eqn:Hrun;
    [|done].
  rewrite close_blocks_spec. intros [= <- <-].
  rewrite omap_app, omap_text_dedents, app_nil_r.
  by eapply tokenize_loop_text.
Qed.

(** X4. A line that does not start with a space or a tab, the empty line
    included, closes every open block: read after the lines [pre], it
    yields one DEDENT for each open level above the base and then its
    token, and leaves the stack at its base. *)
Theorem X4_unindented_line_closes_blocks tabs pre line out st :
  tokenize_loop tabs tok_init pre = (out, Ok st) →
  LWS_span line = "" →
  tokenize_loop tabs tok_init (pre ++ [line])
  = (out ++ replicate (length (lev_stack st) - 1) DEDENT
         ++ [Content (strip line)],
     Ok (TokState [0%Z] (only_tabbed st))).
Proof.
  intros Hpre Hspan.
  assert (stack_ok (lev_stack st)) as Hok
    by (eapply tokenize_loop_stack_ok; [done|apply stack_ok_init]).
  destruct (stack_ok_split _ Hok) as (above & Hst & Hpos).
  assert (tokenize_line tabs st line
          = (replicate (length above) DEDENT ++ [Content (strip line)],
             Ok (TokState [0%Z] (only_tabbed st)))) as Hline.
  { unfold tokenize_line. rewrite Hspan, strip_LWS_rest, Hst. simpl.
    destruct above as [|top above]; simpl.
    { destruct st as [stack ot]. simpl in *. by subst stack. }
    apply Forall_cons in Hpos as [Htop Hpos].
    destruct (Z.ltb_spec top 0); [lia|].
    destruct (Z.ltb_spec 0 top); [|lia].
    by rewrite (pop_levels_app 0 above 0 []) by (done || lia). }
  rewrite tokenize_loop_app, Hpre.
  change (tokenize_loop tabs st [line])
    with (match tokenize_line tabs st line with
          | (o, Ok st') => let '(o', r) := ([], Ok st') in (o ++ o', r)
          | (o, Raise e) => (o, Raise e)
          end).
  rewrite Hline, Hst, length_app. simpl. rewrite app_nil_r.
  by replace (length above + 1 - 1) with (length above) by lia.
Qed.

(** X5. Without a tab width ([tabs=None]) the tokenizer raises the
    span-length error exactly when it reaches a line whose indentation has
    a tab while an indentation up to and including this line has a space.
    Tabs alone are measured as one level each: as long as no indentation
    has had a space, the level of a line is the number of its leading
    tabs. *)
Theorem X5_span_length_error :
  (∀ lines,
     fin (tokenize None lines) = Some SpanLength ↔
     ∃ pre line post out st,
       lines = pre ++ line :: post ∧
       tokenize_loop None tok_init pre = (out, Ok st) ∧
       str_contains TAB (LWS_span line) = true ∧
       forallb tabs_only (pre ++ [line]) = false) ∧
  (∀ pre ind body,
     is_ok (tokenize_loop None tok_init pre).2 = true →
     forallb tabs_only pre = true →
     lws_run ind = true → starts_text body = true →
     str_contains SPACE ind = false →
     level_of_line None pre (ind +:+ body)
     = Some (Z.of_nat (str_count TAB ind))).
Proof.
  split; [intros lines|].
  2: { intros pre ind body Hok Hpre Hind Hbody Hsp. unfold level_of_line.
       destruct (tokenize_loop None tok_init pre) as [out [st|e]] eqn:Hrun;
         [|done].
       apply tokenize_loop_latch in Hrun. simpl in Hrun.
       rewrite Hpre in Hrun. rewrite LWS_span_indented by done.
       unfold line_level. rewrite Hrun, Hsp.
       case_bool_decide as Hemp; [by rewrite Hemp|].
       rewrite (str_count_absent SPACE ind Hsp).
       destruct (str_contains TAB ind) eqn:Htab.
       - do 3 f_equal. lia.
       - by rewrite (str_count_absent TAB ind Htab). }
  assert (∀ st line,
            (∃ o, tokenize_line None st line = (o, Raise SpanLength)) ↔
            str_contains TAB (LWS_span line) = true ∧
            only_tabbed st && tabs_only line = false) as Hline.
  { intros st line. unfold tokenize_line, tabs_only, line_level.
    case_bool_decide as Hemp.
    - rewrite Hemp. simpl. split; [|by intros [[=] _]].
      intros [o Ho]. destruct (lev_stack st) as [|top below]; [done|].
      repeat case_match; simplify_eq.
    - destruct (str_contains TAB (LWS_span line)) eqn:Htab,
        (str_contains SPACE (LWS_span line)) eqn:Hsp,
        (only_tabbed st) eqn:Hot; simpl;
        (split; [intros [o Ho]|intros [? ?]; try done; eauto]);
        destruct (lev_stack st) as [|top below]; try done;
        repeat case_match; simplify_eq. }
  unfold tokenize, tokenize_run. split.
  - destruct (tokenize_loop None tok_init lines) as [out [st|e]] eqn:Hrun.
    + by destruct (close_blocks (lev_stack st)).
    + intros [= ->].
      destruct (tokenize_loop_raise_inv _ _ _ _ _ Hrun)
        as (pre & line & post & o1 & st1 & o2 & -> & Hpre & Hl).
      exists pre, line, post, o1, st1. split; [done|]. split; [done|].
      destruct (proj1 (Hline st1 line)) as [Htab Hsp]; [eauto|].
      split; [done|].
      rewrite (tokenize_loop_latch _ _ _ _ _ Hpre) in Hsp. simpl in Hsp.
      rewrite forallb_app. simpl. by rewrite andb_true_r.
  - intros (pre & line & post & out & st & -> & Hpre & Htab & Hsp).
    destruct (proj2 (Hline st line)) as [o Ho].
    { split; [done|].
      rewrite (tokenize_loop_latch _ _ _ _ _ Hpre). simpl.
      rewrite forallb_app in Hsp. simpl in Hsp. by rewrite andb_true_r in Hsp. }
    rewrite tokenize_loop_app, Hpre. simpl. by rewrite Ho.
Qed.

(** X6. With a tab width that is not negative the tokenizer raises nothing
    but the unmatched-level error: every level can be measured, and the
    level stack never runs empty. *)
Theorem X6_only_unmatched_level (w : Z) lines :
  (0 ≤ w)%Z →
  fin (tokenize (Some w) lines) = None ∨
  fin (tokenize (Some w) lines) = Some UnmatchedLevel.
Proof.
  intros Hw. unfold tokenize, tokenize_run.
  destruct (tokenize_loop (Some w) tok_init lines) as [out [st|e]] eqn:Hrun.
  { destruct (close_blocks (lev_stack st)). by left. }
  right. simpl. f_equal.
  destruct (tokenize_loop_raise_inv _ _ _ _ _ Hrun)
    as (pre & line & post & o1 & st1 & o2 & _ & Hpre & Hl).
  assert (stack_ok (lev_stack st1)) as Hok
    by (eapply tokenize_loop_stack_ok; [done|apply stack_ok_init]).
  revert Hl. unfold tokenize_line. rewrite line_level_value.
  set (lev := (_ + _ * _)%Z).
  assert (0 ≤ lev)%Z as Hlev by (unfold lev; destruct (_ && _); lia).
  destruct (lev_stack st1) as [|top below] eqn:Hst.
  { destruct Hok as [_ Hl]. done. }
  destruct (Z.ltb_spec top lev); [done|].
  destruct (Z.ltb_spec lev top); [|done].
  destruct (pop_levels lev (top :: below)) as [o stack'] eqn:Hpop.
  destruct (pop_levels_spec _ _ _ _ Hpop) as (popped & Heq & Hall & _).
  destruct stack' as [|top' below'].
  - rewrite app_nil_r in Heq. subst popped.
    destruct (stack_ok_split _ Hok) as (above & Habove & _).
    rewrite Habove in Hall. apply Forall_app in Hall as [_ Hall].
    apply Forall_cons in Hall as [Hall _]. lia.
  - destruct (Z.ltb_spec top' lev); [|done]. by intros [= _ <-].
Qed.

End TokenizerInvariants.

Lemma X1_tokens_well_nested_witness :
  balanced_from 0 (tokenize_run (Some 4%Z) latch_lines).1 = true.
Proof.
  destruct (tokenize_run (Some 4%Z) latch_lines) as [out [stack|e]] eqn:Hrun.
  - exact (X1_tokens_well_nested _ _ _ _ Hrun).
  - exfalso. vm_compute in Hrun. discriminate Hrun.
Defined.

Lemma X2_level_stack_increasing_witness :
  stack_ok [8; 4; 0]%Z.
Proof.
  assert (tokenize_loop (Some 4%Z) tok_init ["a"; "    b"; "        c"]
          = ([Content "a"; INDENT; Content "b"; INDENT; Content "c"],
             Ok (TokState [8; 4; 0]%Z false))) as Hrun by reflexivity.
  exact (proj1 (X2_level_stack_increasing _ _ _ _ Hrun)).
Defined.

Lemma X3_one_token_per_line_witness :
  omap token_text (tokenize_run (Some 4%Z) ["a  "; "  b c "; ""; "d"]).1
  = ["a"; "b c"; ""; "d"].
Proof.
  destruct (tokenize_run (Some 4%Z) ["a  "; "  b c "; ""; "d"])
    as [out [stack|e]] eqn:Hrun.
  - exact (X3_one_token_per_line _ _ _ _ Hrun).
  - exfalso. vm_compute in Hrun. discriminate Hrun.
Defined.

Lemma X4_unindented_line_closes_blocks_witness :
  tokenize_loop (Some 4%Z) tok_init (["a"; "  b"; "    c"] ++ [""])
  = ([Content "a"; INDENT; Content "b"; INDENT; Content "c"]
       ++ replicate 2 DEDENT ++ [Content ""],
     Ok (TokState [0%Z] false)).
Proof.
  exact (X4_unindented_line_closes_blocks (Some 4%Z) ["a"; "  b"; "    c"] ""
           _ (TokState [4; 2; 0]%Z false) eq_refl eq_refl).
Defined.

(** Three lines indented by one, two and three tabs, the last two with
    white space in their text. *)
Lemma X5_span_length_error_witness :
  level_of_line None [tabbed "A"; tabbed (tabbed "B  x")]
    (tabbed (tabbed (tabbed ("C d" +:+ tabbed "e"))))
  = Some 3%Z.
Proof.
  exact (proj2 X5_span_length_error [tabbed "A"; tabbed (tabbed "B  x")]
           (tabbed (tabbed (tabbed ""))) ("C d" +:+ tabbed "e")
           eq_refl eq_refl eq_refl eq_refl eq_refl).
Defined.

Lemma X6_only_unmatched_level_witness :
  fin (tokenize (Some 4%Z) ragged_lines) = None ∨
  fin (tokenize (Some 4%Z) ragged_lines) = Some UnmatchedLevel.
Proof. apply (X6_only_unmatched_level 4 ragged_lines). lia. Defined.

(** * Further properties of [read_block] and of the parser *)

Section ReadBlockMore.

Lemma read_block_loop_conserves tok : ∀ lev called remaining,
  read_block_loop lev tok = (called, remaining) →
  match remaining with
  | Some rest =>
      tok = called ++ DEDENT :: rest ∧
      (Z.of_nat (count_token INDENT called) + lev
       = Z.of_nat (count_token DEDENT called) + 1)%Z
  | None => tok = called
  end.
Proof.
  induction tok as [|t tok IH]; intros lev called remaining; simpl.
  - by intros [= <- <-].
  - destruct t as [| |s]; simpl.
    + destruct (read_block_loop (lev + 1) tok) as [c r] eqn:Hrest.
      intros [= <- <-]. specialize (IH _ _ _ Hrest).
      destruct r as [rest|]; [|by subst].
      destruct IH as [-> Hcount]. split; [done|].
      change (INDENT :: c) with ([INDENT] ++ c).
      rewrite !count_token_app.
      change (count_token INDENT [INDENT]) with 1.
      change (count_token DEDENT [INDENT]) with 0. lia.
    + destruct (Z.eqb_spec (lev - 1) 0) as [Hz|Hz].
      * intros [= <- <-]. split; [done|].
        change (count_token INDENT []) with 0.
        change (count_token DEDENT []) with 0. lia.
      * destruct (read_block_loop (lev - 1) tok) as [c r] eqn:Hrest.
        intros [= <- <-]. specialize (IH _ _ _ Hrest).
        destruct r as [rest|]; [|by subst].
        destruct IH as [-> Hcount]. split; [done|].
        change (DEDENT :: c) with ([DEDENT] ++ c).
        rewrite !count_token_app.
        change (count_token INDENT [DEDENT]) with 0.
        change (count_token DEDENT [DEDENT]) with 1. lia.
    + destruct (read_block_loop lev tok) as [c r] eqn:Hrest.
      intros [= <- <-]. specialize (IH _ _ _ Hrest).
      destruct r as [rest|]; [|by subst].
      destruct IH as [-> Hcount]. split; [done|].
      change (Content s :: c) with ([Content s] ++ c).
      rewrite !count_token_app.
      change (count_token INDENT [Content s]) with 0.
      change (count_token DEDENT [Content s]) with 0. lia.
Qed.

Lemma read_block_loop_contents pre : ∀ lev tok,
  forallb is_Content pre = true →
  read_block_loop lev (pre ++ tok)
  = let '(called, remaining) := read_block_loop lev tok in
    (pre ++ called, remaining).
Proof.
  induction pre as [|t pre IH]; intros lev tok; simpl.
  - by destruct (read_block_loop lev tok).
  - destruct t as [| |s]; [done..|]. simpl. intros Hpre.
    rewrite IH by done. by destruct (read_block_loop lev tok).
Qed.

(** [read_block] from a line that has no block of its own: the lines up to
    the next INDENT and the block that it opens are consumed. *)
Lemma read_block_next_block pre body rest :
  forallb is_Content pre = true → balanced_from 0 body = true →
  read_block (pre ++ INDENT :: body ++ DEDENT :: rest)
  = (pre ++ INDENT :: body, Some rest).
Proof.
  intros Hpre Hbody. unfold read_block.
  rewrite read_block_loop_contents by done.
  pose proof (read_block_loop_balanced body 0 rest Hbody) as Hrun.
  change (Z.of_nat 0 + 1)%Z with 1%Z in Hrun.
  change (read_block_loop 0 (INDENT :: body ++ DEDENT :: rest))
    with (let '(called, remaining) :=
            read_block_loop 1 (body ++ DEDENT :: rest) in
          (INDENT :: called, remaining)).
  by rewrite Hrun.
Qed.

(** X7. [read_block] neither drops nor reorders a token: when it stops at a
    DEDENT, the stream is the tokens given to the callback, that DEDENT and
    the tokens left, and the tokens given to the callback hold one INDENT
    more than DEDENT; when it never stops, every token of the stream went
    to the callback. *)
Theorem X7_read_block_conserves (tok : list token) :
  match read_block tok with
  | (called, Some rest) =>
      tok = called ++ DEDENT :: rest ∧
      count_token INDENT called = S (count_token DEDENT called)
  | (called, None) => tok = called
  end.
Proof.
  unfold read_block.
  destruct (read_block_loop 0 tok) as [called remaining] eqn:Hrun.
  pose proof (read_block_loop_conserves _ _ _ _ Hrun) as H.
  destruct remaining as [rest|]; [|done].
  destruct H as [-> Hcount]. split; [done|]. lia.
Qed.

End ReadBlockMore.

Section ParserMore.
Context {T : Type} `{!PyRuntime T}.
Implicit Types (inst self : Timeline T).

(** ** The builders leave a suffix of the stream *)

Lemma Range_loop_rest cls fin tok : ∀ (inst : Range T) cur log r rest',
  Range_loop cls fin inst cur tok = (log, Ok (r, rest')) →
  length rest' ≤ length tok.
Proof.
  induction tok as [|t tok IH]; intros inst cur log r rest';
    cbn [Range_loop].
  - destruct fin; [done|]. unfold at_eof.
    intros (? & ? & ? & _ & (? & ? & ? & _ & [= _ _ <-] & _)%bind_Ok_inv
            & _)%bind_Ok_inv. done.
  - destruct t as [| |s].
    + intros (? & ? & ? & _ & Hrest & _)%bind_Ok_inv.
      apply IH in Hrest. simpl. lia.
    + intros (? & ? & ? & _ & [= _ _ <-] & _)%bind_Ok_inv. simpl. lia.
    + case_bool_decide.
      * intros Hrest%IH. simpl. lia.
      * intros (? & [? ?] & ? & _ & Hrest & _)%bind_Ok_inv.
        apply IH in Hrest. simpl. lia.
Qed.

Lemma Event_loop_rest fin tok : ∀ (inst : Event T) log r rest',
  Event_loop fin inst tok = (log, Ok (r, rest')) → length rest' ≤ length tok.
Proof.
  induction tok as [|t tok IH]; intros inst log r rest';
    cbn [Event_loop].
  - destruct fin; [done|]. unfold at_eof.
    by intros (? & ? & ? & _ & [= _ _ <-] & _)%bind_Ok_inv.
  - destruct t as [| |s].
    + intros (? & ? & ? & _ & Hrest & _)%bind_Ok_inv.
      apply IH in Hrest. simpl. lia.
    + intros [= _ _ <-]. simpl. lia.
    + case_bool_decide.
      * intros Hrest%IH. simpl. lia.
      * intros (? & ? & ? & _ & Hrest & _)%bind_Ok_inv.
        apply IH in Hrest. simpl. lia.
Qed.

Lemma Constraint_loop_rest fin tok : ∀ (inst : Constraint T) log r rest',
  Constraint_loop fin inst tok = (log, Ok (r, rest')) →
  length rest' ≤ length tok.
Proof.
  induction tok as [|t tok IH]; intros inst log r rest';
    cbn [Constraint_loop].
  - destruct fin; [done|]. unfold at_eof.
    by intros (? & ? & ? & _ & [= _ _ <-] & _)%bind_Ok_inv.
  - destruct t as [| |s].
    + intros (? & ? & ? & _ & Hrest & _)%bind_Ok_inv.
      apply IH in Hrest. simpl. lia.
    + intros [= _ _ <-]. simpl. lia.
    + case_bool_decide.
      * intros Hrest%IH. simpl. lia.
      * intros (? & ? & ? & _ & Hrest & _)%bind_Ok_inv.
        apply IH in Hrest. simpl. lia.
Qed.

Lemma Group_loop_rest fin tok : ∀ (inst : Group) log r rest',
  Group_loop (T:=T) fin inst tok = (log, Ok (r, rest')) →
  length rest' ≤ length tok.
Proof.
  induction tok as [|t tok IH]; intros inst log r rest';
    cbn [Group_loop].
  - destruct fin; [done|]. unfold at_eof.
    by intros (? & ? & ? & _ & [= _ _ <-] & _)%bind_Ok_inv.
  - destruct t as [| |s].
    + intros (? & ? & ? & _ & Hrest & _)%bind_Ok_inv.
      apply IH in Hrest. simpl. lia.
    + intros [= _ _ <-]. simpl. lia.
    + case_bool_decide.
      * intros Hrest%IH. simpl. lia.
      * intros (? & ? & ? & _ & Hrest & _)%bind_Ok_inv.
        apply IH in Hrest. simpl. lia.
Qed.

Lemma Sequence_loop_rest fin nm tok : ∀ (st : seq_state (T:=T)) log r rest',
  Sequence_loop fin nm st tok = (log, Ok (r, rest')) →
  length rest' ≤ length tok.
Proof.
  induction tok as [|t tok IH]; intros st log r rest';
    cbn [Sequence_loop].
  - destruct fin; [done|]. unfold at_eof.
    by intros (? & ? & ? & _ & [= _ _ <-] & _)%bind_Ok_inv.
  - destruct t as [| |s].
    + intros (? & ? & ? & _ & Hrest & _)%bind_Ok_inv.
      apply IH in Hrest. simpl. lia.
    + intros [= _ _ <-]. simpl. lia.
    + case_bool_decide.
      * intros Hrest%IH. simpl. lia.
      * intros (? & ? & ? & _ & Hrest & _)%bind_Ok_inv.
        apply IH in Hrest. simpl. lia.
Qed.

Lemma handler_rest kind from_tokens fin tok hdr log (o : obj T) rest' :
  handler kind = Some from_tokens →
  from_tokens fin tok hdr = (log, Ok (o, rest')) →
  length rest' ≤ length tok.
Proof.
  unfold handler. repeat case_bool_decide; intros [= <-];
    intros (? & [? ?] & ? & Hloop & [= _ _ <-] & _)%bind_Ok_inv.
  - by eapply Range_loop_rest.
  - by eapply Event_loop_rest.
  - by eapply Constraint_loop_rest.
  - by eapply Sequence_loop_rest.
  - by eapply Group_loop_rest.
Qed.

Lemma skip_block_rest fin tok log rest' :
  skip_block (T:=T) fin tok = (log, Ok rest') → length rest' ≤ length tok.
Proof.
  unfold skip_block, read_block.
  destruct (read_block_loop 0 tok) as [called [rest|]] eqn:Hrun.
  - intros [= _ <-].
    destruct (read_block_loop_conserves _ _ _ _ Hrun) as [-> _].
    rewrite length_app. simpl. lia.
  - destruct fin; [done|]. intros [= _ <-]. simpl. lia.
Qed.

Lemma bind_ext {D A B} (m : writer D A) (k1 k2 : A → writer D B) :
  (∀ l a, m = (l, Ok a) → k1 a = k2 a) → (m ≫= k1) = (m ≫= k2).
Proof.
  destruct m as [l [a|e]]; [|done]. intros Hk.
  unfold mbind, writer_bind. by rewrite (Hk l a eq_refl).
Qed.

(** The fuel of [Timeline_loop] is enough as soon as it is the number of
    tokens: more fuel changes nothing. *)
Lemma Timeline_loop_fuel fuel1 : ∀ fuel2 fin inst tok,
  length tok ≤ fuel1 → length tok ≤ fuel2 →
  Timeline_loop fuel1 fin inst tok = Timeline_loop fuel2 fin inst tok.
Proof.
  induction fuel1 as [|fuel1 IH]; intros fuel2 fin inst tok H1 H2.
  { destruct tok; [|simpl in H1; lia]. by destruct fuel2. }
  destruct tok as [|t rest]; [by destruct fuel2|].
  destruct fuel2 as [|fuel2]; [simpl in H2; lia|].
  simpl in H1, H2. destruct t as [| |s]; cbn [Timeline_loop].
  - apply bind_ext. intros _ _ _. apply IH; lia.
  - apply bind_ext. intros _ _ _. apply IH; lia.
  - case_bool_decide; [apply IH; lia|].
    apply bind_ext. intros _ kind _. case_bool_decide.
    { apply bind_ext. intros l rest' Hskip%skip_block_rest. apply IH; lia. }
    destruct (handler kind) as [from_tokens|] eqn:Hh.
    + destruct rest as [|[| |s'] body]; [done| |..].
      * apply bind_ext. intros l [o rest'] Hft.
        apply (handler_rest _ _ _ _ _ _ _ _ Hh) in Hft.
        apply bind_ext. intros _ inst' _. simpl in *. apply IH; lia.
      * apply bind_ext. intros _ _ _. simpl in *. apply IH; lia.
      * apply bind_ext. intros _ _ _. simpl in *. apply IH; lia.
    + apply bind_ext. intros _ _ _.
      apply bind_ext. intros l rest' Hskip%skip_block_rest. apply IH; lia.
Qed.

Lemma bind_lift_Ok {D A B} (a : A) (k : A → writer D B) :
  (lift (Ok a) ≫= k) = k a.
Proof. unfold lift, mbind, writer_bind. by destruct (k a). Qed.

Lemma bind_warn {D B} (d : D) (k : unit → writer D B) :
  (warn d ≫= k) = (d :: (k tt).1, (k tt).2).
Proof. unfold warn, mbind, writer_bind. by destruct (k tt). Qed.

(** One line at the root, with the first word [kind]. *)
Lemma Timeline_parse_line fin inst (t kind : string) words rest :
  split t = kind :: words →
  Timeline_parse fin inst (Content t :: rest)
  = if bool_decide (kind = "comment") then
      rest' ← skip_block fin rest; Timeline_loop (length rest) fin inst rest'
    else
      match handler kind with
      | None =>
          warn (WUnknownBlock kind) ;;
          rest' ← skip_block fin rest; Timeline_loop (length rest) fin inst rest'
      | Some from_tokens =>
          match rest with
          | [] => raise (default StopIteration fin)
          | INDENT :: body =>
              '(result, rest') ← from_tokens fin body (split t);
              inst' ← Timeline_add inst result;
              Timeline_loop (length rest) fin inst' rest'
          | _ :: rest' =>
              warn (WBlockNotStarted kind) ;;
              Timeline_loop (length rest) fin inst rest'
          end
      end.
Proof.
  intros Hsplit. unfold Timeline_parse.
  change (length (Content t :: rest)) with (S (length rest)).
  generalize (length rest). intros fuel. cbn [Timeline_loop].
  rewrite bool_decide_false by (by intros ->).
  rewrite Hsplit. change (part (kind :: words) 0) with (Ok kind).
  apply (bind_lift_Ok (D:=diag T)).
Qed.

Lemma Timeline_parse_unfold fuel fin inst tok :
  length tok ≤ fuel → Timeline_loop fuel fin inst tok = Timeline_parse fin inst tok.
Proof. intros. by apply Timeline_loop_fuel. Qed.

(** X8. A [comment] line makes the parser skip, without a diagnostic and
    without a change to the Timeline, everything up to the end of the next
    block: its own block when the next token opens one, and otherwise the
    lines that follow it together with the block that these open. *)
Theorem X8_comment_skips_next_block fin inst (t : string) words pre body rest :
  split t = "comment" :: words →
  forallb is_Content pre = true →
  balanced_from 0 body = true →
  Timeline_parse fin inst (Content t :: pre ++ INDENT :: body ++ DEDENT :: rest)
  = Timeline_parse fin inst rest.
Proof.
  intros Hsplit Hpre Hbody.
  rewrite (Timeline_parse_line _ _ _ _ _ _ Hsplit), bool_decide_true by done.
  unfold skip_block.
  rewrite (read_block_next_block pre body rest Hpre Hbody).
  etrans; [apply (bind_lift_Ok (D:=diag T))|].
  apply Timeline_parse_unfold.
  rewrite !length_app. simpl. rewrite length_app. simpl. lia.
Qed.

(** X9. A block whose first word names no handler is reported once and
    skipped whole: parsing goes on with the tokens after its DEDENT, and
    nothing of the block reaches the Timeline. *)
Theorem X9_unknown_block_skipped fin inst (t kind : string) words body rest :
  split t = kind :: words →
  kind ≠ "comment" → handler (T:=T) kind = None →
  balanced_from 0 body = true →
  Timeline_parse fin inst (Content t :: INDENT :: body ++ DEDENT :: rest)
  = (WUnknownBlock kind :: (Timeline_parse fin inst rest).1,
     (Timeline_parse fin inst rest).2).
Proof.
  intros Hsplit Hkind Hh Hbody.
  rewrite (Timeline_parse_line _ _ _ _ _ _ Hsplit), bool_decide_false by done.
  rewrite Hh. etrans; [apply (bind_warn (D:=diag T))|]. unfold skip_block.
  pose proof (read_block_next_block [] body rest eq_refl Hbody) as Hskip.
  rewrite !app_nil_l in Hskip. rewrite Hskip.
  assert ((mret rest ≫= λ rest', Timeline_loop
             (length (INDENT :: body ++ DEDENT :: rest)) fin inst rest')
          = Timeline_parse fin inst rest) as ->; [|done].
  etrans; [apply (bind_lift_Ok (D:=diag T))|].
  apply Timeline_parse_unfold. simpl. rewrite !length_app. simpl. lia.
Qed.

End ParserMore.

Lemma X8_comment_skips_next_block_witness :
  Timeline_parse (T:=Z) None Timeline_init
    (Content "comment to do" :: [Content "char A"]
       ++ INDENT :: [Content "born 1"; Content "died 2"] ++ DEDENT
       :: [Content "event e"; INDENT; Content "at 3"; DEDENT])
  = Timeline_parse None Timeline_init
      [Content "event e"; INDENT; Content "at 3"; DEDENT].
Proof.
  exact (X8_comment_skips_next_block (T:=Z) None Timeline_init "comment to do"
           ["to"; "do"] [Content "char A"]
           [Content "born 1"; Content "died 2"]
           [Content "event e"; INDENT; Content "at 3"; DEDENT]
           eq_refl eq_refl eq_refl).
Defined.

Lemma X9_unknown_block_skipped_witness :
  Timeline_parse (T:=Z) None Timeline_init
    (Content "place Rome" :: INDENT :: [Content "founded -753"] ++ DEDENT :: [])
  = ([WUnknownBlock "place"], Ok Timeline_init).
Proof.
  assert ("place" ≠ "comment") as Hne by discriminate.
  exact (X9_unknown_block_skipped (T:=Z) None Timeline_init "place Rome"
           "place" ["Rome"] [Content "founded -753"] []
           eq_refl Hne eq_refl eq_refl).
Defined.

(** * Further properties of the block builders and of [Timeline.add] *)

Section BuilderInvariants.
Context {T : Type} `{!PyRuntime T}.

Lemma add_names_Names ps s : ∃ s', add_names ps (Names s) = Names s'.
Proof.
  revert s. induction ps as [|p ps IH]; intros s; simpl; [eauto|]. apply IH.
Qed.

Lemma float_part_num parts (x : T) :
  float_part parts = Ok x → is_num (VNum x).
Proof. intros _. by exists x. Qed.

Lemma unhandled_directive_built cls name (inst inst' : Range T) parts log :
  unhandled_directive cls inst parts = (log, Ok inst') →
  Range_built cls name inst → Range_built cls name inst'.
Proof.
  unfold unhandled_directive, Range_built. destruct cls.
  - by intros (? & [] & ? & _ & [= _ <-] & _)%bind_Ok_inv.
  - intros (? & cmd & ? & _ & Hk & _)%bind_Ok_inv.
    repeat case_bool_decide.
    + apply bind_Ok_inv in Hk as (? & g & ? & _ & [= _ <-] & _). by simpl.
    + injection Hk as _ <-. simpl.
      intros (? & ? & ? & ? & ? & s & ->).
      destruct (add_names_Names (drop 1 parts) s) as [s' ->]. eauto 10.
    + by injection Hk as _ <-.
Qed.

Lemma span_complete_snoc cls (spans : list (Span T)) sp (x : T) cmd :
  Forall (span_complete cls) spans → pending_ok cls (Some sp) →
  cmd ∈ END_WORDS cls →
  Forall (span_complete cls)
    (spans ++ [MkSpan (sp_start sp) (sp_sword sp) (VNum x) (Some cmd)]).
Proof.
  intros Hall [Hnum Hw] Hcmd. apply Forall_app. split; [done|].
  repeat constructor; simpl; eauto. by exists x.
Qed.

Lemma Range_directive_built cls name (inst inst' : Range T) cur cur' t log :
  Range_directive cls inst cur t = (log, Ok (inst', cur')) →
  Range_built cls name inst → pending_ok cls cur →
  Range_built cls name inst' ∧ pending_ok cls cur'.
Proof.
  unfold Range_directive.
  intros (? & cmd & ? & _ & Hk & _)%bind_Ok_inv Hinst Hcur.
  case_bool_decide as Hb.
  { apply bind_Ok_inv in Hk as (? & [] & ? & _ & Hk & _).
    apply bind_Ok_inv in Hk as (? & start & ? & _ & [= _ <- <-] & _).
    split; [done|]. simpl. split; [by exists start|done]. }
  case_bool_decide as He.
  { destruct cur as [sp|].
    - apply bind_Ok_inv in Hk as (? & stop & ? & _ & [= _ <- <-] & _).
      split; [|done].
      destruct Hinst as (? & ? & ? & ? & ? & ?). unfold Range_built. simpl.
      split_and!; try done. by apply span_complete_snoc.
    - apply bind_Ok_inv in Hk as (? & [] & ? & _ & [= _ <- <-] & _). done. }
  repeat case_bool_decide.
  - injection Hk as _ <- <-. done.
  - injection Hk as _ <- <-. done.
  - injection Hk as _ <- <-. done.
  - apply bind_Ok_inv in Hk as (? & i & ? & Hu & [= _ <- <-] & _).
    split; [|done]. by eapply unhandled_directive_built.
Qed.

Lemma Range_finish_built cls name (inst inst' : Range T) :
  Range_finish inst = Ok inst' →
  Range_built cls name inst → Range_built cls name inst'.
Proof.
  intros Hfin (? & ? & Hspans & ? & ? & ?).
  pose proof (Range_finish_spans _ _ Hfin) as Hperm.
  unfold Range_finish in Hfin.
  destruct (py_sorted span_start_lt (rg_spans inst)) as [l|e]; [|done].
  injection Hfin as <-. unfold Range_built. simpl in *.
  split_and!; try done. by rewrite Hperm.
Qed.

Lemma Range_loop_built cls name fin tok : ∀ (inst : Range T) cur log rg rest,
  Range_loop cls fin inst cur tok = (log, Ok (rg, rest)) →
  Range_built cls name inst → pending_ok cls cur →
  ∃ inst', Range_finish inst' = Ok rg ∧ Range_built cls name inst'.
Proof.
  induction tok as [|t tok IH]; intros inst cur log rg rest;
    cbn [Range_loop].
  - destruct fin; [done|]. unfold at_eof.
    intros (? & [] & ? & _ & Hk & _)%bind_Ok_inv.
    apply bind_Ok_inv in Hk as (? & i & ? & [Hf _]%lift_Ok_inv
                                & [= _ <- _] & _).
    eauto.
  - destruct t as [| |s].
    + intros (? & [] & ? & _ & Hk & _)%bind_Ok_inv. by eapply IH.
    + intros (? & i & ? & [Hf _]%lift_Ok_inv & [= _ <- _] & _)%bind_Ok_inv.
      eauto.
    + case_bool_decide; [by eapply IH|].
      intros (? & [inst1 cur1] & ? & Hd & Hk & _)%bind_Ok_inv Hinst Hcur.
      destruct (Range_directive_built _ name _ _ _ _ _ _ Hd Hinst Hcur).
      by eapply IH.
Qed.

Lemma Range_init_built cls name : Range_built (T:=T) cls name (Range_init cls name).
Proof. unfold Range_built. simpl. split_and!; eauto. Qed.

(** X10. A Range or Character that its builder returns has the words of its
    header after the first as its name, only closed spans, each with two
    numbers, a begin-word and an end-word of its class, no index, no hanging
    event, and names (not yet objects) as parents. *)
Theorem X10_built_range_well_formed cls fin tok hdr log (rg : Range T) rest :
  Range_from_tokens cls fin tok hdr = (log, Ok (rg, rest)) →
  Range_built cls (join (drop 1 hdr)) rg.
Proof.
  unfold Range_from_tokens. intros Hloop.
  destruct (Range_loop_built cls (join (drop 1 hdr)) _ _ _ _ _ _ _ Hloop)
    as (inst' & Hfin & Hbuilt); [apply Range_init_built|done|].
  by eapply Range_finish_built.
Qed.

Context `{!PyOrder T}.

(** X11. The spans of a Range or Character that its builder returns are in
    ascending order of their start: no span starts before a span that
    precedes it in the list. *)
Theorem X11_built_spans_sorted cls fin tok hdr log (rg : Range T) rest :
  Range_from_tokens cls fin tok hdr = (log, Ok (rg, rest)) →
  keys_sorted (sp_start <$> rg_spans rg).
Proof.
  unfold Range_from_tokens. intros Hloop.
  destruct (Range_loop_built cls (join (drop 1 hdr)) _ _ _ _ _ _ _ Hloop)
    as (inst' & Hfin & Hbuilt); [apply Range_init_built|done|].
  destruct Hbuilt as (_ & _ & Hspans & _).
  destruct (py_sorted_keys_sorted sp_start (rg_spans inst'))
    as (l' & Hsort & Hsorted & _).
  { eapply Forall_impl; [exact Hspans|]. by intros sp [? _]. }
  unfold Range_finish, span_start_lt in Hfin. rewrite Hsort in Hfin.
  by injection Hfin as <-.
Qed.

End BuilderInvariants.

Section SequenceFacts.
Context {T : Type} `{!PyRuntime T}.

Lemma split_nonempty (t : string) w ws : split t = w :: ws → t ≠ "".
Proof. by intros Hs ->. Qed.

Lemma Sequence_loop_chain fin nm rest lines evs :
  Forall2 (λ t ev, split t = "event" :: ev) lines evs →
  ∀ (cons : list (Constraint T)) idx (last : option (list string)),
    Sequence_loop fin nm (SeqState cons idx (fmap (M:=list) SStr <$> last))
      ((Content <$> lines) ++ DEDENT :: rest)
    = ([], Ok (cons ++ imap (λ i (p : list string * list string),
                               Constraint_new (seq_name nm (idx + i))
                                 (SStr <$> p.1) (SStr <$> p.2))
                         (neighbours last evs),
               rest)).
Proof.
  induction 1 as [|t ev lines evs Ht _ IH]; intros cons idx last.
  - simpl. destruct last; simpl; by rewrite app_nil_r.
  - rewrite fmap_cons. cbn [app Sequence_loop].
    rewrite bool_decide_false by (by eapply split_nonempty).
    unfold Sequence_directive. rewrite Ht.
    change (part ("event" :: ev) 0) with (Ok "event").
    etrans.
    { apply (bind_Ok (D:=diag T)) with (l1 := []) (a :=
        SeqState (cons ++ match last with
                          | Some l => [Constraint_new (seq_name nm idx)
                                         (SStr <$> l) (SStr <$> ev)]
                          | None => []
                          end)
                 (match last with Some _ => S idx | None => idx end)
                 (fmap (M:=list) SStr <$> Some ev)).
      - destruct last as [l|]; simpl; [done|by rewrite app_nil_r].
      - apply IH. }
    simpl. do 3 f_equal. destruct last as [l|]; simpl.
    + rewrite <-app_assoc. simpl. f_equal. f_equal.
      * by rewrite Nat.add_0_r.
      * apply imap_ext. intros i p _. simpl. do 2 f_equal. lia.
    + by rewrite app_nil_r.
Qed.

(** X12. A sequence block whose lines are all [event] lines returns, with no
    diagnostic, one constraint for each pair of neighbouring lines: the
    [i]th has the words of line [i] as before-selector, the words of line
    [i + 1] as after-selector and the name of the sequence followed by
    [_i]; so [n] lines give [n - 1] constraints, and one line none. *)
Theorem X12_sequence_chains_events fin hdr rest lines evs :
  Forall2 (λ t ev, split t = "event" :: ev) lines evs →
  Sequence_from_tokens (T:=T) fin ((Content <$> lines) ++ DEDENT :: rest) hdr
  = ([], Ok (chain (hdr_name hdr) evs, rest)) ∧
  length (chain (T:=T) (hdr_name hdr) evs) = length lines - 1.
Proof.
  intros Hlines. split.
  - unfold Sequence_from_tokens.
    by rewrite (Sequence_loop_chain fin _ rest lines evs Hlines [] 0 None).
  - unfold chain. rewrite length_imap, length_zip, length_drop.
    apply Forall2_length in Hlines. lia.
Qed.

End SequenceFacts.

Section AddFacts.
Context {T : Type} `{!PyRuntime T}.

Lemma dict_set_fresh {V} (k : string) (v : V) d :
  dict_get k d = None → dict_set k v d = d ++ [(k, v)].
Proof.
  induction d as [|[k' v'] d IH]; simpl; [done|].
  case_bool_decide; [done|]. intros Hd. by rewrite IH.
Qed.

(** X13. Adding a Range stores it under its name: looking the name up gives
    the Range added, every other name gives what it gave before, and the
    events, constraints and groups are untouched. A name that is new goes
    to the end of the mapping, with no diagnostic; a name that is present
    keeps its place. *)
Theorem X13_add_range_lookup (self : Timeline T) (rg : Range T) :
  ∃ log self',
    Timeline_add self (ORange rg) = (log, Ok self') ∧
    dict_get (rg_name rg) (ranges self') = Some rg ∧
    (∀ k, k ≠ rg_name rg →
          dict_get k (ranges self') = dict_get k (ranges self)) ∧
    (dict_get (rg_name rg) (ranges self) = None →
     log = [] ∧ ranges self' = ranges self ++ [(rg_name rg, rg)]) ∧
    (is_Some (dict_get (rg_name rg) (ranges self)) →
     (ranges self').*1 = (ranges self).*1) ∧
    events self' = events self ∧ constraints self' = constraints self ∧
    groups self' = groups self.
Proof.
  exists (if dict_mem (rg_name rg) (ranges self)
          then [WRangeOverwrite (rg_name rg)] else []),
    (MkTimeline (dict_set (rg_name rg) rg (ranges self)) (events self)
       (constraints self) (groups self) (universal_evs self)).
  split.
  { simpl. by destruct (dict_mem (rg_name rg) (ranges self)). }
  simpl. split_and!; try done.
  - apply dict_get_set_eq.
  - intros k Hk. by apply dict_get_set_ne.
  - intros Hnone. unfold dict_mem. rewrite Hnone.
    rewrite bool_decide_false by (by intros [? [=]]).
    split; [done|]. by apply dict_set_fresh.
  - apply dict_set_keys.
Qed.

End AddFacts.

Lemma X10_built_range_well_formed_witness :
  Range_built (T:=Z) ClsCharacter "Ann Lee"
    (MkRange ClsCharacter "Ann Lee" None ∅
       [MkSpan (VNum 3%Z) "born" (VNum 9%Z) (Some "died")] None false []
       (Some "f") (Names ∅)).
Proof.
  exact (X10_built_range_well_formed (T:=Z) ClsCharacter None
           [Content "gender f"; Content "born 3"; Content "died 9"; DEDENT]
           ["char"; "Ann"; "Lee"] [] _ [] eq_refl).
Defined.

Lemma X11_built_spans_sorted_witness :
  keys_sorted (T:=Z)
    (sp_start <$> [MkSpan (VNum 1%Z) "born" (VNum 2%Z) (Some "died");
                   MkSpan (VNum 5%Z) "raised" (VNum 9%Z) (Some "died")]).
Proof.
  exact (X11_built_spans_sorted (T:=Z) ClsCharacter None
           [Content "raised 5"; Content "died 9"; Content "born 1";
            Content "died 2"; DEDENT]
           ["char"; "A"] [] _ [] eq_refl).
Defined.

Lemma X12_sequence_chains_events_witness :
  Sequence_from_tokens (T:=Z) None
    ((Content <$> ["event a"; "event b 0 end"; "event c"]) ++ DEDENT :: [])
    ["sequence"; "s"]
  = ([], Ok ([Constraint_new "s_0" [SStr "a"] [SStr "b"; SStr "0"; SStr "end"];
              Constraint_new "s_1" [SStr "b"; SStr "0"; SStr "end"] [SStr "c"]],
             [])).
Proof.
  assert (Forall2 (λ t ev, split t = "event" :: ev)
            ["event a"; "event b 0 end"; "event c"]
            [["a"]; ["b"; "0"; "end"]; ["c"]]) as Hlines
    by (repeat constructor).
  exact (proj1 (X12_sequence_chains_events (T:=Z) None ["sequence"; "s"] []
                  _ _ Hlines)).
Defined.

(** * Further properties of linking *)

Section LinkMore.
Context {T : Type} `{!PyRuntime T}.
Implicit Types (self tml : Timeline T) (rg : Range T) (ev : Event T).

Lemma fmap_eq_Forall2 {A B} (f : A → B) (l1 l2 : list A) :
  f <$> l1 = f <$> l2 → Forall2 (λ a b, f a = f b) l1 l2.
Proof.
  revert l2. induction l1 as [|a l1 IH]; intros [|b l2]; try done.
  rewrite !fmap_cons. intros [= Hab Hl]. constructor; auto.
Qed.

(** X14. Linking keeps the ranges under their names and in their order,
    gives each its position as index, and changes nothing else of a range
    but its parents, which are resolved, the spans of an ambient range and
    the hanging events. *)
Theorem X14_link_keeps_ranges self log self' :
  Timeline_link self = (log, Ok self') →
  Forall2 (range_linked_from self) (ranges self) (ranges self') ∧
  ∀ i krg', ranges self' !! i = Some krg' → rg_idx krg'.2 = Some i.
Proof.
  intros Hlink.
  destruct (Timeline_link_ranges_inv _ _ _ Hlink) as (l1 & rgs & Hrgs).
  destruct (Timeline_link_after_ranges _ _ _ Hrgs)
    as (log' & self1 & evs & Hlink' & _ & Hfor & _).
  rewrite Hlink in Hlink'. injection Hlink' as _ <-.
  destruct (link_ranges_inv _ _ _ _ _ Hrgs) as (rgs' & Heq & Hall & Hidx).
  simpl in Heq. subst rgs'. simpl in Hall.
  symmetry in Hfor. apply fmap_eq_Forall2 in Hfor. split.
  - eapply Forall2_trans; [|exact Hall|exact Hfor].
    intros krg [k' rg'] [k'' rg''] (i & spans & [= -> ->] & Hsp) Hf.
    simpl in Hf.
    injection Hf as <- Hcls Hname Hdisp Hclasses Hspans _ Hamb Hgender Hparents.
    unfold range_linked_from. simpl in *.
    rewrite <-Hcls, <-Hname, <-Hdisp, <-Hclasses, <-Hspans, <-Hamb,
      <-Hgender, <-Hparents.
    split_and!; try done.
  - intros i [k'' rg''] Hi.
    destruct (Forall2_lookup_r _ _ _ _ _ Hfor Hi) as ([k' rg'] & Hi' & Hf).
    simpl in Hf. injection Hf as _ _ _ _ _ _ Hidx' _ _ _. simpl.
    rewrite <-Hidx'. exact (Hidx _ _ Hi').
Qed.

(** ** The numbering of the universal events *)

Lemma number_universal_spec (evs : list (Event T)) : ∀ idx,
  (number_universal idx evs).2 = idx + length (universal evs) ∧
  Event_is_universal <$> (number_universal idx evs).1
    = Event_is_universal <$> evs ∧
  ev_idx <$> universal (number_universal idx evs).1
    = Some <$> seq idx (length (universal evs)).
Proof.
  unfold universal.
  induction evs as [|ev evs IH]; intros idx; simpl.
  - split; [lia|done].
  - assert (∀ i, Event_is_universal (with_ev_idx ev i) = Event_is_universal ev)
      as Hsame by done.
    destruct (Event_is_universal ev) eqn:Hu.
    + destruct (IH (S idx)) as (Hn & Hf & Hi).
      destruct (number_universal (S idx) evs) as [evs' n]. simpl in *.
      rewrite (filter_cons_True _ ev evs) by (by rewrite Hu).
      rewrite (filter_cons_True _ (with_ev_idx ev idx) evs')
        by (by rewrite Hsame).
      split_and!.
      * simpl. lia.
      * rewrite Hsame. f_equal. exact Hf.
      * simpl. f_equal. exact Hi.
    + destruct (IH idx) as (Hn & Hf & Hi).
      destruct (number_universal idx evs) as [evs' n]. simpl in *.
      rewrite (filter_cons_False _ ev evs) by (rewrite Hu; intros []).
      rewrite (filter_cons_False _ ev evs') by (rewrite Hu; intros []).
      split_and!; [done| |done]. rewrite Hu. f_equal. exact Hf.
Qed.

Lemma fmap_eq_filter_length {A} (f : A → bool) (l1 l2 : list A) :
  f <$> l1 = f <$> l2 →
  length (filter (λ a, f a) l1) = length (filter (λ a, f a) l2).
Proof.
  revert l2. induction l1 as [|a l1 IH]; intros [|b l2]; try done.
  rewrite !fmap_cons. intros [= Hab Hl].
  destruct (f a) eqn:Ha.
  - rewrite (filter_cons_True _ a l1) by (by rewrite Ha).
    rewrite (filter_cons_True _ b l2) by (by rewrite <-Hab).
    simpl. auto.
  - rewrite (filter_cons_False _ a l1) by (rewrite Ha; intros []).
    rewrite (filter_cons_False _ b l2) by (rewrite <-Hab; intros []).
    auto.
Qed.

Lemma Timeline_link_numbering self log self' :
  Timeline_link self = (log, Ok self') →
  ∃ evs2 : list (Event T),
    events self' = reverse (number_universal 0 (reverse evs2)).1 ∧
    universal_evs self' = Some (number_universal 0 (reverse evs2)).2.
Proof.
  unfold Timeline_link.
  intros (? & rgs & ? & _ & Hk & _)%bind_Ok_inv.
  apply bind_Ok_inv in Hk as (? & evs & ? & _ & Hk & _).
  apply bind_Ok_inv in Hk as (? & [] & ? & _ & Hk & _).
  apply bind_Ok_inv in Hk as (? & self2 & ? & _ & Hk & _).
  exists (events self2).
  destruct (number_universal 0 (reverse (events self2))) as [revs idx].
  apply bind_Ok_inv in Hk as (? & cs & ? & _ & [= _ <-] & _). done.
Qed.

(** X15. Linking numbers the events that have neither a from nor a with
    range from the last event backwards: the last such event gets 0, the one
    before it 1, and so on, and the Timeline records how many there are. *)
Theorem X15_universal_events_numbered self log self' :
  Timeline_link self = (log, Ok self') →
  universal_evs self' = Some (length (universal (events self'))) ∧
  ev_idx <$> universal (reverse (events self'))
    = Some <$> seq 0 (length (universal (events self'))).
Proof.
  intros (evs2 & Hev & Hn)%Timeline_link_numbering.
  destruct (number_universal_spec (reverse evs2) 0) as (Hcount & Hf & Hi).
  assert (length (universal (events self'))
          = length (universal (reverse evs2))) as Hlen.
  { rewrite Hev. unfold universal. rewrite filter_reverse, length_reverse.
    by apply fmap_eq_filter_length. }
  rewrite Hn, Hcount, Hlen. split; [done|].
  by rewrite Hev, reverse_involutive.
Qed.

Lemma Timeline_link_times self log self' :
  Timeline_link self = (log, Ok self') →
  ∃ evs,
    py_sorted ev_time_lt (filter (λ ev, Event_is_valid ev) (events self))
      = Ok evs ∧
    ev_time <$> events self' = ev_time <$> evs ∧
    time_val <$> events self' = time_val <$> evs.
Proof.
  intros Hlink.
  destruct (Timeline_link_ranges_inv _ _ _ Hlink) as (l1 & rgs & Hrgs).
  destruct (Timeline_link_after_ranges _ _ _ Hrgs)
    as (log' & self1 & evs & Hlink' & Hevs & _ & Hev & _).
  rewrite Hlink in Hlink'. injection Hlink' as _ <-.
  exists evs. split; [done|].
  rewrite (Hev _ ev_time), (Hev _ time_val) by done.
  split; by apply list_fmap_ext.
Qed.

Lemma ev_time_valid (evs1 evs2 : list (Event T)) :
  ev_time <$> evs1 = ev_time <$> evs2 →
  Forall (λ ev, Event_is_valid ev = true) evs2 →
  Forall (λ ev, Event_is_valid ev = true) evs1.
Proof.
  intros Heq%fmap_eq_Forall2 Hall. rewrite Forall_forall in Hall |- *.
  intros ev (i & Hi)%list_elem_of_lookup.
  destruct (Forall2_lookup_l _ _ _ _ _ Heq Hi) as (ev2 & Hi2 & Ht).
  specialize (Hall ev2 (list_elem_of_lookup_2 _ _ _ Hi2)).
  unfold Event_is_valid in *. by rewrite Ht.
Qed.

Context `{!PyOrder T}.

(** X16. After linking every event has a time, and the events are in
    ascending order of time: no event is earlier than one that precedes it
    in the sequence. *)
Theorem X16_linked_events_sorted self log self' :
  Timeline_link self = (log, Ok self') →
  Forall (λ ev, Event_is_valid ev = true) (events self') ∧
  keys_sorted (time_val <$> events self').
Proof.
  intros (evs & Hevs & Ht & Htv)%Timeline_link_times.
  destruct (py_sorted_keys_sorted time_val
              (filter (λ ev, Event_is_valid ev) (events self)))
    as (evs' & Hevs' & Hsorted & Hperm); [apply valid_is_num|].
  unfold ev_time_lt in Hevs. rewrite Hevs in Hevs'. injection Hevs' as <-.
  split.
  - apply (ev_time_valid _ _ Ht). rewrite Hperm.
    apply Forall_forall. intros ev [Hv _]%list_elem_of_filter.
    by apply Is_true_true.
  - by rewrite Htv.
Qed.

End LinkMore.

Section BoundsMore.
Context {T : Type} `{!PyRuntime T}.
Implicit Types (self : Timeline T).

Lemma pick_from_raise flip (l : list (val T)) : ∀ m e,
  pick_from flip m l = Raise e → e = TypeError.
Proof.
  induction l as [|x l IH]; intros m e.
  - by destruct flip.
  - rewrite pick_from_cons.
    destruct (if flip then val_lt m x else val_lt x m) as [b|e'] eqn:Hb.
    + simpl. apply IH.
    + simpl. intros [= <-]. destruct flip, m, x; simpl in Hb; congruence.
Qed.

Lemma time_set_nil self :
  time_set self = [] ↔
  Forall (λ krg, rg_spans krg.2 = []) (ranges self) ∧ events self = [].
Proof.
  assert (time_set self = [] ↔ all_times (ranges self) (events self) = [])
    as ->.
  { split; intros Hnil.
    - destruct (all_times _ _) as [|x l] eqn:E; [done|].
      assert (x ∈ time_set self) as Hx
        by (apply elem_of_time_set; rewrite E; by left).
      rewrite Hnil in Hx. by apply elem_of_nil in Hx.
    - destruct (time_set self) as [|x l] eqn:E; [done|].
      assert (x ∈ all_times (ranges self) (events self)) as Hx
        by (apply elem_of_time_set; rewrite E; by left).
      rewrite Hnil in Hx. by apply elem_of_nil in Hx. }
  unfold all_times, span_times. split.
  - intros [Hs He]%app_eq_nil. split; [|by apply fmap_nil_inv in He].
    induction (ranges self) as [|[k rg] rgs IH]; [done|].
    simpl in Hs. apply app_eq_nil in Hs as [Hrg Hrgs].
    constructor; [|by apply IH]. simpl.
    by destruct (rg_spans rg).
  - intros [Hs ->]. rewrite app_nil_r.
    induction Hs as [|[k rg] rgs Hrg _ IH]; [done|].
    simpl in *. by rewrite Hrg, IH.
Qed.

(** X17. [time_bounds] raises the error of an empty [min] exactly when the
    Timeline has no time at all: no range has a span and there is no
    event. *)
Theorem X17_time_bounds_empty self :
  Timeline_time_bounds self = Raise ValueError ↔
  Forall (λ krg, rg_spans krg.2 = []) (ranges self) ∧ events self = [].
Proof.
  rewrite <-time_set_nil. unfold Timeline_time_bounds.
  destruct (time_set self) as [|m l]; [done|].
  split; [|done]. simpl.
  destruct (min_from m l) as [mn|e] eqn:Hmin; simpl.
  - destruct (max_from m l) as [mx|e] eqn:Hmax; simpl; [done|].
    intros [= ->]. by apply (pick_from_raise true) in Hmax.
  - intros [= ->]. by apply (pick_from_raise false) in Hmin.
Qed.

Context `{!PyOrder T}.

Lemma nums_of_all (l : list (val T)) :
  Forall is_num l →
  l = VNum <$> omap (λ v, match v with VNum x => Some x | _ => None end) l.
Proof.
  induction 1 as [|v l [x ->] _ IH]; [done|]. simpl. by f_equal.
Qed.

Lemma is_min_perm (n : T) l1 l2 :
  (∀ x, x ∈ l1 ↔ x ∈ l2) → is_min n l1 → is_min n l2.
Proof. intros Heq [Hin Hall]. split; [by apply Heq|]. intros x ?%Heq. auto. Qed.

Lemma is_max_perm (m : T) l1 l2 :
  (∀ x, x ∈ l1 ↔ x ∈ l2) → is_max m l1 → is_max m l2.
Proof. intros Heq [Hin Hall]. split; [by apply Heq|]. intros x ?%Heq. auto. Qed.

(** X18. When every time of a Timeline is a number and there is one,
    [time_bounds] returns the least and the greatest of the starts and ends
    of all spans and of the times of all events. *)
Theorem X18_time_bounds_extremes self :
  Forall is_num (all_times (ranges self) (events self)) →
  all_times (ranges self) (events self) ≠ [] →
  ∃ mn mx,
    Timeline_time_bounds self = Ok (VNum mn, VNum mx) ∧
    is_min mn (num_times self) ∧ is_max mx (num_times self).
Proof.
  intros Hnum Hne.
  assert (Forall is_num (time_set self)) as Hnum'.
  { rewrite Forall_forall in Hnum |- *. intros x Hx%elem_of_time_set. auto. }
  assert (time_set self ≠ []) as Hne'.
  { destruct (all_times _ _) as [|x l] eqn:E; [done|]. intros Hnil.
    assert (x ∈ time_set self) as Hx
      by (apply elem_of_time_set; rewrite E; by left).
    rewrite Hnil in Hx. by apply elem_of_nil in Hx. }
  pose proof (nums_of_all _ Hnum') as Hts.
  set (nums := omap _ (time_set self)) in Hts.
  assert (∀ x, x ∈ nums ↔ x ∈ num_times self) as Hsame.
  { intros x. unfold nums, num_times. rewrite !list_elem_of_omap.
    split; intros (v & Hv & Hf); exists v; (split; [|done]);
      by apply elem_of_time_set. }
  assert (nums ≠ []) as Hnums.
  { intros Hnil. rewrite Hnil in Hts. done. }
  unfold Timeline_time_bounds. rewrite Hts.
  destruct (py_min_nums _ Hnums) as (mn & -> & Hmin).
  destruct (py_max_nums _ Hnums) as (mx & -> & Hmax).
  exists mn, mx. split; [done|].
  split; [by eapply is_min_perm|by eapply is_max_perm].
Qed.

End BoundsMore.

Lemma X14_link_keeps_ranges_witness :
  ∃ log self',
    Timeline_link tml_kid = (log, Ok self') ∧
    Forall2 (range_linked_from tml_kid) (ranges tml_kid) (ranges self').
Proof.
  destruct (Timeline_link tml_kid) as [log [self'|e]] eqn:Hlink.
  - exists log, self'. split; [done|].
    exact (proj1 (X14_link_keeps_ranges (T:=Z) tml_kid log self' Hlink)).
  - exfalso. vm_compute in Hlink. discriminate Hlink.
Defined.

Lemma X15_universal_events_numbered_witness :
  ∃ log self',
    Timeline_link tml_tolerated = (log, Ok self') ∧
    universal_evs self' = Some (length (universal (events self'))).
Proof.
  destruct (Timeline_link tml_tolerated) as [log [self'|e]] eqn:Hlink.
  - exists log, self'. split; [done|].
    exact (proj1 (X15_universal_events_numbered (T:=Z) _ log self' Hlink)).
  - exfalso. vm_compute in Hlink. discriminate Hlink.
Defined.

(** The events at 30, at no time, at 10 and at 20 are linked in the order
    10, 20, 30. *)
Lemma X16_linked_events_sorted_witness :
  ∃ log self',
    Timeline_link tml_unsorted = (log, Ok self') ∧
    ev_time <$> events tml_unsorted = [Some 30; None; Some 10; Some 20]%Z ∧
    ev_name <$> events self' = [Some "first"; Some "middle"; Some "last"] ∧
    Forall (λ ev, Event_is_valid ev = true) (events self') ∧
    keys_sorted (time_val <$> events self').
Proof.
  destruct (Timeline_link tml_unsorted) as [log [self'|e]] eqn:Hlink;
    [|exfalso; vm_compute in Hlink; discriminate Hlink].
  pose proof (X16_linked_events_sorted (T:=Z) _ log self' Hlink)
    as [Hvalid Hsorted].
  pose proof Hlink as Hvalue. vm_compute in Hvalue.
  injection Hvalue as _ Hself.
  exists log, self'. split; [reflexivity|].
  split; [vm_compute; reflexivity|].
  split; [rewrite <-Hself; vm_compute; reflexivity|].
  split; [exact Hvalid|exact Hsorted].
Defined.

Lemma X18_time_bounds_extremes_witness :
  ∃ mn mx,
    Timeline_time_bounds tml_AB = Ok (VNum mn, VNum mx) ∧
    is_min mn (num_times tml_AB) ∧ is_max mx (num_times tml_AB).
Proof.
  apply (X18_time_bounds_extremes (T:=Z) tml_AB).
  - vm_compute. repeat constructor; by eexists.
  - vm_compute. discriminate.
Defined.

(** * Further properties of selectors and of the check *)

Section SelectMore.
Context {T : Type} `{!PyRuntime T}.
Implicit Types (self tml : Timeline T) (con : Constraint T).

Lemma elem_of_set_update (s xs : list (val T)) x :
  x ∈ set_update s xs ↔ x ∈ s ∨ x ∈ xs.
Proof.
  unfold set_update. revert s. induction xs as [|y xs IH]; intros s; simpl.
  - rewrite elem_of_nil. tauto.
  - rewrite IH, elem_of_set_add, elem_of_cons. tauto.
Qed.

Lemma set_update_NoDup (s xs : list (val T)) :
  NoDup s → NoDup (set_update s xs).
Proof.
  unfold set_update. revert s. induction xs as [|y xs IH]; intros s Hs;
    simpl; [done|].
  apply IH. by apply set_add_NoDup.
Qed.

(** X19. A selector whose first word is the name of a group resolves to the
    union of what the members of the group resolve to, when none of them
    raises: a time is in the result exactly when a member resolves to a
    set with this time, no time is repeated, and every member that
    resolves to nothing is reported. The words after the first are not
    looked at. *)
Theorem X19_group_collects_times depth (g : string) rest tml (grp : Group) :
  groups tml !! Some g = Some grp →
  (∀ ev, ev ∈ g_evs grp →
         is_ok (Constraint_select depth (SStr <$> ev) tml).2 = true) →
  ∃ log r,
    Constraint_select (S depth) (SStr g :: rest) tml = (log, Ok (Some r)) ∧
    gr_name r = SStr <$> g_name grp ∧
    NoDup (gr_times r) ∧
    (∀ x, x ∈ gr_times r ↔
          ∃ ev a, ev ∈ g_evs grp ∧
                  (Constraint_select depth (SStr <$> ev) tml).2 = Ok (Some a) ∧
                  x ∈ gr_times a) ∧
    (∀ ev, ev ∈ g_evs grp →
           (Constraint_select depth (SStr <$> ev) tml).2 = Ok None →
           WGroupUnresolvable (g_name grp) ev ∈ log).
Proof.
  intros Hg Hok. cbn [Constraint_select]. rewrite Hg.
  unfold Group_into_result.
  match goal with
  | |- context [?f [] (elements (g_evs grp))] =>
      assert (∀ (evs : list (list string)) times,
                NoDup times →
                (∀ ev, ev ∈ evs →
                   is_ok (Constraint_select depth (SStr <$> ev) tml).2 = true) →
                ∃ log times',
                  f times evs = (log, Ok times') ∧ NoDup times' ∧
                  (∀ x, x ∈ times' ↔
                     x ∈ times ∨
                     ∃ ev a, ev ∈ evs ∧
                       (Constraint_select depth (SStr <$> ev) tml).2
                         = Ok (Some a) ∧
                       x ∈ gr_times a) ∧
                  (∀ ev, ev ∈ evs →
                     (Constraint_select depth (SStr <$> ev) tml).2 = Ok None →
                     WGroupUnresolvable (g_name grp) ev ∈ log)) as Hloop
  end.
  { induction evs as [|ev evs IH]; intros times Hnd Hall.
    - exists [], times. split; [done|]. split; [done|]. split.
      + intros x. split; [by left|].
        intros [?|(? & ? & ?%elem_of_nil & _)]; done.
      + by intros ? ?%elem_of_nil.
    - cbn fix beta iota.
      pose proof (Hall ev (list_elem_of_here _ _)) as Hev.
      destruct (Constraint_select depth (SStr <$> ev) tml) as [l1 [[a|]|e]]
        eqn:Hsel; [| |done].
      + destruct (IH (set_update times (gr_times a))) as
          (l2 & times' & Hrun & Hnd' & Hin & Hrep).
        { by apply set_update_NoDup. }
        { intros ev' Hev'. apply Hall. by right. }
        exists (l1 ++ l2), times'. split.
        { by apply (bind_Ok (D:=diag T)) with (a := Some a). }
        split; [done|]. split.
        * intros x. rewrite Hin, elem_of_set_update. split.
          -- intros [[?|Hx]|(ev' & a' & Hev' & Ha' & Hx)]; [by left|..].
             ++ right. exists ev, a. rewrite Hsel. split; [by left|done].
             ++ right. exists ev', a'. split; [by right|done].
          -- intros [?|(ev' & a' & [->|Hev']%elem_of_cons & Ha' & Hx)].
             ++ by left; left.
             ++ rewrite Hsel in Ha'. simpl in Ha'. injection Ha' as <-.
                by left; right.
             ++ right. by exists ev', a'.
        * intros ev' [->|Hev']%elem_of_cons Hnone.
          -- by rewrite Hsel in Hnone.
          -- apply elem_of_app. right. by apply Hrep.
      + destruct (IH times) as (l2 & times' & Hrun & Hnd' & Hin & Hrep);
          [done|intros ev' Hev'; apply Hall; by right|].
        exists (l1 ++ WGroupUnresolvable (g_name grp) ev :: l2), times'.
        split.
        { apply (bind_Ok (D:=diag T)) with (a := None); [done|].
          by apply (bind_Ok (D:=diag T)) with (l1 := [_]) (a := tt). }
        split; [done|]. split.
        * intros x. rewrite Hin. split.
          -- intros [?|(ev' & a' & Hev' & Ha' & Hx)]; [by left|].
             right. exists ev', a'. split; [by right|done].
          -- intros [?|(ev' & a' & [->|Hev']%elem_of_cons & Ha' & Hx)].
             ++ by left.
             ++ by rewrite Hsel in Ha'.
             ++ right. by exists ev', a'.
        * intros ev' [->|Hev']%elem_of_cons Hnone.
          -- apply elem_of_app. right. by left.
          -- apply elem_of_app. right. right. by apply Hrep. }
  destruct (Hloop (elements (g_evs grp)) [] (NoDup_nil_2))
    as (log & times & Hrun & Hnd & Hin & Hrep).
  { intros ev Hev. apply Hok. by apply elem_of_elements. }
  exists log, (MkGroupResult (SStr <$> g_name grp) times). split.
  { rewrite Hrun. simpl. by rewrite !app_nil_r. }
  split; [done|]. split; [done|]. split.
  - intros x. simpl. rewrite Hin, elem_of_nil. split.
    + intros [[]|(ev & a & Hev%elem_of_elements & ?)]. eauto.
    + intros (ev & a & Hev & ?). right. exists ev, a.
      split; [by apply elem_of_elements|done].
  - intros ev Hev. apply Hrep. by apply elem_of_elements.
Qed.

(** X20. A group whose only member is its own name cannot be resolved: the
    selector calls itself without end, and whatever depth of recursion the
    interpreter allows, the recursion error is what comes out. *)
Theorem X20_self_referential_group (g : string) tml (grp : Group) :
  groups tml !! Some g = Some grp → g_evs grp = {[ [g] ]} →
  ∀ depth, Constraint_select depth [SStr g] tml = ([], Raise RecursionError).
Proof.
  intros Hg Hevs depth. induction depth as [|depth IH]; [done|].
  cbn [Constraint_select]. rewrite Hg. unfold Group_into_result.
  rewrite Hevs, elements_singleton. cbn fix beta iota.
  change (SStr <$> [g]) with [SStr g]. by rewrite IH.
Qed.

Lemma py_index_spec {A} (l : list A) (i : Z) :
  let n := Z.of_nat (length l) in
  ((-n ≤ i < n)%Z →
   ∃ a, l !! Z.to_nat (i `mod` n) = Some a ∧ py_index l i = Ok a) ∧
  ((i < -n ∨ n ≤ i)%Z → py_index l i = Raise IndexError).
Proof.
  intros n. unfold py_index. fold n. split.
  - intros Hi.
    assert (∃ a, l !! Z.to_nat (i `mod` n) = Some a) as [a Ha].
    { apply lookup_lt_is_Some_2.
      pose proof (Z.mod_pos_bound i n ltac:(lia)). lia. }
    exists a. split; [done|].
    destruct (Z.leb_spec 0 i).
    + rewrite Z.mod_small in Ha by lia. by rewrite Ha.
    + destruct (Z.leb_spec 0 (n + i)); [|lia].
      replace (i `mod` n)%Z with (n + i)%Z in Ha; [by rewrite Ha|].
      apply (Z.mod_unique i n (-1) (n + i)); lia.
  - intros Hi. destruct (Z.leb_spec 0 i).
    + rewrite lookup_ge_None_2; [done|]. lia.
    + destruct (Z.leb_spec 0 (n + i)); [lia|done].
Qed.

Lemma select_range_index depth (s prop : string) (i : Z) tml (rg : Range T) :
  groups tml !! Some s = None → dict_get s (ranges tml) = Some rg →
  Constraint_select (S depth) [SStr s; SInt i; SStr prop] tml
  = (sp ← lift (py_index (rg_spans rg) i);
     v ← lift (span_getattr sp (SStr prop));
     mret (Some (MkGroupResult (Some (SStr s)) [v]))).
Proof.
  intros Hg Hr. cbn [Constraint_select]. rewrite Hg, Hr.
  exact (bind_lift_Ok (D:=diag T) i
           (λ idx, sp ← lift (py_index (rg_spans rg) idx);
                   v ← lift (span_getattr sp (SStr prop));
                   mret (Some (MkGroupResult (Some (SStr s)) [v])))).
Qed.

(** X21. The span index of a selector follows the indexing of lists: with
    [n] spans, an index from [-n] to [n - 1] selects a span, counting from
    the end when it is negative, and every other index raises the index
    error; in particular every index does on a range without a span. *)
Theorem X21_span_index depth (s prop : string) (i : Z) tml (rg : Range T) :
  groups tml !! Some s = None → dict_get s (ranges tml) = Some rg →
  prop = "start" ∨ prop = "end" →
  let n := Z.of_nat (length (rg_spans rg)) in
  ((-n ≤ i < n)%Z →
   ∃ sp, rg_spans rg !! Z.to_nat (i `mod` n) = Some sp ∧
         Constraint_select (S depth) [SStr s; SInt i; SStr prop] tml
         = ([], Ok (Some (MkGroupResult (Some (SStr s))
                            [if bool_decide (prop = "start")
                             then sp_start sp else sp_end sp])))) ∧
  ((i < -n ∨ n ≤ i)%Z →
   Constraint_select (S depth) [SStr s; SInt i; SStr prop] tml
   = ([], Raise IndexError)).
Proof.
  intros Hg Hr Hprop n. rewrite (select_range_index _ _ _ _ _ _ Hg Hr).
  destruct (py_index_spec (rg_spans rg) i) as [Hin Hout]. split.
  - intros Hi. destruct (Hin Hi) as (sp & Hsp & ->). exists sp.
    split; [done|]. by destruct Hprop as [-> | ->].
  - intros Hi. by rewrite (Hout Hi).
Qed.

(** ** The check does not look at the constraints through the Timeline *)

Lemma into_result_ext
    (sel1 sel2 : list seltok → Timeline T → out T (option (GroupResult T)))
    (grp : Group) tml1 tml2 :
  (∀ sel, sel1 sel tml1 = sel2 sel tml2) →
  Group_into_result sel1 grp tml1 = Group_into_result sel2 grp tml2.
Proof.
  intros Hsel. unfold Group_into_result.
  match goal with
  | |- (?f1 [] _ ≫= _) = (?f2 [] _ ≫= _) =>
      assert (∀ evs times, f1 times evs = f2 times evs) as ->; [|done]
  end.
  induction evs as [|ev evs IH]; intros times; [done|].
  cbn fix beta iota. rewrite Hsel.
  apply bind_ext. intros l [r|] _; [apply IH|].
  apply bind_ext. intros _ _ _. apply IH.
Qed.

End SelectMore.

Section CheckMore.
Context {T : Type} `{!PyRuntime T}.
Implicit Types (self tml : Timeline T) (con : Constraint T).

Lemma select_constraints depth : ∀ sel tml (cs : list (Constraint T)),
  Constraint_select depth sel (with_constraints tml cs)
  = Constraint_select depth sel tml.
Proof.
  induction depth as [|depth IH]; intros sel tml cs; [done|].
  cbn [Constraint_select].
  change (groups (with_constraints tml cs)) with (groups tml).
  change (ranges (with_constraints tml cs)) with (ranges tml).
  change (events (with_constraints tml cs)) with (events tml).
  destruct sel as [|k rest]; [done|].
  destruct (match k with SStr s => groups tml !! Some s | SInt _ => None end)
    as [grp|]; [|done].
  f_equal. apply into_result_ext. intros sel. apply IH.
Qed.

Lemma verify_constraints depth con tml (cs : list (Constraint T)) :
  Constraint_verify depth con (with_constraints tml cs)
  = Constraint_verify depth con tml.
Proof.
  unfold Constraint_verify, select_attr.
  destruct (c_before con), (c_after con); by rewrite ?select_constraints.
Qed.

Lemma check_loop_constraints depth self (cs cons : list (Constraint T)) :
  ∀ good, check_loop depth (with_constraints self cs) good cons
          = check_loop depth self good cons.
Proof.
  induction cons as [|con cons IH]; intros good; [done|].
  cbn [check_loop]. rewrite verify_constraints.
  destruct (negb (Constraint_is_valid con)).
  - apply bind_ext. intros _ _ _. apply IH.
  - apply bind_ext. intros _ [|] _; [apply IH|].
    apply bind_ext. intros _ _ _. apply IH.
Qed.

Lemma Timeline_check_result depth self :
  (Timeline_check depth self).2
  = (check_loop depth self true (constraints self)).2.
Proof.
  unfold Timeline_check.
  destruct (check_loop depth self true (constraints self)) as [l [[|]|e]];
    done.
Qed.

Lemma bind_result_ext {D A B} (m : writer D A) (k1 k2 : A → writer D B) :
  (∀ a, (k1 a).2 = (k2 a).2) → (m ≫= k1).2 = (m ≫= k2).2.
Proof.
  destruct m as [l [a|e]]; [|done]. intros Hk. specialize (Hk a).
  unfold mbind, writer_bind. by destruct (k1 a), (k2 a).
Qed.

Lemma bind_warn_result {D B} (d : D) (k : unit → writer D B) :
  (warn d ≫= k).2 = (k tt).2.
Proof. unfold warn, mbind, writer_bind. by destruct (k tt). Qed.

Lemma check_loop_cons_result depth self con (cons : list (Constraint T)) good :
  (check_loop depth self good (con :: cons)).2
  = if Constraint_is_valid con
    then match (Constraint_verify depth con self).2 with
         | Ok ok => (check_loop depth self (good && ok) cons).2
         | Raise e => Raise e
         end
    else (check_loop depth self good cons).2.
Proof.
  cbn [check_loop]. destruct (Constraint_is_valid con); cbn [negb].
  - destruct (Constraint_verify depth con self) as [lv [[|]|e]];
      unfold mbind, writer_bind, warn; cbn [snd];
      rewrite ?andb_true_r, ?andb_false_r; [| |done].
    + by destruct (check_loop depth self good cons).
    + by destruct (check_loop depth self false cons).
  - unfold mbind, writer_bind, warn.
    by destruct (check_loop depth self good cons).
Qed.

(** What the loop of the check returns: a verdict when every valid
    constraint is verified without an exception, and then [good] unless a
    valid constraint fails; an exception otherwise. *)
Lemma check_loop_verdict depth self (cons : list (Constraint T)) : ∀ good,
  match (check_loop depth self good cons).2 with
  | Ok good' =>
      Forall (λ con, verifiable depth self con = true) cons ∧
      (good' = true ↔
       good = true ∧ Forall (λ con, passes depth self con = true) cons)
  | Raise _ => Exists (λ con, verifiable depth self con = false) cons
  end.
Proof.
  induction cons as [|con cons IH]; intros good.
  - simpl. split; [constructor|]. split; [by intros ->|by intros [-> _]].
  - rewrite check_loop_cons_result.
    destruct (Constraint_is_valid con) eqn:Hvalid.
    + destruct ((Constraint_verify depth con self).2) as [ok|e] eqn:Hv.
      * assert (verifiable depth self con = true) as Hver
          by (unfold verifiable; by rewrite Hvalid, Hv).
        assert (passes depth self con = ok) as Hpass
          by (unfold passes; by rewrite Hvalid, Hv).
        specialize (IH (good && ok)).
        destruct ((check_loop depth self (good && ok) cons).2) as [g'|e'].
        -- destruct IH as [Hall Hg]. split; [by constructor|].
           rewrite Hg, Forall_cons, Hpass, andb_true_iff. tauto.
        -- by right.
      * left. unfold verifiable. by rewrite Hvalid, Hv.
    + assert (verifiable depth self con = true) as Hver
        by (unfold verifiable; by rewrite Hvalid).
      assert (passes depth self con = true) as Hpass
        by (unfold passes; by rewrite Hvalid).
      specialize (IH good).
      destruct ((check_loop depth self good cons).2) as [g'|e'].
      * destruct IH as [Hall Hg]. split; [by constructor|].
        rewrite Hg, Forall_cons, Hpass. tauto.
      * by right.
Qed.

(** X22. Neither the verdict of the check nor whether it raises depends on
    the order in which the set of constraints is gone through: when the
    check returns a verdict for one order, it returns the same verdict for
    every other; when it raises for one order, it raises for every other
    (the exception may be another one). *)
Theorem X22_check_order_irrelevant depth self (cons' : list (Constraint T)) :
  cons' ≡ₚ constraints self →
  match (Timeline_check depth self).2 with
  | Ok good =>
      (Timeline_check depth (with_constraints self cons')).2 = Ok good
  | Raise _ =>
      is_ok (Timeline_check depth (with_constraints self cons')).2 = false
  end.
Proof.
  intros Hperm. rewrite !Timeline_check_result.
  change (constraints (with_constraints self cons')) with cons'.
  rewrite check_loop_constraints.
  pose proof (check_loop_verdict depth self (constraints self) true) as H1.
  pose proof (check_loop_verdict depth self cons' true) as H2.
  destruct ((check_loop depth self true (constraints self)).2) as [g1|e1],
    ((check_loop depth self true cons').2) as [g2|e2].
  - f_equal. destruct H1 as [_ Hg1], H2 as [_ Hg2].
    assert (g2 = true ↔ g1 = true) as Hiff
      by (by rewrite Hg1, Hg2, Hperm).
    destruct g1, g2; try done;
      [by destruct (proj2 Hiff)|by destruct (proj1 Hiff)].
  - exfalso. destruct H1 as [Hall _]. rewrite <-Hperm in Hall.
    rewrite Forall_forall in Hall.
    apply Exists_exists in H2 as (con & Hin & Hcon).
    rewrite (Hall con Hin) in Hcon. done.
  - exfalso. destruct H2 as [Hall _]. rewrite Hperm in Hall.
    rewrite Forall_forall in Hall.
    apply Exists_exists in H1 as (con & Hin & Hcon).
    rewrite (Hall con Hin) in Hcon. done.
  - done.
Qed.

(** X23. Invalid constraints have no part in the verdict of the check:
    without them the result is the same, be it the verdict or the error
    that a selector raises. *)
Theorem X23_invalid_constraints_ignored depth self :
  (Timeline_check depth
     (with_constraints self
        (filter (λ con, Constraint_is_valid con) (constraints self)))).2
  = (Timeline_check depth self).2.
Proof.
  rewrite !Timeline_check_result.
  change (constraints (with_constraints self ?cs)) with cs.
  rewrite check_loop_constraints.
  generalize true. induction (constraints self) as [|con cons IH];
    intros good; [done|].
  cbn [check_loop]. destruct (Constraint_is_valid con) eqn:Hvalid.
  - rewrite filter_cons_True by (by rewrite Hvalid).
    cbn [check_loop negb]. rewrite Hvalid. cbn [negb].
    apply bind_result_ext. intros [|]; [apply IH|].
    apply bind_result_ext. intros []. apply IH.
  - rewrite filter_cons_False by (rewrite Hvalid; intros []).
    cbn [negb]. etrans; [apply IH|].
    symmetry. apply (bind_warn_result (D:=diag T)).
Qed.

End CheckMore.

Lemma X19_group_collects_times_witness :
  ∃ log r,
    Constraint_select (T:=Z) 2 [SStr "g"] tml_group = (log, Ok (Some r)) ∧
    NoDup (gr_times r).
Proof.
  destruct (X19_group_collects_times (T:=Z) 1 "g" [] tml_group
              (MkGroup (Some "g") {[ ["A"]; ["B"; "0"; "end"]; ["nobody"] ]})
              eq_refl)
    as (log & r & Hsel & _ & Hnd & _).
  - intros ev Hev. apply elem_of_union in Hev as [Hev|Hev];
      [apply elem_of_union in Hev as [Hev|Hev]|];
      apply elem_of_singleton in Hev; subst ev; reflexivity.
  - exists log, r. split; [exact Hsel|exact Hnd].
Defined.

Lemma X20_self_referential_group_witness :
  Constraint_select (T:=Z) 1000 [SStr "loop"] tml_loop
  = ([], Raise RecursionError).
Proof.
  exact (X20_self_referential_group (T:=Z) "loop" tml_loop
           (MkGroup (Some "loop") {[ ["loop"] ]}) eq_refl eq_refl 1000).
Defined.

Lemma X21_span_index_witness :
  Constraint_select (T:=Z) 1 [SStr "A"; SInt (-2); SStr "end"] tml_AB
  = ([], Raise IndexError).
Proof.
  assert ("end" = "start" ∨ "end" = "end") as Hprop by (by right).
  apply (proj2 (X21_span_index (T:=Z) 0 "A" "end" (-2) tml_AB
                  (range_of "A" 0 10) eq_refl eq_refl Hprop)).
  simpl. lia.
Defined.

(** The constraints of [con_AB], of which the strict one fails, give the
    verdict [False] in both orders; those of [tml_clash] raise in both, a
    [ValueError] in one order and a [TypeError] in the other. *)
Lemma X22_check_order_irrelevant_witness :
  (Timeline_check 1
     (with_constraints (with_constraints tml_AB [con_AB false; con_AB true])
        [con_AB true; con_AB false])).2 = Ok false ∧
  (Timeline_check 2 tml_clash).2 = Raise ValueError ∧
  (Timeline_check 2
     (with_constraints tml_clash [con_begin_word; con_empty_group])).2
  = Raise TypeError ∧
  is_ok (Timeline_check 2
           (with_constraints tml_clash [con_begin_word; con_empty_group])).2
  = false.
Proof.
  split; [|split; [|split]].
  - pose proof (X22_check_order_irrelevant (T:=Z) 1
                  (with_constraints tml_AB [con_AB false; con_AB true])
                  [con_AB true; con_AB false] (Permutation_swap _ _ _)) as H.
    assert ((Timeline_check 1
               (with_constraints tml_AB [con_AB false; con_AB true])).2
            = Ok false) as Hbase by (vm_compute; reflexivity).
    rewrite Hbase in H. exact H.
  - vm_compute. reflexivity.
  - vm_compute. reflexivity.
  - pose proof (X22_check_order_irrelevant (T:=Z) 2 tml_clash
                  [con_begin_word; con_empty_group] (Permutation_swap _ _ _))
      as H.
    assert ((Timeline_check 2 tml_clash).2 = Raise ValueError) as Hbase
      by (vm_compute; reflexivity).
    rewrite Hbase in H. exact H.
Defined.

(** * Properties of the layout *)

Section LayoutFacts.
Context {T : Type}.
Implicit Types (self : Timeline T) (tml : layout).

Lemma Event_layout_fold (evs : list nat) : ∀ tml,
  current_y (foldl (λ tml ev, Event_layout ev tml) tml evs)
    = (current_y tml + Span_GAP * Z.of_nat (length evs))%Z ∧
  range_y (foldl (λ tml ev, Event_layout ev tml) tml evs) = range_y tml.
Proof.
  induction evs as [|ev evs IH]; intros tml; simpl.
  - split; [lia|done].
  - destruct (IH (Event_layout ev tml)) as [-> ->]. simpl. split; [lia|done].
Qed.

Lemma Range_layout_spec k (rg : Range T) tml :
  current_y (Range_layout k rg tml)
    = (current_y tml + Span_HEIGHT
       + Span_GAP * Z.of_nat (length (rg_hanging_events rg)))%Z ∧
  range_y (Range_layout k rg tml) = range_y tml ++ [(k, current_y tml)].
Proof.
  unfold Range_layout.
  destruct (Event_layout_fold (rg_hanging_events rg)
              (Layout (current_y tml + Span_HEIGHT)
                 (range_y tml ++ [(k, current_y tml)]) (event_y tml)))
    as [-> ->].
  done.
Qed.

Lemma ranges_layout_spec (rgs : list (string * Range T)) : ∀ tml,
  let tml' := foldl (λ tml (krg : string * Range T),
                       Range_layout krg.1 krg.2 tml) tml rgs in
  current_y tml'
    = (current_y tml + Span_HEIGHT * Z.of_nat (length rgs)
       + Span_GAP * Z.of_nat (length (hanging rgs)))%Z ∧
  range_y tml'
    = range_y tml
      ++ imap (λ i (krg : string * Range T),
                 (krg.1, (current_y tml + Span_HEIGHT * Z.of_nat i
                          + Span_GAP * Z.of_nat (length (hanging (take i rgs))))%Z))
              rgs.
Proof.
  induction rgs as [|[k rg] rgs IH]; intros tml; simpl.
  - split; [lia|by rewrite app_nil_r].
  - destruct (IH (Range_layout k rg tml)) as [Hy Hr].
    destruct (Range_layout_spec k rg tml) as [Hy1 Hr1].
    rewrite Hy, Hr, Hy1, Hr1. unfold hanging. simpl.
    rewrite length_app. split; [lia|].
    rewrite <-app_assoc. simpl. f_equal. f_equal.
    + f_equal. lia.
    + apply imap_ext. intros i [k' rg'] _. simpl. f_equal.
      rewrite length_app. lia.
Qed.

Lemma universal_layout_spec (l : list (nat * Event T)) : ∀ tml,
  let tml' := foldl (λ tml (pev : nat * Event T),
                       if Event_is_universal pev.2
                       then Event_layout pev.1 tml else tml) tml l in
  current_y tml'
    = (current_y tml
       + Span_GAP * Z.of_nat (length (filter (λ pev : nat * Event T,
                                                Event_is_universal pev.2) l)))%Z ∧
  range_y tml' = range_y tml.
Proof.
  induction l as [|[pos ev] l IH]; intros tml.
  - simpl. split; [lia|done].
  - cbn [foldl snd fst]. destruct (Event_is_universal ev) eqn:Hu.
    + destruct (IH (Event_layout pos tml)) as [-> ->].
      rewrite filter_cons_True by (simpl; by rewrite Hu).
      cbn [length Event_layout current_y range_y].
      rewrite Nat2Z.inj_succ. split; [lia|done].
    + destruct (IH tml) as [-> ->].
      by rewrite filter_cons_False by (simpl; rewrite Hu; intros []).
Qed.

Lemma filter_imap_snd {A} (P : A → bool) (l : list A) : ∀ g : nat → nat,
  length (filter (λ p : nat * A, P p.2) (imap (λ i x, (g i, x)) l))
  = length (filter (λ x, P x) l).
Proof.
  induction l as [|x l IH]; intros g; [done|].
  cbn [imap]. destruct (P x) eqn:HP.
  - rewrite !filter_cons_True by (simpl; by rewrite HP).
    simpl. f_equal. apply (IH (g ∘ S)).
  - rewrite !filter_cons_False by (simpl; rewrite HP; intros []).
    apply (IH (g ∘ S)).
Qed.

Lemma filter_imap_positions {A} (P : A → bool) (l : list A) :
  length (filter (λ p : nat * A, P p.2) (imap (λ i x, (i, x)) l))
  = length (filter (λ x, P x) l).
Proof. exact (filter_imap_snd P l id). Qed.

(** X24. The height of the layout is 50 for each range and 20 for each
    event that is drawn: those that hang on a range and those that have
    neither a from nor a with range. *)
Theorem X24_layout_height self :
  current_y (Timeline_layout self)
  = (50 * Z.of_nat (length (ranges self))
     + 20 * Z.of_nat (length (hanging (ranges self))
                      + length (universal (events self))))%Z.
Proof.
  unfold Timeline_layout.
  destruct (universal_layout_spec
              (reverse (imap (λ i ev, (i, ev)) (events self)))
              (foldl (λ tml (krg : string * Range T),
                        Range_layout krg.1 krg.2 tml)
                 (Layout 0 [] []) (ranges self))) as [-> _].
  destruct (ranges_layout_spec (ranges self) (Layout 0 [] [])) as [-> _].
  rewrite filter_reverse, length_reverse.
  rewrite (filter_imap_positions Event_is_universal (events self)).
  unfold universal, Span_HEIGHT, Span_GAP. cbn [current_y]. lia.
Qed.

(** X25. The ranges get their rows in their order in the mapping: the row of
    a range lies 50 below the row of the range before it, and 20 more for
    each event that hangs on that range; so no two ranges share a row, and
    the first is at 0. *)
Theorem X25_layout_range_rows self :
  range_y (Timeline_layout self)
  = imap (λ i (krg : string * Range T),
            (krg.1, (50 * Z.of_nat i
                     + 20 * Z.of_nat (length (hanging (take i (ranges self)))))%Z))
         (ranges self).
Proof.
  unfold Timeline_layout.
  destruct (universal_layout_spec
              (reverse (imap (λ i ev, (i, ev)) (events self)))
              (foldl (λ tml (krg : string * Range T),
                        Range_layout krg.1 krg.2 tml)
                 (Layout 0 [] []) (ranges self))) as [_ ->].
  destruct (ranges_layout_spec (ranges self) (Layout 0 [] [])) as [_ ->].
  simpl. apply imap_ext. intros i [k rg] _. simpl.
  unfold Span_HEIGHT, Span_GAP. f_equal.
Qed.

End LayoutFacts.

(** * Ambient ranges and hanging events *)

Section AmbientFacts.
Context {T : Type} `{!PyRuntime T}.
Implicit Types (self tml : Timeline T) (rg : Range T) (ev : Event T).

Lemma link_ranges_ambient self todo : ∀ done log rgs,
  link_ranges self done todo = (log, Ok rgs) →
  ∃ todo',
    rgs = done ++ todo' ∧
    Forall (λ krg, rg_ambient krg.2 = true → ambient_span krg.2) todo' ∧
    hanging todo' = hanging todo.
Proof.
  induction todo as [|[k rg] rest IH]; intros done log rgs; simpl.
  - intros [= <- <-]. exists []. by rewrite app_nil_r.
  - intros (l1 & rg' & l2 & Hrg & Hrest & _)%bind_Ok_inv.
    destruct (link_range_inv _ _ _ _ Hrg) as (spans & -> & Hsp).
    destruct (IH _ _ _ Hrest) as (todo' & -> & Hamb & Hhang).
    eexists (_ :: todo'). split; [by rewrite <-app_assoc|]. split.
    + constructor; [|done]. simpl. intros Ha. rewrite Ha in Hsp.
      destruct Hsp as (mnt & mxt & _ & ->). by exists mnt, mxt.
    + unfold hanging in *. simpl. by rewrite Hhang.
Qed.

Lemma forget_fields (d1 d2 : list (string * Range T)) :
  prod_map id forget_hanging <$> d1 = prod_map id forget_hanging <$> d2 →
  Forall2 (λ a b, rg_ambient a.2 = rg_ambient b.2 ∧ rg_spans a.2 = rg_spans b.2)
    d1 d2.
Proof.
  intros H%fmap_eq_Forall2. eapply Forall2_impl; [exact H|].
  intros [k1 r1] [k2 r2] Hf. simpl in Hf.
  by injection Hf as _ _ _ _ _ Hs _ Ha _ _.
Qed.

(** X26. Linking invents no time: the start and the end of every span of a
    linked range is a start or an end of a span, or the time of an event,
    of the Timeline that was linked. And every ambient range comes out with
    exactly one span, from a [begin] to an [end]. *)
Theorem X26_link_invents_no_time self log self' :
  Timeline_link self = (log, Ok self') →
  (∀ x, x ∈ span_times (ranges self') →
        x ∈ all_times (ranges self) (events self)) ∧
  Forall (λ krg, rg_ambient krg.2 = true → ambient_span krg.2) (ranges self').
Proof.
  intros Hlink.
  destruct (Timeline_link_ranges_inv _ _ _ Hlink) as (l1 & rgs & Hrgs).
  destruct (Timeline_link_after_ranges _ _ _ Hrgs)
    as (log' & self1 & evs & Hlink' & _ & Hfor & _).
  rewrite Hlink in Hlink'. injection Hlink' as _ <-.
  destruct (link_ranges_first _ _ _ _ _ Hrgs) as (todo' & Heq & _ & Hsub & _).
  simpl in Heq. subst todo'. simpl in Hsub.
  destruct (link_ranges_ambient _ _ _ _ _ Hrgs) as (todo' & Heq & Hamb & _).
  simpl in Heq. subst todo'. split.
  - intros x. rewrite (span_times_forget _ _ Hfor). apply Hsub.
  - apply forget_fields in Hfor.
    apply Forall_forall. intros krg (i & Hi)%list_elem_of_lookup.
    destruct (Forall2_lookup_l _ _ _ _ _ Hfor Hi) as (krg1 & Hi1 & Ha & Hs).
    rewrite Forall_forall in Hamb.
    specialize (Hamb krg1 (list_elem_of_lookup_2 _ _ _ Hi1)).
    unfold ambient_span in *. rewrite Ha, Hs. exact Hamb.
Qed.

(** ** Hanging events *)

Lemma hanging_dict_set (k : string) rg pos (d : list (string * Range T)) :
  dict_get k d = Some rg →
  hanging (dict_set k (add_hanging rg pos) d) ≡ₚ pos :: hanging d.
Proof.
  unfold hanging. induction d as [|[k' rg'] d IH]; simpl; [done|].
  case_bool_decide.
  - intros [= ->]. simpl. rewrite <-app_assoc.
    symmetry. apply Permutation_middle.
  - intros Hd. simpl. rewrite (IH Hd).
    symmetry. apply Permutation_middle.
Qed.

Lemma Event_link_hanging ev pos tml log ev' rgs :
  Event_link ev pos tml = (log, Ok (ev', rgs)) →
  ev_with_rg ev' = (resolve (ev_with_rg ev) tml).1 ∧
  rgs.*1 = (ranges tml).*1 ∧
  hanging rgs
    ≡ₚ (if refs_nonempty (ev_with_rg ev') then [pos] else [])
       ++ hanging (ranges tml).
Proof.
  unfold Event_link.
  destruct (resolve (ev_from_rg ev) tml) as [from_rg dfrom].
  destruct (resolve (ev_with_rg ev) tml) as [with_rg dwith].
  cbv beta iota zeta.
  intros (? & [] & ? & _ & Hk & _)%bind_Ok_inv.
  apply bind_Ok_inv in Hk as (? & [] & ? & _ & Hk & _).
  destruct (refs_nonempty with_rg) eqn:Hne.
  - apply bind_Ok_inv in Hk as (? & by_idx & ? & [Hs _]%lift_Ok_inv & Hk & _).
    destruct (last by_idx) as [[k rg]|] eqn:Hlast; [|done].
    injection Hk as _ <- <-. simpl. rewrite Hne.
    assert (dict_get k (ranges tml) = Some rg) as Hd.
    { apply (ref_objects_spec with_rg).
      rewrite <-(py_sorted_perm _ _ _ Hs). by eapply last_Some_elem_of. }
    split; [done|]. split; [by apply dict_set_keys|].
    by apply hanging_dict_set.
  - injection Hk as _ <- <-. simpl. by rewrite Hne.
Qed.

Lemma hang_positions_cons start ev (evs : list (Event T)) :
  hang_positions start (ev :: evs)
  = (if refs_nonempty (ev_with_rg ev) then [start] else [])
    ++ hang_positions (S start) evs.
Proof.
  unfold hang_positions. cbn [imap]. rewrite Nat.add_0_r.
  assert (imap ((λ i ev0, (start + i, ev0)) ∘ S) evs
          = imap (λ i ev0, (S start + i, ev0)) evs) as ->.
  { apply imap_ext. intros i x _. simpl. f_equal. lia. }
  destruct (refs_nonempty (ev_with_rg ev)) eqn:Hne.
  - rewrite filter_cons_True by (simpl; by rewrite Hne). by rewrite fmap_cons.
  - by rewrite filter_cons_False by (simpl; rewrite Hne; intros []).
Qed.

Lemma hang_positions_ext start (evs1 evs2 : list (Event T)) :
  ev_with_rg <$> evs1 = ev_with_rg <$> evs2 →
  hang_positions start evs1 = hang_positions start evs2.
Proof.
  revert start evs2. induction evs1 as [|e1 evs1 IH]; intros start [|e2 evs2];
    try done.
  rewrite !fmap_cons. intros [= He Hl].
  rewrite !hang_positions_cons, He. f_equal. by apply IH.
Qed.

Lemma link_events_hanging todo : ∀ self done log self',
  link_events self done todo = (log, Ok self') →
  ∃ todo',
    events self' = done ++ todo' ∧
    hanging (ranges self')
      ≡ₚ hang_positions (length done) todo' ++ hanging (ranges self).
Proof.
  induction todo as [|ev rest IH]; intros self done log self'; simpl.
  - intros [= _ <-]. exists []. simpl. by rewrite app_nil_r.
  - intros (? & [ev' rgs] & ? & Hev & Hrest & _)%bind_Ok_inv.
    destruct (Event_link_hanging _ _ _ _ _ _ Hev) as (_ & _ & Hhang).
    destruct (IH _ _ _ _ Hrest) as (todo' & Hevs & Hperm).
    exists (ev' :: todo'). split; [by rewrite Hevs, <-app_assoc|].
    rewrite Hperm, hang_positions_cons. simpl. rewrite Hhang.
    rewrite length_app. simpl.
    replace (length done + 1) with (S (length done)) by lia.
    rewrite !app_assoc. apply Permutation_app_tail, Permutation_app_comm.
Qed.

(** X27. When no range has a hanging event before, linking hangs each event
    that has a with-range on exactly one range, and no other event on any:
    the events that hang on the ranges are, each once, the events of the
    linked sequence whose with-set is not empty. *)
Theorem X27_hanging_events self log self' :
  hanging (ranges self) = [] →
  Timeline_link self = (log, Ok self') →
  hanging (ranges self') ≡ₚ hang_positions 0 (events self').
Proof.
  intros Hnone Hlink. unfold Timeline_link in Hlink.
  apply bind_Ok_inv in Hlink as (? & rgs & ? & Hrgs & Hk & _).
  apply bind_Ok_inv in Hk as (? & evs & ? & _ & Hk & _).
  apply bind_Ok_inv in Hk as (? & [] & ? & _ & Hk & _).
  apply bind_Ok_inv in Hk as (? & self2 & ? & Hevs & Hk & _).
  destruct (link_ranges_ambient _ _ _ _ _ Hrgs) as (todo' & Heq & _ & Hhang).
  simpl in Heq. subst todo'. rewrite Hnone in Hhang.
  destruct (link_events_hanging _ _ _ _ _ Hevs) as (evs2 & Hevs2 & Hperm).
  simpl in Hevs2, Hperm. rewrite Hhang, app_nil_r in Hperm.
  pose proof (number_universal_fmap ev_with_rg (reverse (events self2))
                ltac:(done) 0) as Hnum.
  destruct (number_universal 0 (reverse (events self2))) as [revs idx].
  apply bind_Ok_inv in Hk as (? & cs & ? & _ & [= _ <-] & _). simpl in *.
  rewrite Hperm, <-Hevs2. apply reflexive_eq, hang_positions_ext.
  by rewrite fmap_reverse, Hnum, fmap_reverse, reverse_involutive.
Qed.

End AmbientFacts.

Lemma X26_link_invents_no_time_witness :
  ∃ log self',
    Timeline_link tml_ambient = (log, Ok self') ∧
    Forall (λ krg, rg_ambient krg.2 = true → ambient_span krg.2)
      (ranges self').
Proof.
  destruct (Timeline_link tml_ambient) as [log [self'|e]] eqn:Hlink.
  - exists log, self'. split; [done|].
    exact (proj2 (X26_link_invents_no_time (T:=Z) _ log self' Hlink)).
  - exfalso. vm_compute in Hlink. discriminate Hlink.
Defined.

Lemma X27_hanging_events_witness :
  ∃ log self',
    Timeline_link tml_wedding = (log, Ok self') ∧
    hanging (ranges self') ≡ₚ hang_positions 0 (events self').
Proof.
  destruct (Timeline_link tml_wedding) as [log [self'|e]] eqn:Hlink.
  - exists log, self'. split; [done|].
    exact (X27_hanging_events (T:=Z) tml_wedding log self' eq_refl Hlink).
  - exfalso. vm_compute in Hlink. discriminate Hlink.
Defined.

(** * The stream between the tokenizer and the parser *)

Section StreamFacts.

Lemma indents_followed_app l1 l2 :
  indents_followed l1 = true → indents_followed l2 = true →
  indents_followed (l1 ++ l2) = true.
Proof.
  intros H1 H2. induction l1 as [|t l1 IH]; [done|].
  destruct t as [| |s]; simpl in *; [|by apply IH..].
  destruct l1 as [|[| |s'] l1]; try done. by apply IH.
Qed.

Lemma indents_followed_dedents n l :
  indents_followed l = true →
  indents_followed (replicate n DEDENT ++ l) = true.
Proof. intros Hl. induction n; [done|]. simpl. done. Qed.

Lemma tokenize_line_indents tabs st line :
  indents_followed (tokenize_line tabs st line).1 = true.
Proof.
  unfold tokenize_line.
  destruct (line_level _ _ _) as [[lev ot]|e]; [|done].
  destruct (lev_stack st) as [|top below] eqn:Hst; [done|].
  destruct (Z.ltb_spec top lev); [done|].
  destruct (Z.ltb_spec lev top); [|done].
  destruct (pop_levels lev (top :: below)) as [o stack'] eqn:Hpop.
  destruct (pop_levels_spec _ _ _ _ Hpop) as (popped & _ & _ & -> & _).
  destruct stack' as [|top' below']; simpl.
  { rewrite <-(app_nil_r (replicate _ _)). by apply indents_followed_dedents. }
  destruct (Z.ltb_spec top' lev); simpl.
  - rewrite <-(app_nil_r (replicate _ _)). by apply indents_followed_dedents.
  - by apply indents_followed_dedents.
Qed.

Lemma tokenize_loop_indents tabs lines : ∀ st,
  indents_followed (tokenize_loop tabs st lines).1 = true.
Proof.
  induction lines as [|line rest IH]; intros st; [done|]. simpl.
  pose proof (tokenize_line_indents tabs st line) as Hline.
  destruct (tokenize_line tabs st line) as [o [st1|e]]; [|done].
  specialize (IH st1). destruct (tokenize_loop tabs st1 rest) as [o' r].
  by apply indents_followed_app.
Qed.

(** X28. A line opens at most one block, however far it is indented: in
    every run of the tokenizer an INDENT is directly followed by the token
    of the line that made it, never by another INDENT or by a DEDENT. *)
Theorem X28_indent_followed_by_line tabs lines :
  indents_followed (toks (tokenize tabs lines)) = true.
Proof.
  unfold tokenize, tokenize_run.
  pose proof (tokenize_loop_indents tabs lines tok_init) as Hrun.
  destruct (tokenize_loop tabs tok_init lines) as [out [st|e]]; [|done].
  rewrite close_blocks_spec. simpl.
  apply indents_followed_app; [done|].
  rewrite <-(app_nil_r (replicate _ _)). by apply indents_followed_dedents.
Qed.

End StreamFacts.

Section ParseStreamFacts.
Context {T : Type} `{!PyRuntime T}.

Lemma Timeline_loop_drains fuel : ∀ fin (inst : Timeline T) tok log tml,
  length tok ≤ fuel →
  Timeline_loop fuel fin inst tok = (log, Ok tml) → fin = None.
Proof.
  induction fuel as [|fuel IH]; intros fin inst tok log tml Hlen.
  { destruct tok; [|simpl in Hlen; lia]. simpl. by destruct fin. }
  destruct tok as [|t rest]; [simpl; by destruct fin|].
  simpl in Hlen. destruct t as [| |s]; cbn [Timeline_loop].
  - intros (? & [] & ? & _ & Hk & _)%bind_Ok_inv.
    eapply IH; [|exact Hk]. lia.
  - intros (? & [] & ? & _ & Hk & _)%bind_Ok_inv.
    eapply IH; [|exact Hk]. lia.
  - case_bool_decide; [intros Hk; eapply IH; [|exact Hk]; lia|].
    intros (? & kind & ? & _ & Hk & _)%bind_Ok_inv.
    case_bool_decide.
    { apply bind_Ok_inv in Hk as (? & rest' & ? & Hskip%skip_block_rest & Hk & _).
      eapply IH; [|exact Hk]. lia. }
    destruct (handler kind) as [from_tokens|] eqn:Hh.
    + destruct rest as [|[| |s'] body]; [done| |..].
      * apply bind_Ok_inv in Hk as (? & [o rest'] & ? & Hft & Hk & _).
        apply (handler_rest _ _ _ _ _ _ _ _ Hh) in Hft.
        apply bind_Ok_inv in Hk as (? & inst' & ? & _ & Hk & _).
        eapply IH; [|exact Hk]. simpl in *. lia.
      * apply bind_Ok_inv in Hk as (? & [] & ? & _ & Hk & _).
        eapply IH; [|exact Hk]. simpl in *. lia.
      * apply bind_Ok_inv in Hk as (? & [] & ? & _ & Hk & _).
        eapply IH; [|exact Hk]. simpl in *. lia.
    + apply bind_Ok_inv in Hk as (? & [] & ? & _ & Hk & _).
      apply bind_Ok_inv in Hk as (? & rest' & ? & Hskip%skip_block_rest & Hk & _).
      eapply IH; [|exact Hk]. lia.
Qed.

(** X29. The parser never swallows an error of the tokenizer: when
    [Timeline.from_tokens] returns a Timeline, the tokenizer was run to the
    end of the input and raised nothing. *)
Theorem X29_parse_drains_tokenizer (tok : stream) log (tml : Timeline T) :
  Timeline_from_tokens tok = (log, Ok tml) → fin tok = None.
Proof.
  unfold Timeline_from_tokens. apply Timeline_loop_drains. lia.
Qed.

End ParseStreamFacts.

Lemma X29_parse_drains_tokenizer_witness :
  fin (tokenize (Some 4%Z) kid_lines) = None.
Proof.
  destruct (Timeline_from_tokens (T:=Z) (tokenize (Some 4%Z) kid_lines))
    as [log [tml|e]] eqn:Hparse.
  - exact (X29_parse_drains_tokenizer (T:=Z) _ log tml Hparse).
  - exfalso. vm_compute in Hparse. discriminate Hparse.
Defined.
(** * The whole run: parsing, linking and checking *)

Section RaisesOnly.
Context {D : Type}.


Lemma raises_only_ret {A} fin (P : A → Prop) a :
  P a → raises_only (D:=D) fin P (mret a).
Proof. done. Qed.

Lemma raises_only_warn fin (d : D) : raises_only fin (λ _, True) (warn d).
Proof. done. Qed.


Lemma raises_only_impl {A} fin (P Q : A → Prop) (m : writer D A) :
  raises_only fin P m → (∀ a, P a → Q a) → raises_only fin Q m.
Proof.
  unfold raises_only. destruct (m.2); [|done]. intros Ha HQ. by apply HQ.
Qed.




End RaisesOnly.

Section ParseTotal.
Context {T : Type} `{!PyRuntime T}.



(** ** The directives *)







(** ** The builders *)








(** ** [Timeline.add] and the root loop *)









(** ** The conditions are needed *)
















End ParseTotal.

Section LinkAndCheck.
Context {T : Type} `{!PyRuntime T}.
Implicit Types (self tml : Timeline T) (rg : Range T) (ev : Event T).

(** ** Linking *)





(** ** Checking *)






End LinkAndCheck.


